(** * font8x8: arena allocator, UTF-8 decoder and glyph extraction

    A shallow embedding of [src/main.c].  Pointers are addresses in [Z];
    [uptr] computations wrap modulo 2^64 and [u32] computations modulo 2^32,
    as the C types do.  Signed ([isize]) and pointer arithmetic is not
    wrapped: overflow there is undefined in C, and the statements below say
    which ranges they assume.  Bytes ([u8]) are numbers in [0, 256). *)

From Stdlib Require Import ZArith List Bool Lia.
Import ListNotations.
Local Open Scope Z_scope.

(** ** Machine integers *)

Definition to_uptr (z : Z) : Z := z mod 2 ^ 64.
Definition to_isize (z : Z) : Z := (z + 2 ^ 63) mod 2 ^ 64 - 2 ^ 63.
Definition u32 (z : Z) : Z := z mod 2 ^ 32.
Definition in_isize (z : Z) : Prop := - 2 ^ 63 <= z < 2 ^ 63.
Definition is_u8 (z : Z) : Prop := 0 <= z < 256.

(** ** Arena allocator (main.c, lines 58-101) *)

Module Arena.

Definition ARENA_DEFAULT_ALIGNMENT : Z := 16.
Definition NULL : Z := 0.

(** [typedef struct { u8 *begin; u8 *end; } Arena;] *)
Record Arena : Type := mkArena { begin : Z; end_ : Z }.

(** The two ways an allocation terminates the process: the [assert] on the
    alignment, and [abort()] after "Arena overflow." *)
Inductive AbortReason : Type := AssertionFailed | ArenaOverflow.

(** Result of an allocator call: the process died, or a pointer came back
    together with the updated arena. *)
Inductive Alloc : Type :=
| Abort (why : AbortReason)
| Ret (ptr : Z) (arena : Arena).

Definition is_abort (r : Alloc) : bool :=
  match r with Abort _ => true | Ret _ _ => false end.

(** [alignment > 0 && (alignment & (alignment - 1)) == 0] *)
Definition valid_alignment (alignment : Z) : bool :=
  (0 <? alignment) && (Z.land alignment (alignment - 1) =? 0).

(** [(isize)((~(uptr)arena->begin + 1) & ((uptr)alignment - 1))] *)
Definition arena_padding (arena : Arena) (alignment : Z) : Z :=
  to_isize
    (Z.land (to_uptr (to_uptr (Z.lnot (to_uptr (begin arena))) + 1))
            (to_uptr (to_uptr alignment - 1))).

Definition arena_alloc_aligned (arena : Arena) (size alignment : Z) : Alloc :=
  if negb (valid_alignment alignment) then Abort AssertionFailed
  else if size =? 0 then Ret NULL arena
  else
    let padding := arena_padding arena alignment in
    let memory_left := end_ arena - begin arena - padding in
    if (memory_left <? 0) || (memory_left <? size) then Abort ArenaOverflow
    else Ret (begin arena + padding)
             {| begin := begin arena + padding + size; end_ := end_ arena |}.

Definition arena_alloc (arena : Arena) (size : Z) : Alloc :=
  arena_alloc_aligned arena size ARENA_DEFAULT_ALIGNMENT.

(** Byte-addressed memory, needed for the copy made by [arena_realloc]. *)
Definition Mem : Type := Z -> Z.

(** [memcpy(dst, src, n)] on regions that do not overlap. *)
Definition memcpy (m : Mem) (dst src n : Z) : Mem :=
  fun a => if (dst <=? a) && (a <? dst + n) then m (src + (a - dst)) else m a.

Definition load_bytes (m : Mem) (ptr : Z) (n : nat) : list Z :=
  map (fun i => m (ptr + Z.of_nat i)) (seq 0 n).

Definition arena_realloc (arena : Arena) (m : Mem)
    (old_ptr old_size new_size : Z) : Alloc * Mem :=
  if old_size >=? new_size then (Ret old_ptr arena, m)
  else if negb (old_ptr =? NULL) && (old_ptr + old_size =? begin arena) then
    (arena_alloc {| begin := old_ptr; end_ := end_ arena |} new_size, m)
  else
    match arena_alloc arena new_size with
    | Abort why => (Abort why, m)
    | Ret new_ptr arena' => (Ret new_ptr arena', memcpy m new_ptr old_ptr old_size)
    end.

(** A run of allocation requests [(size, alignment)], all of which must
    succeed; used to speak about "any sequence of successful allocations". *)
Fixpoint alloc_all (arena : Arena) (reqs : list (Z * Z)) : option Arena :=
  match reqs with
  | [] => Some arena
  | (size, alignment) :: reqs' =>
      match arena_alloc_aligned arena size alignment with
      | Abort _ => None
      | Ret _ arena' => alloc_all arena' reqs'
      end
  end.

Definition total_size (reqs : list (Z * Z)) : Z :=
  fold_right (fun r acc => fst r + acc) 0 reqs.

Definition remaining (arena : Arena) : Z := end_ arena - begin arena.

End Arena.

(** ** UTF-8 decoding and validation (main.c, lines 103-215) *)

Module Utf8.

(** [typedef struct { u8 *data; isize size; } StringView;]
    [data] is the list of bytes readable from the pointer on, up to the end
    of the buffer it points into; [size] is the length field. *)
Record StringView : Type := mkView { data : list Z; size : Z }.

Definition view_bytes (s : StringView) : list Z :=
  firstn (Z.to_nat (size s)) (data s).

Definition utf8_char_size : list Z :=
(*  0  1  2  3  4  5  6  7  8  9  A  B  C  D  E  F *)
  [ 1; 1; 1; 1; 1; 1; 1; 1; 1; 1; 1; 1; 1; 1; 1; 1;  (* 0 *)
    1; 1; 1; 1; 1; 1; 1; 1; 1; 1; 1; 1; 1; 1; 1; 1;  (* 1 *)
    1; 1; 1; 1; 1; 1; 1; 1; 1; 1; 1; 1; 1; 1; 1; 1;  (* 2 *)
    1; 1; 1; 1; 1; 1; 1; 1; 1; 1; 1; 1; 1; 1; 1; 1;  (* 3 *)
    1; 1; 1; 1; 1; 1; 1; 1; 1; 1; 1; 1; 1; 1; 1; 1;  (* 4 *)
    1; 1; 1; 1; 1; 1; 1; 1; 1; 1; 1; 1; 1; 1; 1; 1;  (* 5 *)
    1; 1; 1; 1; 1; 1; 1; 1; 1; 1; 1; 1; 1; 1; 1; 1;  (* 6 *)
    1; 1; 1; 1; 1; 1; 1; 1; 1; 1; 1; 1; 1; 1; 1; 1;  (* 7 *)
    0; 0; 0; 0; 0; 0; 0; 0; 0; 0; 0; 0; 0; 0; 0; 0;  (* 8 *)
    0; 0; 0; 0; 0; 0; 0; 0; 0; 0; 0; 0; 0; 0; 0; 0;  (* 9 *)
    0; 0; 0; 0; 0; 0; 0; 0; 0; 0; 0; 0; 0; 0; 0; 0;  (* A *)
    0; 0; 0; 0; 0; 0; 0; 0; 0; 0; 0; 0; 0; 0; 0; 0;  (* B *)
    0; 0; 2; 2; 2; 2; 2; 2; 2; 2; 2; 2; 2; 2; 2; 2;  (* C *)
    2; 2; 2; 2; 2; 2; 2; 2; 2; 2; 2; 2; 2; 2; 2; 2;  (* D *)
    3; 3; 3; 3; 3; 3; 3; 3; 3; 3; 3; 3; 3; 3; 3; 3;  (* E *)
    4; 4; 4; 4; 4; 0; 0; 0; 0; 0; 0; 0; 0; 0; 0; 0   (* F *) ].

(** [utf8_char_size[b]] for a byte [b]. *)
Definition char_size_of (b : Z) : Z := nth (Z.to_nat b) utf8_char_size 0.

(** [string->data[i]]; [None] when the read leaves the buffer. *)
Definition byte_at (s : StringView) (i : nat) : option Z := nth_error (data s) i.

Definition shl32 (z n : Z) : Z := u32 (Z.shiftl z n).

(** The [switch] of [utf8_chop_char]: the code point for a given
    [char_size].  [None] is undefined behaviour: a read outside the buffer
    or the [UNREACHABLE()] default case. *)
Definition decode_char (s : StringView) (char_size : Z) : option Z :=
  match char_size with
  | 1 =>
      match byte_at s 0 with
      | Some b0 => Some (u32 b0)
      | _ => None
      end
  | 2 =>
      match byte_at s 0, byte_at s 1 with
      | Some b0, Some b1 =>
          Some (Z.lor (shl32 (u32 (Z.land b0 0x1f)) 6)
                      (u32 (Z.land b1 0x3f)))
      | _, _ => None
      end
  | 3 =>
      match byte_at s 0, byte_at s 1, byte_at s 2 with
      | Some b0, Some b1, Some b2 =>
          Some (Z.lor (Z.lor (shl32 (u32 (Z.land b0 0x0f)) 12)
                             (shl32 (u32 (Z.land b1 0x3f)) 6))
                      (u32 (Z.land b2 0x3f)))
      | _, _, _ => None
      end
  | 4 =>
      match byte_at s 0, byte_at s 1, byte_at s 2, byte_at s 3 with
      | Some b0, Some b1, Some b2, Some b3 =>
          Some (Z.lor (Z.lor (Z.lor (shl32 (u32 (Z.land b0 0x07)) 18)
                                    (shl32 (u32 (Z.land b1 0x3f)) 12))
                             (shl32 (u32 (Z.land b2 0x3f)) 6))
                      (u32 (Z.land b3 0x3f)))
      | _, _, _, _ => None
      end
  | _ => None
  end.

(** What [utf8_chop_char] hands back: the returned slice, the value stored
    through [char_code], and the advanced [*string]. *)
Record Chopped : Type := mkChopped
  { slice : StringView; code : Z; rest : StringView }.

Definition utf8_chop_char (s : StringView) : option Chopped :=
  match byte_at s 0 with
  | None => None
  | Some b0 =>
      let char_size := char_size_of b0 in
      match decode_char s char_size with
      | None => None
      | Some char_code =>
          Some {| slice := {| data := data s; size := char_size |};
                  code := char_code;
                  rest := {| data := skipn (Z.to_nat char_size) (data s);
                             size := size s - char_size |} |}
      end
  end.

(** The body of [utf8_validate]'s [while] loop, iterated at most [fuel]
    times.  [None]: undefined behaviour (a read outside the buffer) or no
    fuel left. *)
Fixpoint utf8_validate_loop (fuel : nat) (s : StringView) : option bool :=
  if size s >? 0 then
    match fuel with
    | O => None
    | S fuel' =>
        match byte_at s 0 with
        | None => None
        | Some b0 =>
            let char_size := char_size_of b0 in
            if (char_size =? 0) || (size s <? char_size) then Some false
            else
              match utf8_chop_char s with
              | None => None
              | Some c =>
                  let char_code := code c in
                  if (char_size =? 3)
                     && ((char_code <? 0x0800) || (char_code >? 0xffff))
                  then Some false
                  else if (char_size =? 3)
                     && ((char_code >=? 0xd800) && (char_code <=? 0xdfff))
                  then Some false
                  else if (char_size =? 4)
                     && ((char_code <? 0x10000) || (char_code >? 0x10ffff))
                  then Some false
                  else utf8_validate_loop fuel' (rest c)
              end
        end
    end
  else Some true.

(** Every iteration removes at least one byte, so [size] iterations are
    enough (shown below as [utf8_validate_total]). *)
Definition utf8_validate (s : StringView) : option bool :=
  utf8_validate_loop (Z.to_nat (size s)) s.

Definition char_is_space (char_code : Z) : bool :=
  (char_code =? 0x0020) ||
  (char_code =? 0x0009) ||
  (char_code =? 0x000a) ||
  (char_code =? 0x000c) ||
  (char_code =? 0x000d).

End Utf8.

(** ** Glyph extraction (main.c, lines 266-425) *)

Module Font8x8.
Import Arena Utf8.

Definition GLYPH_WIDTH : Z := 8.
Definition GLYPH_HEIGHT : Z := 8.

(** [sizeof(Glyph)] and [sizeof(u32)] on the LP64 targets that the 64-bit
    [uptr] above stands for. *)
Definition sizeof_Glyph : Z := 24.
Definition sizeof_u32 : Z := 4.

(** The anonymous [font] struct filled in by [stbi_load]. *)
Record Font : Type := mkFont
  { width : Z; height : Z; bytes_per_color : Z; pixels : list Z }.

(** [typedef struct { u32 char_code; char *char_data; u32 *bitmap; } Glyph;]
    with the two pointers replaced by what they point to: the
    null-terminated bytes and the 64 bitmap words. *)
Record Glyph : Type := mkGlyph
  { char_code : Z; char_data : list Z; bitmap : list Z }.

Inductive Failure : Type :=
| InvalidUtf8
| BadDimensions
| MoreGlyphsThanChars
| MoreCharsThanGlyphs.

(** How [main] ends: [glyphs_print] then [return 0]; [LOG_ERROR] then
    [return 1]; [abort()] inside the allocator; or undefined behaviour (a
    read outside a buffer). *)
Inductive Outcome : Type :=
| Printed (glyphs : list Glyph)
| Failed (why : Failure)
| ArenaAbort (why : AbortReason)
| Undefined.

Definition exit_code (o : Outcome) : option Z :=
  match o with
  | Printed _ => Some 0
  | Failed _ => Some 1
  | ArenaAbort _ | Undefined => None
  end.

(** The glyph dump written to standard output, if [glyphs_print] ran. *)
Definition dump (o : Outcome) : option (list Glyph) :=
  match o with
  | Printed glyphs => Some glyphs
  | _ => None
  end.

(** A loop body either goes on with a new state or leaves [main]. *)
Inductive Step (St : Type) : Type :=
| Next (s : St)
| Halt (o : Outcome).
Arguments Next {St} s.
Arguments Halt {St} o.

(** [for (isize i = start; i < limit; i += step) body], at most [fuel]
    iterations. *)
Fixpoint for_loop {St : Type} (fuel : nat) (i limit step : Z)
    (body : Z -> St -> Step St) (s : St) : Step St :=
  match fuel with
  | O => Next s
  | S fuel' =>
      if i <? limit then
        match body i s with
        | Halt o => Halt o
        | Next s' => for_loop fuel' (i + step) limit step body s'
        end
      else Next s
  end.

(** The pre-scan of lines 314-324: counts the code points that are not
    whitespace. *)
Fixpoint count_chars (fuel : nat) (font_char_iter : StringView)
    (font_char_count : Z) : option Z :=
  if size font_char_iter >? 0 then
    match fuel with
    | O => None
    | S fuel' =>
        match utf8_chop_char font_char_iter with
        | None => None
        | Some c =>
            count_chars fuel' (rest c)
              (if negb (char_is_space (code c)) then font_char_count + 1
               else font_char_count)
        end
    end
  else Some font_char_count.

(** [glyph_line_start[glyph_x * font.bytes_per_color]], where
    [glyph_line_start] is [&font.data[line_start]]. *)
Definition read_color (font : Font) (line_start glyph_x : Z) : option Z :=
  let i := line_start + glyph_x * bytes_per_color font in
  if i <? 0 then None else nth_error (pixels font) (Z.to_nat i).

(** Inner loop of the emptiness test (line 364). *)
Fixpoint empty_row (font : Font) (line_start : Z) (fuel : nat) (glyph_x : Z)
    (glyph_is_empty : bool) : option bool :=
  match fuel with
  | O => Some glyph_is_empty
  | S fuel' =>
      if glyph_is_empty && (glyph_x <? GLYPH_WIDTH) then
        match read_color font line_start glyph_x with
        | None => None
        | Some color =>
            empty_row font line_start fuel' (glyph_x + 1)
              (if color =? 0x00 then false else glyph_is_empty)
        end
      else Some glyph_is_empty
  end.

(** Outer loop of the emptiness test (line 363). *)
Fixpoint empty_rows (font : Font) (fuel : nat) (line_start glyph_y : Z)
    (glyph_is_empty : bool) : option bool :=
  match fuel with
  | O => Some glyph_is_empty
  | S fuel' =>
      if glyph_is_empty && (glyph_y <? GLYPH_HEIGHT) then
        match empty_row font line_start (Z.to_nat GLYPH_WIDTH) 0 glyph_is_empty with
        | None => None
        | Some e =>
            empty_rows font fuel'
              (line_start + width font * bytes_per_color font) (glyph_y + 1) e
        end
      else Some glyph_is_empty
  end.

(** Lines 359-373. *)
Definition glyph_is_empty (font : Font) (font_data_index : Z) : option bool :=
  empty_rows font (Z.to_nat GLYPH_HEIGHT)
    (font_data_index * bytes_per_color font) 0 true.

(** Inner loop of the expansion (line 399): the words written to
    [bitmap[glyph_y * GLYPH_WIDTH + glyph_x]] for one row, in order. *)
Fixpoint bitmap_row (font : Font) (line_start : Z) (fuel : nat) (glyph_x : Z)
    : option (list Z) :=
  match fuel with
  | O => Some []
  | S fuel' =>
      if glyph_x <? GLYPH_WIDTH then
        match read_color font line_start glyph_x with
        | None => None
        | Some color =>
            match bitmap_row font line_start fuel' (glyph_x + 1) with
            | None => None
            | Some row =>
                Some ((if color =? 0x00 then 0xff000000 else 0x00000000) :: row)
            end
        end
      else Some []
  end.

(** Outer loop of the expansion (line 398). *)
Fixpoint bitmap_rows (font : Font) (fuel : nat) (line_start glyph_y : Z)
    : option (list Z) :=
  match fuel with
  | O => Some []
  | S fuel' =>
      if glyph_y <? GLYPH_HEIGHT then
        match bitmap_row font line_start (Z.to_nat GLYPH_WIDTH) 0 with
        | None => None
        | Some row =>
            match bitmap_rows font fuel'
                    (line_start + width font * bytes_per_color font)
                    (glyph_y + 1) with
            | None => None
            | Some rows => Some (row ++ rows)
            end
        end
      else Some []
  end.

(** Lines 396-410. *)
Definition glyph_bitmap (font : Font) (font_data_index : Z) : option (list Z) :=
  bitmap_rows font (Z.to_nat GLYPH_HEIGHT)
    (font_data_index * bytes_per_color font) 0.

(** The [do ... while (char_is_space(char_code))] of lines 383-385.  Each
    round consumes at least one byte, so [fuel] runs out only where the C
    loop reads past the buffer. *)
Fixpoint next_char (fuel : nat) (font_char_iter : StringView) : option Chopped :=
  match fuel with
  | O => None
  | S fuel' =>
      match utf8_chop_char font_char_iter with
      | None => None
      | Some c =>
          if char_is_space (code c) then next_char fuel' (rest c) else Some c
      end
  end.

(** The variables the grid loops update: the arena, the legend cursor and
    the glyph records written so far ([glyph_iter] is [glyphs] plus their
    number). *)
Record Scan : Type := mkScan
  { arena : Arena; font_char_iter : StringView; glyphs : list Glyph }.

(** Body of the inner grid loop (lines 357-413). *)
Definition scan_cell (font : Font) (font_char_count : Z)
    (font_grid_y font_grid_x : Z) (st : Scan) : Step Scan :=
  let font_data_index := font_grid_y * width font + font_grid_x in
  match glyph_is_empty font font_data_index with
  | None => Halt Undefined
  | Some true => Next st
  | Some false =>
      if Z.of_nat (length (glyphs st)) =? font_char_count
      then Halt (Failed MoreGlyphsThanChars)
      else
        match next_char (length (data (font_char_iter st))) (font_char_iter st) with
        | None => Halt Undefined
        | Some c =>
            match arena_alloc_aligned (arena st) (size (slice c) + 1) 1 with
            | Abort why => Halt (ArenaAbort why)
            | Ret _ arena1 =>
                match arena_alloc_aligned arena1
                        (GLYPH_WIDTH * GLYPH_HEIGHT * sizeof_u32) 4 with
                | Abort why => Halt (ArenaAbort why)
                | Ret _ arena2 =>
                    match glyph_bitmap font font_data_index with
                    | None => Halt Undefined
                    | Some bm =>
                        Next {| arena := arena2;
                                font_char_iter := rest c;
                                glyphs := glyphs st ++
                                  [ {| char_code := code c;
                                       char_data := view_bytes (slice c) ++ [0];
                                       bitmap := bm |} ] |}
                    end
                end
            end
        end
  end.

(** The two grid loops (lines 355-415). *)
Definition scan_grid (font : Font) (font_char_count : Z) (st : Scan) : Step Scan :=
  for_loop (Z.to_nat (height font)) 0 (height font) GLYPH_HEIGHT
    (fun font_grid_y =>
       for_loop (Z.to_nat (width font)) 0 (width font) GLYPH_WIDTH
         (scan_cell font font_char_count font_grid_y))
    st.

(** [main] from line 309 on.  [arena] is the arena after the legend file was
    read into it, [font_chars] the bytes of that file and [font] what
    [stbi_load] returned; the file and image loading before that is I/O. *)
Definition main (arena : Arena) (font_chars : list Z) (font : Font) : Outcome :=
  let view := {| data := font_chars; size := Z.of_nat (length font_chars) |} in
  match utf8_validate view with
  | None => Undefined
  | Some false => Failed InvalidUtf8
  | Some true =>
      match count_chars (Z.to_nat (size view)) view 0 with
      | None => Undefined
      | Some font_char_count =>
          if negb (Z.rem (width font) GLYPH_WIDTH =? 0)
             || negb (Z.rem (height font) GLYPH_HEIGHT =? 0)
          then Failed BadDimensions
          else
            match arena_alloc arena (font_char_count * sizeof_Glyph) with
            | Abort why => ArenaAbort why
            | Ret _ arena1 =>
                match scan_grid font font_char_count
                        {| arena := arena1; font_char_iter := view; glyphs := [] |} with
                | Halt o => o
                | Next st =>
                    if negb (Z.of_nat (length (glyphs st)) =? font_char_count)
                    then Failed MoreCharsThanGlyphs
                    else Printed (glyphs st)
                end
            end
      end
  end.

End Font8x8.

(** ** The glyph dump (main.c, lines 275-292) *)

Module Print.
Import Font8x8.

(** What [glyphs_print] hands to [printf]: the two arguments of
    ["'%s' (U+%x)\n"], the character of a ["%c "], or a lone ["\n"]. *)
Inductive Token : Type :=
| Header (text : list Z) (char_code : Z)
| Cell (c : Z)
| Newline.

(** The bytes [%s] prints from a [char *]: those before the first 0.
    [None] when the array holds no 0 and [printf] runs past it. *)
Fixpoint c_string (bytes : list Z) : option (list Z) :=
  match bytes with
  | [] => None
  | b :: bytes' =>
      if b =? 0 then Some []
      else
        match c_string bytes' with
        | None => None
        | Some text => Some (b :: text)
        end
  end.

(** [glyph_iter->bitmap[i]]. *)
Definition bitmap_at (bitmap : list Z) (i : Z) : option Z :=
  if i <? 0 then None else nth_error bitmap (Z.to_nat i).

(** [(word >> 24) & 0xff], then [alpha == 0x00 ? ' ' : '@']. *)
Definition cell_char (word : Z) : Z :=
  let alpha := Z.land (Z.shiftr word 24) 0xff in
  if alpha =? 0x00 then 32 else 64.

(** Inner loop (line 282). *)
Fixpoint print_row (bitmap : list Z) (y : Z) (fuel : nat) (x : Z)
    : option (list Token) :=
  match fuel with
  | O => Some []
  | S fuel' =>
      if x <? GLYPH_WIDTH then
        match bitmap_at bitmap (y * GLYPH_WIDTH + x) with
        | None => None
        | Some word =>
            match print_row bitmap y fuel' (x + 1) with
            | None => None
            | Some out => Some (Cell (cell_char word) :: out)
            end
        end
      else Some []
  end.

(** Outer loop (line 281). *)
Fixpoint print_rows (bitmap : list Z) (fuel : nat) (y : Z)
    : option (list Token) :=
  match fuel with
  | O => Some []
  | S fuel' =>
      if y <? GLYPH_HEIGHT then
        match print_row bitmap y (Z.to_nat GLYPH_WIDTH) 0 with
        | None => None
        | Some row =>
            match print_rows bitmap fuel' (y + 1) with
            | None => None
            | Some out => Some (row ++ Newline :: out)
            end
        end
      else Some []
  end.

(** One round of the [while] loop (lines 280-290). *)
Definition print_glyph (g : Glyph) : option (list Token) :=
  match c_string (char_data g) with
  | None => None
  | Some text =>
      match print_rows (bitmap g) (Z.to_nat GLYPH_HEIGHT) 0 with
      | None => None
      | Some art => Some (Header text (char_code g) :: art ++ [Newline])
      end
  end.

(** [while (glyph_iter < glyphs_end)], with [glyph_iter = glyphs + i]. *)
Fixpoint print_from (glyphs : list Glyph) (fuel : nat) (i glyph_count : Z)
    : option (list Token) :=
  match fuel with
  | O => Some []
  | S fuel' =>
      if i <? glyph_count then
        match (if i <? 0 then None else nth_error glyphs (Z.to_nat i)) with
        | None => None
        | Some g =>
            match print_glyph g with
            | None => None
            | Some out =>
                match print_from glyphs fuel' (i + 1) glyph_count with
                | None => None
                | Some outs => Some (out ++ outs)
                end
            end
        end
      else Some []
  end.

Definition glyphs_print (glyphs : list Glyph) (glyph_count : Z)
    : option (list Token) :=
  print_from glyphs (Z.to_nat glyph_count) 0 glyph_count.

End Print.

(** ** Reading the legend file (main.c, lines 217-264) *)

Module FileIO.
Import Arena.

(** [typedef struct { u8 *data; isize size; isize capacity; } String;] *)
Record String : Type := mkString { data : Z; size : Z; capacity : Z }.

(** [as_string_view]: the bytes the view can read are those of the string
    in memory. *)
Definition as_string_view (string : String) (m : Mem) : Utf8.StringView :=
  {| Utf8.data := load_bytes m (data string) (Z.to_nat (size string));
     Utf8.size := size string |}.

(** What the C library answers for one opened file: the results of
    [fseek(SEEK_END)], [ftell], [fseek(SEEK_SET)], the bytes [fread]
    delivers and the result of [ferror]. *)
Record File : Type := mkFile
  { fseek_end : Z; ftell_result : Z; fseek_set : Z;
    fread_bytes : list Z; ferror_result : Z }.

(** Memory after [bytes] were written from [ptr] on. *)
Definition store_bytes (m : Mem) (ptr : Z) (bytes : list Z) : Mem :=
  fun a =>
    if (ptr <=? a) && (a <? ptr + Z.of_nat (length bytes))
    then nth (Z.to_nat (a - ptr)) bytes 0
    else m a.

(** How [file_read_to_string] ends: inside [abort()], or with its [bool]
    and the string, arena and memory it leaves. *)
Inductive Read : Type :=
| ReadAbort (why : AbortReason)
| ReadRet (ok : bool) (string : String) (arena : Arena) (m : Mem).

(** Lines 255-263: [fread] into the string, then the [ferror] check. *)
Definition read_into (f : File) (file_size : Z) (string : String)
    (arena : Arena) (m : Mem) : Read :=
  let m' :=
    store_bytes m (data string + size string)
      (firstn (Z.to_nat file_size) (fread_bytes f)) in
  if negb (ferror_result f =? 0) then ReadRet false string arena m'
  else
    ReadRet true
      {| data := data string; size := size string + file_size;
         capacity := capacity string |}
      arena m'.

(** [file] is [None] when [fopen] returned [NULL]. *)
Definition file_read_to_string (file : option File) (string : String)
    (arena : Arena) (m : Mem) : Read :=
  match file with
  | None => ReadRet false string arena m
  | Some f =>
      if fseek_end f <? 0 then ReadRet false string arena m
      else
        let file_size := ftell_result f in
        if file_size <? 0 then ReadRet false string arena m
        else if fseek_set f <? 0 then ReadRet false string arena m
        else if size string + file_size >? capacity string then
          let new_capacity := size string + file_size in
          match arena_realloc arena m (data string) (capacity string)
                  new_capacity with
          | (Abort why, _) => ReadAbort why
          | (Ret ptr arena', m') =>
              read_into f file_size
                {| data := ptr; size := size string; capacity := new_capacity |}
                arena' m'
          end
        else read_into f file_size string arena m
  end.

End FileIO.

(** ** The whole program (main.c, lines 294-425) *)

Module Program.
Import Arena Font8x8.

Definition ARENA_CAPACITY : Z := 64 * 1024 * 1024.

(** The three [return 1] of [main] that come before the extraction proper:
    [malloc] failed, the legend file could not be read, [stbi_load]
    returned [NULL]. *)
Inductive Startup : Type := NoArena | NoFontChars | NoFontGlyphs.

Inductive Exit : Type :=
| StartupFailed (why : Startup)
| Ran (o : Outcome).

Definition exit_status (e : Exit) : option Z :=
  match e with
  | StartupFailed _ => Some 1
  | Ran o => exit_code o
  end.

(** [main] from its first line.  [arena_memory] is what [malloc] returned,
    [m] the memory, [chars_file] the legend file as the C library presents
    it and [font] the result of [stbi_load] ([None] for [NULL]).  The
    legend is validated and counted before the image is looked at. *)
Definition program (arena_memory : Z) (m : Mem)
    (chars_file : option FileIO.File) (font : option Font) : Exit :=
  if arena_memory =? NULL then StartupFailed NoArena
  else
    let arena := {| begin := arena_memory;
                    end_ := arena_memory + ARENA_CAPACITY |} in
    match FileIO.file_read_to_string chars_file (FileIO.mkString 0 0 0) arena m with
    | FileIO.ReadAbort why => Ran (ArenaAbort why)
    | FileIO.ReadRet false _ _ _ => StartupFailed NoFontChars
    | FileIO.ReadRet true font_chars arena' m' =>
        let view := FileIO.as_string_view font_chars m' in
        match font with
        | Some font => Ran (main arena' (Utf8.data view) font)
        | None =>
            match Utf8.utf8_validate view with
            | None => Ran Undefined
            | Some false => Ran (Failed InvalidUtf8)
            | Some true =>
                match count_chars (Z.to_nat (Utf8.size view)) view 0 with
                | None => Ran Undefined
                | Some _ => StartupFailed NoFontGlyphs
                end
            end
        end
    end.

(** Standard output of a run: the dump of the table, when there is one. *)
Definition stdout (e : Exit) : option (list Print.Token) :=
  match e with
  | Ran (Printed glyphs) =>
      Print.glyphs_print glyphs (Z.of_nat (length glyphs))
  | _ => Some []
  end.

End Program.

(** ** Reference notions the statements are phrased with

    These are not taken from [main.c]: they say what "canonical UTF-8
    encoding", "well-formed UTF-8", "cell", "row-major scan order" and
    "non-empty cell" mean, so that the code can be compared with them. *)

Module Spec.
Import Arena Utf8 Font8x8.

(** Unicode scalar values: [0, 0xD7FF] and [0xE000, 0x10FFFF]. *)
Definition scalar_value (c : Z) : Prop :=
  0 <= c <= 0xD7FF \/ 0xE000 <= c <= 0x10FFFF.

(** The canonical (shortest) UTF-8 encoding of a code point. *)
Definition utf8_encode (c : Z) : list Z :=
  if c <? 0x80 then [c]
  else if c <? 0x800 then [0xC0 + c / 64; 0x80 + c mod 64]
  else if c <? 0x10000 then
    [0xE0 + c / 4096; 0x80 + (c / 64) mod 64; 0x80 + c mod 64]
  else
    [0xF0 + c / 262144; 0x80 + (c / 4096) mod 64;
     0x80 + (c / 64) mod 64; 0x80 + c mod 64].

Definition utf8_encode_all (cs : list Z) : list Z := flat_map utf8_encode cs.

(** Well-formed UTF-8: a concatenation of canonical encodings of scalar
    values. *)
Definition well_formed_utf8 (bytes : list Z) : Prop :=
  exists cs, Forall scalar_value cs /\ bytes = utf8_encode_all cs.

Definition encoded_size (c : Z) : Z := Z.of_nat (length (utf8_encode c)).

(** The lookup table, read as the ranges of the comment above it. *)
Definition table_as_ranges (b : Z) : bool :=
  char_size_of b =?
    (if b <? 0x80 then 1
     else if b <? 0xc2 then 0
     else if b <? 0xe0 then 2
     else if b <? 0xf0 then 3
     else if b <? 0xf5 then 4
     else 0).

(** The three range checks of [utf8_validate], passed. *)
Definition range_ok (char_size char_code : Z) : bool :=
  negb ((char_size =? 3) && ((char_code <? 0x0800) || (char_code >? 0xffff)))
  && negb ((char_size =? 3) && ((char_code >=? 0xd800) && (char_code <=? 0xdfff)))
  && negb ((char_size =? 4) && ((char_code <? 0x10000) || (char_code >? 0x10ffff))).

(** A span whose size is the number of bytes left in its buffer. *)
Definition tight (s : StringView) : Prop := size s = Z.of_nat (length (data s)).

(** Bytes that start with one of the defects [utf8_validate] looks for: a
    byte that is no leading byte (a continuation byte, [c0], [c1] or
    [f5]..[ff]), a leading byte with too few bytes after it, a 3-byte form
    below U+0800 or in the surrogate range, a 4-byte form below U+10000 or
    above U+10FFFF. *)
Inductive ill_formed_start : list Z -> Prop :=
| Bad_leader : forall b0 tl,
    char_size_of b0 = 0 -> ill_formed_start (b0 :: tl)
| Truncated : forall b0 tl,
    Z.of_nat (length (b0 :: tl)) < char_size_of b0 ->
    ill_formed_start (b0 :: tl)
| Bad_three : forall b0 b1 b2 tl,
    0xe0 <= b0 < 0xf0 -> 0 <= b1 -> 0 <= b2 ->
    (b0 mod 16) * 4096 + (b1 mod 64) * 64 + b2 mod 64 < 0x0800 \/
    0xd800 <= (b0 mod 16) * 4096 + (b1 mod 64) * 64 + b2 mod 64 <= 0xdfff ->
    ill_formed_start (b0 :: b1 :: b2 :: tl)
| Bad_four : forall b0 b1 b2 b3 tl,
    0xf0 <= b0 < 0xf5 -> 0 <= b1 -> 0 <= b2 -> 0 <= b3 ->
    (b0 mod 8) * 262144 + (b1 mod 64) * 4096 + (b2 mod 64) * 64 + b3 mod 64
      < 0x10000 \/
    0x10ffff
      < (b0 mod 8) * 262144 + (b1 mod 64) * 4096 + (b2 mod 64) * 64 + b3 mod 64 ->
    ill_formed_start (b0 :: b1 :: b2 :: b3 :: tl).

(** The view [as_string_view] makes of a whole buffer. *)
Definition view_of (bytes : list Z) : StringView :=
  {| data := bytes; size := Z.of_nat (length bytes) |}.

(** [Decodes s chars]: reading [s] with [utf8_chop_char] until
    [size <= 0], as the pre-scan of [main] does, never leaves the buffer
    and yields the code points [chars], each with its bytes. *)
Inductive Decodes : StringView -> list (Z * list Z) -> Prop :=
| Decodes_done : forall s, size s <= 0 -> Decodes s []
| Decodes_char : forall s c chars,
    0 < size s ->
    utf8_chop_char s = Some c ->
    Decodes (rest c) chars ->
    Decodes s ((code c, view_bytes (slice c)) :: chars).

Definition nonspace (ch : Z * list Z) : bool := negb (char_is_space (fst ch)).

(** A pixel buffer as [stbi_load] delivers it: [width * height] pixels of
    [bytes_per_color] bytes each, with both dimensions multiples of 8. *)
Definition font_wf (font : Font) : Prop :=
  0 <= width font /\ 0 <= height font /\
  width font mod GLYPH_WIDTH = 0 /\ height font mod GLYPH_HEIGHT = 0 /\
  1 <= bytes_per_color font /\
  Z.of_nat (length (pixels font)) = width font * height font * bytes_per_color font.

(** First channel byte of the pixel in column [px] of row [py]. *)
Definition pixel (font : Font) (py px : Z) : option Z :=
  let i := (py * width font + px) * bytes_per_color font in
  if i <? 0 then None else nth_error (pixels font) (Z.to_nat i).

(** A cell is named by the coordinates [(y, x)] of its top-left pixel. *)
Definition cell_pixel (font : Font) (cell : Z * Z) (y x : Z) : option Z :=
  pixel font (fst cell + y) (snd cell + x).

Definition offsets : list Z := [0; 1; 2; 3; 4; 5; 6; 7].

(** The 64 pixels of a cell, row by row. *)
Definition cell_pixels (font : Font) (cell : Z * Z) : list (option Z) :=
  flat_map (fun y => map (cell_pixel font cell y) offsets) offsets.

Definition is_ink (color : option Z) : bool :=
  match color with
  | Some c => c =? 0x00
  | None => false
  end.

Definition cell_nonempty (font : Font) (cell : Z * Z) : bool :=
  existsb is_ink (cell_pixels font cell).

(** Cells in row-major order: rows top to bottom, columns left to right. *)
Definition grid_cells (font : Font) : list (Z * Z) :=
  flat_map
    (fun r => map (fun c => (GLYPH_HEIGHT * Z.of_nat r, GLYPH_WIDTH * Z.of_nat c))
                  (seq 0 (Z.to_nat (width font / GLYPH_WIDTH))))
    (seq 0 (Z.to_nat (height font / GLYPH_HEIGHT))).

Definition nonempty_cells (font : Font) : list (Z * Z) :=
  filter (cell_nonempty font) (grid_cells font).

Definition expand (color : option Z) : Z :=
  if is_ink color then 0xff000000 else 0x00000000.

(** The bitmap a cell should expand to; entry [y * 8 + x] is pixel [(y, x)]. *)
Definition cell_bitmap (font : Font) (cell : Z * Z) : list Z :=
  map expand (cell_pixels font cell).

(** The glyph record for a legend character and a cell. *)
Definition glyph_of (font : Font) (ch : Z * list Z) (cell : Z * Z) : Glyph :=
  {| char_code := fst ch; char_data := snd ch ++ [0];
     bitmap := cell_bitmap font cell |}.

(** [x], [x + 1], ..., [n] numbers in all. *)
Fixpoint zrange (x : Z) (n : nat) : list Z :=
  match n with
  | O => []
  | S n' => x :: zrange (x + 1) n'
  end.

(** The colours the two pixel loops read, row after row, when the first row
    starts at [line_start]. *)
Fixpoint rows_colors (font : Font) (line_start : Z) (n : nat)
    : list (option Z) :=
  match n with
  | O => []
  | S n' =>
      map (read_color font line_start) offsets
      ++ rows_colors font (line_start + width font * bytes_per_color font) n'
  end.

(** Every pixel of the cell lies inside the pixel buffer. *)
Definition cell_readable (font : Font) (cell : Z * Z) : Prop :=
  Forall (fun color => color <> None) (cell_pixels font cell).

(** What the grid loops keep true of the legend cursor: it stays inside the
    legend buffer [font_chars], and the glyphs written so far plus the
    code points still to come that are not whitespace number
    [font_char_count]. *)
Definition legend_inv (font_chars : list Z) (font_char_count : Z) (st : Scan)
    : Prop :=
  tight (font_char_iter st) /\
  (exists consumed, font_chars = consumed ++ data (font_char_iter st)) /\
  exists chars,
    Decodes (font_char_iter st) chars /\
    Z.of_nat (length (glyphs st))
    + Z.of_nat (length (filter nonspace chars)) = font_char_count.

(** Legend characters and cells paired position by position. *)
Definition paired_glyphs (font : Font) (chars : list (Z * list Z))
    (cells : list (Z * Z)) : list Glyph :=
  map (fun p => glyph_of font (fst p) (snd p)) (combine chars cells).

(** A glyph record whose bitmap is the colour-keyed image of a cell: entry
    [y * 8 + x] is [0xff000000] when the first channel byte of pixel
    [(y, x)] is 0 and [0x00000000] otherwise, and some entry is
    [0xff000000]. *)
Definition bitmap_of_cell (font : Font) (g : Glyph) (cell : Z * Z) : Prop :=
  (forall y x,
      0 <= y < GLYPH_HEIGHT -> 0 <= x < GLYPH_WIDTH ->
      exists color,
        cell_pixel font cell y x = Some color /\
        nth (Z.to_nat (y * GLYPH_WIDTH + x)) (bitmap g) 0
        = if color =? 0x00 then 0xff000000 else 0x00000000) /\
  length (bitmap g) = 64%nat /\
  In 0xff000000 (bitmap g).

(** Room for the glyph array and [n] glyph records, with the worst padding:
    15 + 24 n for the array, and 5 + 3 + 256 for each record. *)
Definition arena_fits (arena : Arena) (n : Z) : Prop :=
  15 + 288 * n <= remaining arena.

(** The grid loops seen as one pass over a list of cells. *)
Fixpoint scan_list {St A : Type} (body : A -> St -> Step St) (l : list A)
    (s : St) : Step St :=
  match l with
  | [] => Next s
  | a :: l' =>
      match body a s with
      | Halt o => Halt o
      | Next s' => scan_list body l' s'
      end
  end.

Definition scan_cells (font : Font) (font_char_count : Z)
    (cells : list (Z * Z)) (st : Scan) : Step Scan :=
  scan_list (fun cell => scan_cell font font_char_count (fst cell) (snd cell))
    cells st.

(** The bitmap of the pairing test: 16 x 8 pixels of one byte, the left
    cell without ink, the right cell with six ink pixels in every row. *)
Definition sample_font : Font :=
  {| width := 16; height := 8; bytes_per_color := 1;
     pixels := concat (repeat [255; 255; 255; 255; 255; 255; 255; 255;
                               255; 0; 0; 0; 0; 0; 0; 255] 8) |}.

(** An arena of [ARENA_CAPACITY] bytes. *)
Definition sample_arena : Arena :=
  {| begin := 65536; end_ := 65536 + 64 * 1024 * 1024 |}.

(** Two bytes of a pixel: only the first one is the colour key. *)
Definition sample_pixel (ink : bool) : list Z :=
  if ink then [0; 255] else [255; 0].

(** A 16 x 16 bitmap of two bytes per pixel, four cells: ink in the cells at
    [(0, 0)], [(8, 0)] and [(8, 8)], none in the cell at [(0, 8)]. *)
Definition sample_grid : Font :=
  let row (l : list bool) := flat_map sample_pixel l in
  let blank := repeat false 8 in
  let top := row ([false; true; true; false; false; false; false; false] ++ blank) in
  let bottom := row ([true; false; false; false; false; false; false; false]
                     ++ [false; false; false; true; true; false; false; true]) in
  {| width := 16; height := 16; bytes_per_color := 2;
     pixels := concat (repeat top 8) ++ concat (repeat bottom 8) |}.

(** A legend for it: [A], a space, [U+00E9], a line feed, [U+20AC]. *)
Definition sample_legend : list Z := [0x41; 0x20; 0xe9; 0x0a; 0x20ac].

(** An arena with 16 bytes left. *)
Definition full_arena : Arena := {| begin := 65536; end_ := 65536 + 16 |}.

(** The blocks a run of requests hands out, as (pointer, size) pairs. *)
Fixpoint alloc_blocks (arena : Arena) (reqs : list (Z * Z))
    : option (list (Z * Z)) :=
  match reqs with
  | [] => Some []
  | (size, alignment) :: reqs' =>
      match arena_alloc_aligned arena size alignment with
      | Abort _ => None
      | Ret ptr arena' =>
          match alloc_blocks arena' reqs' with
          | None => None
          | Some blocks => Some ((ptr, size) :: blocks)
          end
      end
  end.

(** Blocks laid out one after the other between [lo] and [hi]. *)
Fixpoint blocks_between (lo hi : Z) (blocks : list (Z * Z)) : Prop :=
  match blocks with
  | [] => lo <= hi
  | (ptr, size) :: blocks' =>
      lo <= ptr /\ 0 < size /\ blocks_between (ptr + size) hi blocks'
  end.

(** The bytes of a buffer before its first 0. *)
Fixpoint before_nul (bytes : list Z) : list Z :=
  match bytes with
  | [] => []
  | b :: bytes' => if b =? 0 then [] else b :: before_nul bytes'
  end.

(** The picture of a cell: eight rows of eight characters, ['@'] (64) for
    ink and [' '] (32) otherwise, each row closed by a newline. *)
Definition art_of_cell (font : Font) (cell : Z * Z) : list Print.Token :=
  flat_map
    (fun y =>
       map (fun x => Print.Cell (if is_ink (cell_pixel font cell y x)
                                 then 64 else 32)) offsets
       ++ [Print.Newline])
    offsets.

(** What the dump should show for a legend character and its cell. *)
Definition glyph_dump (font : Font) (ch : Z * list Z) (cell : Z * Z)
    : list Print.Token :=
  Print.Header (before_nul (snd ch)) (fst ch)
  :: art_of_cell font cell ++ [Print.Newline].

End Spec.

(** * Properties of the arena allocator *)

Section ArenaFacts.
Import Arena.

Lemma to_isize_small (z : Z) : 0 <= z < 2 ^ 63 -> to_isize z = z.
Proof.
  intros Hz. unfold to_isize.
  rewrite Z.mod_small; lia.
Qed.

(** The assertion of [arena_alloc_aligned] accepts exactly the powers of
    two. *)
Lemma valid_alignment_pow2 (alignment : Z) :
  valid_alignment alignment = true -> alignment = 2 ^ Z.log2 alignment.
Proof.
  unfold valid_alignment. intros H.
  apply andb_true_iff in H as [Hpos Hland].
  apply Z.ltb_lt in Hpos. apply Z.eqb_eq in Hland.
  destruct (Z.log2_spec alignment Hpos) as [Hlo Hhi].
  destruct (Z.eq_dec alignment (2 ^ Z.log2 alignment)) as [|Hne]; [assumption|].
  exfalso.
  assert (Hk : 0 <= Z.log2 alignment) by apply Z.log2_nonneg.
  assert (Hlog : Z.log2 (alignment - 1) = Z.log2 alignment).
  { apply Z.log2_unique; [assumption | lia]. }
  assert (Hbit1 : Z.testbit alignment (Z.log2 alignment) = true)
    by (apply Z.bit_log2; assumption).
  assert (Hbit2 : Z.testbit (alignment - 1) (Z.log2 alignment) = true).
  { rewrite <- Hlog. apply Z.bit_log2. lia. }
  assert (Hbit : Z.testbit (Z.land alignment (alignment - 1)) (Z.log2 alignment) = true).
  { rewrite Z.land_spec, Hbit1, Hbit2. reflexivity. }
  rewrite Hland, Z.bits_0 in Hbit. discriminate.
Qed.

Lemma pow2_valid_alignment (k : Z) : 0 <= k -> valid_alignment (2 ^ k) = true.
Proof.
  intros Hk. unfold valid_alignment.
  apply andb_true_iff. split.
  - apply Z.ltb_lt. apply Z.pow_pos_nonneg; lia.
  - apply Z.eqb_eq.
    replace (2 ^ k - 1) with (Z.ones k) by (rewrite Z.ones_equiv; lia).
    rewrite Z.land_ones by assumption.
    apply Z.mod_same. apply Z.pow_nonzero; lia.
Qed.

(** The padding is the distance from [begin] to the next multiple of the
    alignment. *)
Lemma arena_padding_mod (arena : Arena) (alignment : Z) :
  valid_alignment alignment = true -> alignment < 2 ^ 63 ->
  arena_padding arena alignment = (- begin arena) mod alignment.
Proof.
  intros Hv Hlt.
  pose proof (valid_alignment_pow2 _ Hv) as Hpow.
  set (k := Z.log2 alignment) in *.
  assert (Hk : 0 <= k) by apply Z.log2_nonneg.
  assert (Hk63 : k < 63).
  { apply (Z.pow_lt_mono_r_iff 2); lia. }
  assert (Hpos : 0 < alignment) by (rewrite Hpow; apply Z.pow_pos_nonneg; lia).
  assert (H64 : 2 ^ 64 = alignment * 2 ^ (64 - k)).
  { rewrite Hpow, <- Z.pow_add_r by lia. f_equal. lia. }
  unfold arena_padding.
  assert (Hal : to_uptr (to_uptr alignment - 1) = Z.ones k).
  { unfold to_uptr. rewrite Z.ones_equiv, <- Hpow.
    rewrite (Z.mod_small alignment) by lia.
    rewrite Z.mod_small by lia. lia. }
  rewrite Hal, Z.land_ones by assumption.
  rewrite <- Hpow.
  assert (Hcong : to_uptr (to_uptr (Z.lnot (to_uptr (begin arena))) + 1) mod alignment
                  = (- begin arena) mod alignment).
  { assert (Hup : forall z, to_uptr z = z - 2 ^ 64 * (z / 2 ^ 64)).
    { intros z. unfold to_uptr. apply Z.mod_eq. lia. }
    rewrite !Hup, Z.lnot_eq_pred_opp.
    set (q1 := begin arena / 2 ^ 64).
    set (u := - (begin arena - 2 ^ 64 * q1) - 1).
    set (q2 := u / 2 ^ 64).
    set (q3 := (u - 2 ^ 64 * q2 + 1) / 2 ^ 64).
    replace (u - 2 ^ 64 * q2 + 1 - 2 ^ 64 * q3)
      with (- begin arena + (2 ^ (64 - k) * (q1 - q2 - q3)) * alignment)
      by (unfold u; rewrite H64; ring).
    apply Z_mod_plus_full. }
  rewrite Hcong.
  apply to_isize_small.
  pose proof (Z.mod_pos_bound (- begin arena) alignment Hpos). lia.
Qed.

Lemma arena_padding_bounds (arena : Arena) (alignment : Z) :
  valid_alignment alignment = true -> alignment < 2 ^ 63 ->
  0 <= arena_padding arena alignment < alignment /\
  (begin arena + arena_padding arena alignment) mod alignment = 0.
Proof.
  intros Hv Hlt.
  rewrite (arena_padding_mod _ _ Hv Hlt).
  assert (Hpos : 0 < alignment).
  { unfold valid_alignment in Hv. apply andb_true_iff in Hv as [Hv _].
    apply Z.ltb_lt in Hv. assumption. }
  split; [apply Z.mod_pos_bound; assumption|].
  rewrite Z.add_mod_idemp_r by lia.
  replace (begin arena + - begin arena) with 0 by ring.
  apply Z.mod_0_l. lia.
Qed.

(** What a call that returns has done. *)
Lemma arena_alloc_aligned_ret (a : Arena) (size alignment ptr : Z) (a' : Arena) :
  arena_alloc_aligned a size alignment = Ret ptr a' ->
  valid_alignment alignment = true /\
  ((size = 0 /\ ptr = NULL /\ a' = a) \/
   (size <> 0 /\
    ptr = begin a + arena_padding a alignment /\
    begin a' = begin a + arena_padding a alignment + size /\
    end_ a' = end_ a /\
    0 <= end_ a - begin a - arena_padding a alignment /\
    size <= end_ a - begin a - arena_padding a alignment)).
Proof.
  unfold arena_alloc_aligned.
  destruct (valid_alignment alignment); simpl; [|discriminate].
  destruct (Z.eqb_spec size 0) as [Hz|Hnz].
  - intros Heq. injection Heq as <- <-. split; [reflexivity|]. left. auto.
  - destruct (Z.ltb_spec (end_ a - begin a - arena_padding a alignment) 0);
      simpl; [discriminate|].
    destruct (Z.ltb_spec (end_ a - begin a - arena_padding a alignment) size);
      [discriminate|].
    intros Heq. injection Heq as <- <-. split; [reflexivity|]. right. simpl.
    repeat split; auto.
Qed.

(** A request that fits is served. *)
Lemma arena_alloc_aligned_fits (a : Arena) (size alignment : Z) :
  valid_alignment alignment = true -> size <> 0 ->
  0 <= end_ a - begin a - arena_padding a alignment ->
  size <= end_ a - begin a - arena_padding a alignment ->
  arena_alloc_aligned a size alignment =
    Ret (begin a + arena_padding a alignment)
        {| begin := begin a + arena_padding a alignment + size; end_ := end_ a |}.
Proof.
  intros Hv Hnz H0 Hs. unfold arena_alloc_aligned. rewrite Hv. simpl.
  destruct (Z.eqb_spec size 0); [contradiction|].
  destruct (Z.ltb_spec (end_ a - begin a - arena_padding a alignment) 0); [lia|].
  destruct (Z.ltb_spec (end_ a - begin a - arena_padding a alignment) size); [lia|].
  reflexivity.
Qed.

Lemma arena_alloc_aligned_overflow (a : Arena) (size alignment : Z) :
  alignment < 2 ^ 63 -> size <> 0 ->
  remaining a < size -> 0 <= remaining a ->
  is_abort (arena_alloc_aligned a size alignment) = true.
Proof.
  intros Hal Hnz Hrem Hinv. unfold arena_alloc_aligned.
  destruct (valid_alignment alignment) eqn:Hv; simpl; [|reflexivity].
  destruct (Z.eqb_spec size 0); [contradiction|].
  pose proof (arena_padding_bounds a alignment Hv Hal) as [Hp _].
  unfold remaining in *.
  destruct (Z.ltb_spec (end_ a - begin a - arena_padding a alignment) 0);
    simpl; [reflexivity|].
  destruct (Z.ltb_spec (end_ a - begin a - arena_padding a alignment) size);
    [reflexivity|lia].
Qed.

Lemma alloc_all_monotone (reqs : list (Z * Z)) :
  forall a a',
    begin a <= end_ a ->
    Forall (fun r => snd r < 2 ^ 63) reqs ->
    alloc_all a reqs = Some a' ->
    begin a' <= end_ a' /\ remaining a' <= remaining a - total_size reqs.
Proof.
  induction reqs as [|[size alignment] reqs IH]; intros a a' Hinv Hal Hrun.
  - simpl in Hrun. injection Hrun as <-. simpl. lia.
  - simpl in Hrun.
    destruct (arena_alloc_aligned a size alignment) as [|ptr a1] eqn:Hcall;
      [discriminate|].
    inversion Hal as [|r rs Hal1 Hal2]; subst. simpl in Hal1.
    apply arena_alloc_aligned_ret in Hcall as [Hv Hcase].
    pose proof (arena_padding_bounds a alignment Hv Hal1) as [Hp _].
    assert (Hstep : begin a1 <= end_ a1 /\ remaining a1 <= remaining a - size).
    { unfold remaining.
      destruct Hcase as [(-> & _ & ->) | (_ & _ & Hb & He & H0 & Hs)]; lia. }
    destruct (IH a1 a' (proj1 Hstep) Hal2 Hrun) as [Hinv' Hrem'].
    split; [assumption|]. simpl. lia.
Qed.

End ArenaFacts.

Section ArenaClaims.
Import Arena.

(** C7.  A request of size 0 is answered with [NULL] for every arena, an
    exhausted one included, and every valid alignment: the process does not
    abort and [begin] and [end] are left as they were. *)
Theorem arena_alloc_zero_size (a : Arena) (alignment : Z) :
  valid_alignment alignment = true ->
  arena_alloc_aligned a 0 alignment = Ret NULL a /\
  is_abort (arena_alloc_aligned a 0 alignment) = false.
Proof.
  intros Hv. unfold arena_alloc_aligned. rewrite Hv. simpl. split; reflexivity.
Qed.

Lemma arena_alloc_zero_size_witness :
  arena_alloc_aligned (mkArena 64 64) 0 16 = Ret NULL (mkArena 64 64) /\
  is_abort (arena_alloc_aligned (mkArena 64 64) 0 16) = false.
Proof.
  apply (arena_alloc_zero_size (mkArena 64 64) 16). reflexivity.
Defined.

(** C6, as the code has it.  With [begin <= end] before a call:
    - a call of [arena_alloc_aligned] (hence of [arena_alloc]) that returns
      leaves [begin <= end] and [end] unchanged, and for [size > 0] has
      advanced [begin] by exactly [padding + size], with [padding >= 0];
    - [arena_realloc] of a block of non-negative size that returns leaves
      [begin <= end];
    - after any run of successful allocations the remaining space
      [end - begin] has shrunk by at least the sum of their sizes;
    - a request larger than the remaining space aborts;
    - once [begin = end], every request of size [> 0] aborts.
    A request of size 0 is answered with [NULL] before any of this. *)
Theorem arena_alloc_invariants (a : Arena) :
  begin a <= end_ a ->
  (forall size alignment ptr a',
      in_isize alignment ->
      arena_alloc_aligned a size alignment = Ret ptr a' ->
      begin a' <= end_ a' /\ end_ a' = end_ a /\
      (0 < size ->
       0 <= arena_padding a alignment /\
       ptr = begin a + arena_padding a alignment /\
       begin a' = begin a + arena_padding a alignment + size)) /\
  (forall m old_ptr old_size new_size ptr a' m',
      0 <= old_size ->
      arena_realloc a m old_ptr old_size new_size = (Ret ptr a', m') ->
      begin a' <= end_ a' /\ end_ a' = end_ a) /\
  (forall reqs a',
      Forall (fun r => in_isize (snd r)) reqs ->
      alloc_all a reqs = Some a' ->
      begin a' <= end_ a' /\ remaining a' <= remaining a - total_size reqs) /\
  (forall size alignment,
      in_isize alignment -> remaining a < size ->
      is_abort (arena_alloc_aligned a size alignment) = true) /\
  (begin a = end_ a ->
   forall size alignment,
     in_isize alignment -> 0 < size ->
     is_abort (arena_alloc_aligned a size alignment) = true).
Proof.
  intros Hinv. repeat apply conj.
  - intros size alignment ptr a' [_ Hal] Hcall.
    apply arena_alloc_aligned_ret in Hcall as [Hv Hcase].
    pose proof (arena_padding_bounds a alignment Hv Hal) as [Hp _].
    destruct Hcase as [(-> & _ & ->) | (_ & Hptr & Hb & He & H0 & Hs)].
    + repeat split; lia.
    + repeat split; try lia; assumption.
  - intros m old_ptr old_size new_size ptr a' m' Hold. unfold arena_realloc.
    destruct (Z.geb_spec old_size new_size) as [Hge|Hlt].
    + intros Heq. injection Heq as <- <- <-. auto.
    + destruct (negb (old_ptr =? NULL) && (old_ptr + old_size =? begin a)).
      * intros Heq. injection Heq as Hcall _.
        apply arena_alloc_aligned_ret in Hcall as [_ Hcase]. simpl in Hcase.
        destruct Hcase as [(-> & _ & _) | (_ & _ & Hb & He & H0 & Hs)]; lia.
      * destruct (arena_alloc a new_size) as [|p a1] eqn:Hcall; [discriminate|].
        intros Heq. injection Heq as <- <- <-.
        apply arena_alloc_aligned_ret in Hcall as [_ Hcase].
        destruct Hcase as [(-> & _ & _) | (_ & _ & Hb & He & H0 & Hs)]; lia.
  - intros reqs a' Hal. apply alloc_all_monotone; [assumption|].
    eapply Forall_impl; [|exact Hal]. intros r [_ Hr]. exact Hr.
  - intros size alignment [_ Hal] Hrem.
    apply arena_alloc_aligned_overflow; unfold remaining in *; lia.
  - intros Hfull size alignment [_ Hal] Hsize.
    apply arena_alloc_aligned_overflow; unfold remaining; lia.
Qed.

Lemma arena_alloc_invariants_witness :
  let a := mkArena 16 1024 in
  let a' := mkArena 24 1024 in
  begin a' <= end_ a' /\ end_ a' = end_ a /\
  (0 < 8 ->
   0 <= arena_padding a 16 /\
   16 = begin a + arena_padding a 16 /\
   begin a' = begin a + arena_padding a 16 + 8).
Proof.
  intros a a'.
  assert (Hinv : begin a <= end_ a) by (simpl; lia).
  apply (proj1 (arena_alloc_invariants a Hinv) 8 16 16 a').
  - unfold in_isize. lia.
  - reflexivity.
Defined.

(** C6 as it was stated fails in its last part: on an exhausted arena a
    request of size 0 is still answered (with [NULL]) instead of aborting. *)
Lemma arena_exhausted_request_not_failing :
  ~ (forall a size alignment,
        begin a = end_ a -> valid_alignment alignment = true ->
        is_abort (arena_alloc_aligned a size alignment) = true).
Proof.
  intros H. specialize (H (mkArena 64 64) 0 16 eq_refl eq_refl).
  discriminate H.
Qed.

(** The size is a signed [isize] and is not checked: on an exhausted arena
    whose [begin] is aligned, a request of negative size is served with a
    pointer that is not [NULL], and [begin] moves back. *)
Lemma arena_alloc_negative_size :
  arena_alloc_aligned (mkArena 64 64) (-16) 16 = Ret 64 (mkArena 48 64).
Proof. reflexivity. Qed.

(** Growth in place works for a block whose address is a multiple of the
    default alignment, as every block handed out by [arena_alloc] is. *)
Lemma arena_realloc_in_place (a : Arena) (m : Mem) (old_ptr old_size new_size : Z) :
  old_ptr <> NULL ->
  old_ptr mod ARENA_DEFAULT_ALIGNMENT = 0 ->
  old_ptr + old_size = begin a ->
  0 <= old_size < new_size ->
  new_size <= end_ a - old_ptr ->
  arena_realloc a m old_ptr old_size new_size =
    (Ret old_ptr {| begin := old_ptr + new_size; end_ := end_ a |}, m).
Proof.
  intros Hnull Halign Hlast Hgrow Hfit. unfold arena_realloc.
  destruct (Z.geb_spec old_size new_size); [lia|].
  destruct (Z.eqb_spec old_ptr NULL); [contradiction|].
  destruct (Z.eqb_spec (old_ptr + old_size) (begin a)); [|contradiction].
  simpl. f_equal. unfold arena_alloc.
  set (a0 := {| begin := old_ptr; end_ := end_ a |}).
  assert (Hpad : arena_padding a0 ARENA_DEFAULT_ALIGNMENT = 0).
  { rewrite arena_padding_mod; [|reflexivity|reflexivity]. simpl.
    unfold ARENA_DEFAULT_ALIGNMENT in *.
    rewrite Z.mod_opp_l_z; lia. }
  rewrite arena_alloc_aligned_fits; rewrite ?Hpad; simpl; try lia;
    try reflexivity.
  f_equal; [lia | f_equal; lia].
Qed.

(** C5 on a block that is not 16-aligned.  Two [arena_alloc_aligned] calls
    with alignment 1 on an arena starting at address 16 hand out the blocks
    at 16 and 17; growing the second, most recent, block from 4 to 8 bytes
    returns address 32 rather than 17, and nothing is copied: the memory is
    untouched, so the new block does not start with the old block's bytes. *)
Theorem arena_realloc_unaligned_block_moves :
  let a0 := mkArena 16 1024 in
  let m : Mem := fun addr => addr mod 256 in
  arena_alloc_aligned a0 1 1 = Ret 16 (mkArena 17 1024) /\
  arena_alloc_aligned (mkArena 17 1024) 4 1 = Ret 17 (mkArena 21 1024) /\
  arena_realloc (mkArena 21 1024) m 17 4 8 = (Ret 32 (mkArena 40 1024), m) /\
  load_bytes m 17 4 = [17; 18; 19; 20] /\
  load_bytes (snd (arena_realloc (mkArena 21 1024) m 17 4 8)) 32 4 = [32; 33; 34; 35].
Proof.
  repeat split; reflexivity.
Qed.

End ArenaClaims.

Section SpaceClaims.
Import Utf8.

(** C8.  [char_is_space] holds of exactly U+0020, U+0009, U+000A, U+000C
    and U+000D; in particular not of U+000B, U+0085, U+00A0 or U+2028. *)
Theorem char_is_space_exact :
  (forall c : Z,
      char_is_space c = true <->
      c = 0x0020 \/ c = 0x0009 \/ c = 0x000a \/ c = 0x000c \/ c = 0x000d) /\
  char_is_space 0x000b = false /\ char_is_space 0x0085 = false /\
  char_is_space 0x00a0 = false /\ char_is_space 0x2028 = false.
Proof.
  split; [|repeat split; reflexivity].
  intros c. unfold char_is_space.
  rewrite !orb_true_iff, !Z.eqb_eq. tauto.
Qed.

End SpaceClaims.

(** * Properties of the UTF-8 decoder and validator *)

(** Linear arithmetic with division and remainder by constants. *)
Ltac dlia := Z.div_mod_to_equations; lia.

Section Utf8Facts.
Import Utf8 Spec.

(** ** Bit-level arithmetic of the decoder *)


Lemma u32_small (z : Z) : 0 <= z < 2 ^ 32 -> u32 z = z.
Proof. intros Hz. unfold u32. apply Z.mod_small. assumption. Qed.

Lemma land_low_bits (b k : Z) : 0 <= k -> Z.land b (2 ^ k - 1) = b mod 2 ^ k.
Proof.
  intros Hk.
  replace (2 ^ k - 1) with (Z.ones k) by (rewrite Z.ones_equiv; lia).
  apply Z.land_ones. assumption.
Qed.

(** Or-ing a value below [2 ^ k] into a multiple of [2 ^ k] adds it. *)
Lemma lor_high_low (h l k : Z) :
  0 <= k -> 0 <= l < 2 ^ k -> Z.lor (h * 2 ^ k) l = h * 2 ^ k + l.
Proof.
  intros Hk Hl.
  assert (Hdisj : Z.land (h * 2 ^ k) l = 0).
  { apply Z.bits_inj'. intros n Hn.
    rewrite Z.land_spec, Z.bits_0.
    destruct (Z.lt_ge_cases n k) as [Hlt|Hge].
    - rewrite Z.mul_pow2_bits_low by assumption. reflexivity.
    - destruct (Z.eq_dec l 0) as [->|Hl0].
      + rewrite Z.bits_0. apply andb_false_r.
      + rewrite (Z.bits_above_log2 l n); [apply andb_false_r|lia|].
        apply Z.lt_le_trans with k; [|assumption].
        apply Z.log2_lt_pow2; lia. }
  pose proof (Z.add_lor_land (h * 2 ^ k) l) as Hadd.
  rewrite Hdisj in Hadd. lia.
Qed.

Lemma shl32_small (z n : Z) :
  0 <= n -> 0 <= z * 2 ^ n < 2 ^ 32 -> shl32 z n = z * 2 ^ n.
Proof.
  intros Hn Hz. unfold shl32.
  rewrite Z.shiftl_mul_pow2 by assumption. apply u32_small. assumption.
Qed.

(** A masked byte, as the decoder sees it: the low [k] bits. *)
Lemma field (b k : Z) :
  0 <= k <= 8 -> 0 <= b -> u32 (Z.land b (2 ^ k - 1)) = b mod 2 ^ k.
Proof.
  intros Hk Hb. rewrite land_low_bits by lia.
  apply u32_small.
  assert (H2k : 0 < 2 ^ k) by (apply Z.pow_pos_nonneg; lia).
  pose proof (Z.mod_pos_bound b (2 ^ k) H2k).
  assert (2 ^ k <= 2 ^ 32) by (apply Z.pow_le_mono_r; lia). lia.
Qed.

Lemma decode2_arith (b0 b1 : Z) :
  0 <= b0 -> 0 <= b1 ->
  Z.lor (shl32 (u32 (Z.land b0 0x1f)) 6) (u32 (Z.land b1 0x3f))
  = (b0 mod 32) * 64 + b1 mod 64.
Proof.
  intros H0 H1.
  change 0x1f with (2 ^ 5 - 1). change 0x3f with (2 ^ 6 - 1).
  rewrite !field by dlia.
  change (2 ^ 5) with 32. change (2 ^ 6) with 64.
  rewrite shl32_small by dlia.
  apply (lor_high_low _ _ 6); dlia.
Qed.

Lemma decode3_arith (b0 b1 b2 : Z) :
  0 <= b0 -> 0 <= b1 -> 0 <= b2 ->
  Z.lor (Z.lor (shl32 (u32 (Z.land b0 0x0f)) 12)
               (shl32 (u32 (Z.land b1 0x3f)) 6))
        (u32 (Z.land b2 0x3f))
  = (b0 mod 16) * 4096 + (b1 mod 64) * 64 + b2 mod 64.
Proof.
  intros H0 H1 H2.
  change 0x0f with (2 ^ 4 - 1). change 0x3f with (2 ^ 6 - 1).
  rewrite !field by dlia.
  change (2 ^ 4) with 16. change (2 ^ 6) with 64.
  rewrite !shl32_small by dlia.
  rewrite (lor_high_low (b0 mod 16) (b1 mod 64 * 2 ^ 6) 12) by dlia.
  replace (b0 mod 16 * 2 ^ 12 + b1 mod 64 * 2 ^ 6)
    with ((b0 mod 16 * 64 + b1 mod 64) * 2 ^ 6) by dlia.
  rewrite lor_high_low by dlia. dlia.
Qed.

Lemma decode4_arith (b0 b1 b2 b3 : Z) :
  0 <= b0 -> 0 <= b1 -> 0 <= b2 -> 0 <= b3 ->
  Z.lor (Z.lor (Z.lor (shl32 (u32 (Z.land b0 0x07)) 18)
                      (shl32 (u32 (Z.land b1 0x3f)) 12))
               (shl32 (u32 (Z.land b2 0x3f)) 6))
        (u32 (Z.land b3 0x3f))
  = (b0 mod 8) * 262144 + (b1 mod 64) * 4096 + (b2 mod 64) * 64 + b3 mod 64.
Proof.
  intros H0 H1 H2 H3.
  change 0x07 with (2 ^ 3 - 1). change 0x3f with (2 ^ 6 - 1).
  rewrite !field by dlia.
  change (2 ^ 3) with 8. change (2 ^ 6) with 64.
  rewrite !shl32_small by dlia.
  rewrite (lor_high_low (b0 mod 8) (b1 mod 64 * 2 ^ 12) 18) by dlia.
  replace (b0 mod 8 * 2 ^ 18 + b1 mod 64 * 2 ^ 12)
    with ((b0 mod 8 * 64 + b1 mod 64) * 2 ^ 12) by dlia.
  rewrite (lor_high_low _ (b2 mod 64 * 2 ^ 6) 12) by dlia.
  replace ((b0 mod 8 * 64 + b1 mod 64) * 2 ^ 12 + b2 mod 64 * 2 ^ 6)
    with (((b0 mod 8 * 64 + b1 mod 64) * 64 + b2 mod 64) * 2 ^ 6) by dlia.
  rewrite lor_high_low by dlia. dlia.
Qed.

(** ** The lookup table *)

(** A property checked on the 256 byte values holds of every byte. *)
Lemma forall_bytes (P : Z -> bool) :
  forallb P (map Z.of_nat (seq 0 256)) = true ->
  forall b, 0 <= b < 256 -> P b = true.
Proof.
  intros Hall b Hb.
  rewrite forallb_forall in Hall. apply Hall.
  apply in_map_iff. exists (Z.to_nat b). split; [lia|].
  apply in_seq. lia.
Qed.

Lemma char_size_of_ranges (b : Z) :
  0 <= b < 256 ->
  char_size_of b =
    (if b <? 0x80 then 1
     else if b <? 0xc2 then 0
     else if b <? 0xe0 then 2
     else if b <? 0xf0 then 3
     else if b <? 0xf5 then 4
     else 0).
Proof.
  intros Hb. apply Z.eqb_eq.
  apply (forall_bytes table_as_ranges); [vm_compute; reflexivity | assumption].
Qed.

Lemma char_size_of_bounds (b : Z) : 0 <= char_size_of b <= 4.
Proof.
  destruct (Z.lt_ge_cases b 0) as [Hneg|Hnn].
  - unfold char_size_of. destruct b; try lia. simpl. lia.
  - destruct (Z.lt_ge_cases b 256) as [Hlt|Hge].
    + rewrite char_size_of_ranges by lia.
      repeat match goal with |- context [?x <? ?y] => destruct (x <? y) end; lia.
    + unfold char_size_of. rewrite nth_overflow; [lia|].
      change (length utf8_char_size) with 256%nat. lia.
Qed.

(** ** [utf8_chop_char] on each of the four forms *)

Lemma chop1 (b0 : Z) (tail : list Z) (n : Z) :
  0 <= b0 < 0x80 ->
  utf8_chop_char (mkView (b0 :: tail) n) =
    Some (mkChopped (mkView (b0 :: tail) 1) b0 (mkView tail (n - 1))).
Proof.
  intros Hb. unfold utf8_chop_char, byte_at. simpl.
  rewrite char_size_of_ranges by lia.
  destruct (Z.ltb_spec b0 0x80); [|lia].
  simpl. unfold byte_at. simpl. rewrite u32_small by lia. reflexivity.
Qed.

Lemma chop2 (b0 b1 : Z) (tail : list Z) (n : Z) :
  0xc2 <= b0 < 0xe0 -> 0 <= b1 ->
  utf8_chop_char (mkView (b0 :: b1 :: tail) n) =
    Some (mkChopped (mkView (b0 :: b1 :: tail) 2)
            ((b0 mod 32) * 64 + b1 mod 64) (mkView tail (n - 2))).
Proof.
  intros Hb0 Hb1. unfold utf8_chop_char, byte_at. simpl.
  rewrite char_size_of_ranges by lia.
  destruct (Z.ltb_spec b0 0x80); [lia|].
  destruct (Z.ltb_spec b0 0xc2); [lia|].
  destruct (Z.ltb_spec b0 0xe0); [|lia].
  simpl. unfold byte_at. simpl. rewrite decode2_arith by lia. reflexivity.
Qed.

Lemma chop3 (b0 b1 b2 : Z) (tail : list Z) (n : Z) :
  0xe0 <= b0 < 0xf0 -> 0 <= b1 -> 0 <= b2 ->
  utf8_chop_char (mkView (b0 :: b1 :: b2 :: tail) n) =
    Some (mkChopped (mkView (b0 :: b1 :: b2 :: tail) 3)
            ((b0 mod 16) * 4096 + (b1 mod 64) * 64 + b2 mod 64)
            (mkView tail (n - 3))).
Proof.
  intros Hb0 Hb1 Hb2. unfold utf8_chop_char, byte_at. simpl.
  rewrite char_size_of_ranges by lia.
  destruct (Z.ltb_spec b0 0x80); [lia|].
  destruct (Z.ltb_spec b0 0xc2); [lia|].
  destruct (Z.ltb_spec b0 0xe0); [lia|].
  destruct (Z.ltb_spec b0 0xf0); [|lia].
  simpl. unfold byte_at. simpl. rewrite decode3_arith by lia. reflexivity.
Qed.

Lemma chop4 (b0 b1 b2 b3 : Z) (tail : list Z) (n : Z) :
  0xf0 <= b0 < 0xf5 -> 0 <= b1 -> 0 <= b2 -> 0 <= b3 ->
  utf8_chop_char (mkView (b0 :: b1 :: b2 :: b3 :: tail) n) =
    Some (mkChopped (mkView (b0 :: b1 :: b2 :: b3 :: tail) 4)
            ((b0 mod 8) * 262144 + (b1 mod 64) * 4096 + (b2 mod 64) * 64
             + b3 mod 64)
            (mkView tail (n - 4))).
Proof.
  intros Hb0 Hb1 Hb2 Hb3. unfold utf8_chop_char, byte_at. simpl.
  rewrite char_size_of_ranges by lia.
  destruct (Z.ltb_spec b0 0x80); [lia|].
  destruct (Z.ltb_spec b0 0xc2); [lia|].
  destruct (Z.ltb_spec b0 0xe0); [lia|].
  destruct (Z.ltb_spec b0 0xf0); [lia|].
  destruct (Z.ltb_spec b0 0xf5); [|lia].
  simpl. unfold byte_at. simpl. rewrite decode4_arith by lia. reflexivity.
Qed.

(** ** Decoding a canonical encoding *)

Lemma encoded_size_cases (c : Z) :
  encoded_size c =
    if c <? 0x80 then 1 else if c <? 0x800 then 2
    else if c <? 0x10000 then 3 else 4.
Proof.
  unfold encoded_size, utf8_encode.
  repeat match goal with |- context [?x <? ?y] => destruct (x <? y) end;
    reflexivity.
Qed.

Lemma encoded_size_pos (c : Z) : 1 <= encoded_size c <= 4.
Proof.
  rewrite encoded_size_cases.
  repeat match goal with |- context [?x <? ?y] => destruct (x <? y) end; lia.
Qed.

Lemma utf8_encode_bytes (c : Z) :
  0 <= c <= 0x10ffff -> Forall is_u8 (utf8_encode c).
Proof.
  intros Hc. unfold utf8_encode, is_u8.
  repeat match goal with
         | |- context [?x <? ?y] => destruct (Z.ltb_spec x y)
         end;
    repeat constructor; dlia.
Qed.

Lemma utf8_chop_char_encode (c : Z) (tail : list Z) (n : Z) :
  0 <= c <= 0x10ffff ->
  utf8_chop_char (mkView (utf8_encode c ++ tail) n) =
    Some (mkChopped (mkView (utf8_encode c ++ tail) (encoded_size c)) c
            (mkView tail (n - encoded_size c))).
Proof.
  intros Hc. rewrite encoded_size_cases. unfold utf8_encode.
  destruct (Z.ltb_spec c 0x80) as [H1|H1].
  { cbn [app]. apply chop1. lia. }
  destruct (Z.ltb_spec c 0x800) as [H2|H2].
  { cbn [app]. rewrite chop2 by dlia. do 2 f_equal. dlia. }
  destruct (Z.ltb_spec c 0x10000) as [H3|H3].
  { cbn [app]. rewrite chop3 by dlia. do 2 f_equal. dlia. }
  cbn [app]. rewrite chop4 by dlia. do 2 f_equal. dlia.
Qed.

Lemma view_bytes_prefix (l tail : list Z) :
  view_bytes (mkView (l ++ tail) (Z.of_nat (length l))) = l.
Proof.
  unfold view_bytes. simpl. rewrite Nat2Z.id.
  rewrite firstn_app, Nat.sub_diag, firstn_all. simpl. apply app_nil_r.
Qed.

End Utf8Facts.

Section Utf8RoundTrip.
Import Utf8 Spec.

(** C3.  For every Unicode scalar value, [utf8_chop_char] applied to a span
    that begins with its canonical encoding stores that value as the code
    point, returns a slice holding exactly the encoding bytes, and advances
    the span by the length of the encoding: [data] moves past those bytes
    and [size] drops by their number. *)
Theorem utf8_chop_char_round_trip (c : Z) (tail : list Z) (n : Z) :
  scalar_value c ->
  exists ch,
    utf8_chop_char (mkView (utf8_encode c ++ tail) n) = Some ch /\
    code ch = c /\
    view_bytes (slice ch) = utf8_encode c /\
    data (rest ch) = tail /\
    size (rest ch) = n - Z.of_nat (length (utf8_encode c)).
Proof.
  intros Hc.
  assert (Hrange : 0 <= c <= 0x10ffff) by (unfold scalar_value in Hc; lia).
  eexists. split; [apply utf8_chop_char_encode; assumption|].
  simpl. repeat split.
  apply view_bytes_prefix.
Qed.

Lemma utf8_chop_char_round_trip_witness :
  exists ch,
    utf8_chop_char (mkView (utf8_encode 0x20ac ++ [0x41]) 4) = Some ch /\
    code ch = 0x20ac /\
    view_bytes (slice ch) = utf8_encode 0x20ac /\
    data (rest ch) = [0x41] /\
    size (rest ch) = 4 - Z.of_nat (length (utf8_encode 0x20ac)).
Proof.
  apply (utf8_chop_char_round_trip 0x20ac [0x41] 4).
  unfold scalar_value. lia.
Defined.

End Utf8RoundTrip.

(** * The legend as a stream of code points *)

Section DecodeFacts.
Import Utf8 Font8x8 Spec.

Lemma decode_char_other (s : StringView) (char_size : Z) :
  char_size <> 1 -> char_size <> 2 -> char_size <> 3 -> char_size <> 4 ->
  decode_char s char_size = None.
Proof.
  intros H1 H2 H3 H4. unfold decode_char.
  destruct char_size as [|p|p]; try reflexivity.
  do 3 (try destruct p as [p|p|]); try reflexivity; lia.
Qed.

Lemma decode_char_some (s : StringView) (char_size cc : Z) :
  decode_char s char_size = Some cc ->
  1 <= char_size <= 4 /\ (Z.to_nat char_size <= length (data s))%nat.
Proof.
  intros Hdec.
  assert (Hcases : char_size = 1 \/ char_size = 2 \/ char_size = 3 \/ char_size = 4).
  { destruct (Z.eq_dec char_size 1); [tauto|].
    destruct (Z.eq_dec char_size 2); [tauto|].
    destruct (Z.eq_dec char_size 3); [tauto|].
    destruct (Z.eq_dec char_size 4); [tauto|].
    rewrite decode_char_other in Hdec by assumption. discriminate. }
  assert (Hread : forall i b, nth_error (data s) i = Some b ->
                    (i < length (data s))%nat).
  { intros i b Hi. apply nth_error_Some. congruence. }
  unfold decode_char, byte_at in Hdec.
  destruct Hcases as [-> | [-> | [-> | ->]]].
  - destruct (nth_error (data s) 0) eqn:E0; [|discriminate].
    apply Hread in E0. split; [lia|]. change (Z.to_nat 1) with 1%nat. lia.
  - destruct (nth_error (data s) 0); [|discriminate].
    destruct (nth_error (data s) 1) eqn:E1; [|discriminate].
    apply Hread in E1. split; [lia|]. change (Z.to_nat 2) with 2%nat. lia.
  - destruct (nth_error (data s) 0); [|discriminate].
    destruct (nth_error (data s) 1); [|discriminate].
    destruct (nth_error (data s) 2) eqn:E2; [|discriminate].
    apply Hread in E2. split; [lia|]. change (Z.to_nat 3) with 3%nat. lia.
  - destruct (nth_error (data s) 0); [|discriminate].
    destruct (nth_error (data s) 1); [|discriminate].
    destruct (nth_error (data s) 2); [|discriminate].
    destruct (nth_error (data s) 3) eqn:E3; [|discriminate].
    apply Hread in E3. split; [lia|]. change (Z.to_nat 4) with 4%nat. lia.
Qed.

(** With enough bytes in the buffer the [switch] yields a code point. *)
Lemma decode_char_enough (s : StringView) (char_size : Z) :
  1 <= char_size <= 4 -> (Z.to_nat char_size <= length (data s))%nat ->
  exists cc, decode_char s char_size = Some cc.
Proof.
  intros Hcs Hlen.
  assert (Hread : forall i, (i < Z.to_nat char_size)%nat ->
                    exists b, nth_error (data s) i = Some b).
  { intros i Hi. destruct (nth_error (data s) i) eqn:Hn; [eauto|].
    apply nth_error_None in Hn. lia. }
  assert (Hcases : char_size = 1 \/ char_size = 2 \/ char_size = 3 \/ char_size = 4)
    by lia.
  unfold decode_char, byte_at.
  destruct Hcases as [-> | [-> | [-> | ->]]].
  - destruct (Hread 0%nat) as [b0 ->]; [lia|]. eauto.
  - destruct (Hread 0%nat) as [b0 ->]; [lia|].
    destruct (Hread 1%nat) as [b1 ->]; [lia|]. eauto.
  - destruct (Hread 0%nat) as [b0 ->]; [lia|].
    destruct (Hread 1%nat) as [b1 ->]; [lia|].
    destruct (Hread 2%nat) as [b2 ->]; [lia|]. eauto.
  - destruct (Hread 0%nat) as [b0 ->]; [lia|].
    destruct (Hread 1%nat) as [b1 ->]; [lia|].
    destruct (Hread 2%nat) as [b2 ->]; [lia|].
    destruct (Hread 3%nat) as [b3 ->]; [lia|]. eauto.
Qed.

(** What a successful [utf8_chop_char] has read and how it moved on. *)
Lemma utf8_chop_char_some (s : StringView) (c : Chopped) :
  utf8_chop_char s = Some c ->
  exists b0,
    byte_at s 0 = Some b0 /\
    size (slice c) = char_size_of b0 /\
    1 <= size (slice c) <= 4 /\
    data (slice c) = data s /\
    data (rest c) = skipn (Z.to_nat (size (slice c))) (data s) /\
    size (rest c) = size s - size (slice c) /\
    (Z.to_nat (size (slice c)) <= length (data s))%nat.
Proof.
  unfold utf8_chop_char.
  destruct (byte_at s 0) as [b0|] eqn:Hb0; [|discriminate].
  destruct (decode_char s (char_size_of b0)) as [cc|] eqn:Hdec; [|discriminate].
  intros Heq. injection Heq as <-. simpl.
  exists b0. split; [reflexivity|]. split; [reflexivity|].
  destruct (decode_char_some _ _ _ Hdec) as [Hrange Hfit].
  repeat split; try lia; assumption.
Qed.

Lemma tight_rest (s : StringView) (c : Chopped) :
  tight s -> utf8_chop_char s = Some c -> tight (rest c).
Proof.
  unfold tight. intros Ht Hc.
  destruct (utf8_chop_char_some s c Hc) as (b0 & _ & _ & Hr & _ & Hd & Hs & Hfit).
  rewrite Hd, Hs, length_skipn. lia.
Qed.

Lemma Decodes_length (s : StringView) (chars : list (Z * list Z)) :
  Decodes s chars ->
  Z.of_nat (length chars) <= Z.max 0 (size s) /\
  (length chars <= length (data s))%nat.
Proof.
  induction 1 as [s Hs | s c chars Hpos Hc Hrest [IH1 IH2]]; [simpl; lia|].
  destruct (utf8_chop_char_some s c Hc) as (b0 & _ & _ & Hr & _ & Hd & Hsz & Hfit).
  rewrite Hd, length_skipn in IH2. simpl. lia.
Qed.

Lemma Decodes_functional (s : StringView) (chars1 chars2 : list (Z * list Z)) :
  Decodes s chars1 -> Decodes s chars2 -> chars1 = chars2.
Proof.
  intros H1. revert chars2.
  induction H1 as [s Hs | s c chars Hpos Hc Hrest IH]; intros chars2 H2.
  - inversion H2; subst; [reflexivity | lia].
  - inversion H2 as [|s' c' chars' Hpos' Hc' Hrest']; subst; [lia|].
    rewrite Hc in Hc'. injection Hc' as <-.
    f_equal. apply IH. assumption.
Qed.

(** One round of the validation loop on a span that still has a whole
    character. *)
Lemma utf8_validate_loop_step (fuel : nat) (s : StringView) (c : Chopped) :
  0 < size s ->
  utf8_chop_char s = Some c ->
  utf8_validate_loop (S fuel) s =
    if size s <? size (slice c) then Some false
    else if range_ok (size (slice c)) (code c)
         then utf8_validate_loop fuel (rest c)
         else Some false.
Proof.
  intros Hpos Hc.
  destruct (utf8_chop_char_some s c Hc) as (b0 & Hb0 & Hsz & Hr & _).
  simpl. destruct (Z.gtb_spec (size s) 0); [|lia].
  rewrite Hb0, Hc, <- Hsz.
  destruct (Z.eqb_spec (size (slice c)) 0); [lia|]. simpl.
  destruct (size s <? size (slice c)); [reflexivity|].
  unfold range_ok.
  destruct ((size (slice c) =? 3)
            && ((code c <? 0x0800) || (code c >? 0xffff))); [reflexivity|].
  destruct ((size (slice c) =? 3)
            && ((code c >=? 0xd800) && (code c <=? 0xdfff))); [reflexivity|].
  destruct ((size (slice c) =? 4)
            && ((code c <? 0x10000) || (code c >? 0x10ffff))); reflexivity.
Qed.

(** A span the validator accepts can be read to its end: the pre-scan and
    the extraction never leave the buffer on it. *)
Lemma utf8_validate_loop_Decodes (fuel : nat) :
  forall s, utf8_validate_loop fuel s = Some true -> exists chars, Decodes s chars.
Proof.
  induction fuel as [|fuel IH]; intros s Hv.
  - simpl in Hv. destruct (Z.gtb_spec (size s) 0); [discriminate|].
    exists []. constructor. lia.
  - destruct (Z.gtb_spec (size s) 0) as [Hpos|Hle].
    + destruct (utf8_chop_char s) as [c|] eqn:Hc.
      * rewrite (utf8_validate_loop_step fuel s c) in Hv by (assumption || lia).
        destruct (size s <? size (slice c)); [discriminate|].
        destruct (range_ok (size (slice c)) (code c)); [|discriminate].
        destruct (IH _ Hv) as [chars Hchars].
        eexists. eapply Decodes_char; [lia | exact Hc | exact Hchars].
      * simpl in Hv. destruct (Z.gtb_spec (size s) 0); [|lia].
        destruct (byte_at s 0); [|discriminate].
        rewrite Hc in Hv.
        destruct ((char_size_of z =? 0) || (size s <? char_size_of z));
          discriminate.
    + exists []. constructor. lia.
Qed.

Lemma utf8_validate_Decodes (s : StringView) :
  utf8_validate s = Some true -> exists chars, Decodes s chars.
Proof. apply utf8_validate_loop_Decodes. Qed.

(** The validator always answers on a span that lies inside its buffer:
    [size] rounds are enough and no read leaves the buffer. *)
Lemma utf8_validate_loop_total (fuel : nat) :
  forall s,
    (Z.to_nat (size s) <= fuel)%nat ->
    size s <= Z.of_nat (length (data s)) ->
    exists b, utf8_validate_loop fuel s = Some b.
Proof.
  induction fuel as [|fuel IH]; intros s Hfuel Hfit.
  - simpl. destruct (Z.gtb_spec (size s) 0); [lia|]. eauto.
  - simpl. destruct (Z.gtb_spec (size s) 0) as [Hpos|Hle]; [|eauto].
    unfold byte_at at 1.
    destruct (nth_error (data s) 0) as [b0|] eqn:Hb0.
    2:{ apply nth_error_None in Hb0. lia. }
    destruct (Z.eqb_spec (char_size_of b0) 0) as [|Hnz]; simpl; [eauto|].
    destruct (Z.ltb_spec (size s) (char_size_of b0)) as [|Hge]; [eauto|].
    pose proof (char_size_of_bounds b0) as Hcs.
    assert (Hchop : exists c, utf8_chop_char s = Some c).
    { unfold utf8_chop_char, byte_at. rewrite Hb0.
      destruct (decode_char_enough s (char_size_of b0)) as [cc ->]; [lia|lia|].
      eauto. }
    destruct Hchop as [c Hc]. rewrite Hc.
    destruct (utf8_chop_char_some s c Hc)
      as (b0' & Hb0' & Hsz & Hr & _ & Hd & Hs & Hfit').
    repeat match goal with
           | |- exists b, (if ?x then _ else _) = Some b => destruct x; [eauto|]
           end.
    apply IH.
    + rewrite Hs. lia.
    + rewrite Hs, Hd, length_skipn. lia.
Qed.

Lemma utf8_validate_total (s : StringView) :
  size s <= Z.of_nat (length (data s)) ->
  exists b, utf8_validate s = Some b.
Proof. intros Hfit. apply utf8_validate_loop_total; [lia | assumption]. Qed.

End DecodeFacts.

(** * The validator on well-formed and ill-formed input *)

Section ValidateFacts.
Import Utf8 Font8x8 Spec.

Lemma view_of_rest (c : Z) (tail : list Z) :
  mkView tail (Z.of_nat (length (utf8_encode c ++ tail)) - encoded_size c)
  = view_of tail.
Proof.
  unfold view_of, encoded_size. f_equal. rewrite length_app. lia.
Qed.

Lemma utf8_chop_char_view_of (c : Z) (tail : list Z) :
  0 <= c <= 0x10ffff ->
  utf8_chop_char (view_of (utf8_encode c ++ tail)) =
    Some (mkChopped (mkView (utf8_encode c ++ tail) (encoded_size c)) c
            (view_of tail)).
Proof.
  intros Hc. unfold view_of at 1.
  rewrite utf8_chop_char_encode by assumption.
  rewrite view_of_rest. reflexivity.
Qed.

Lemma view_of_size_pos (c : Z) (tail : list Z) :
  encoded_size c <= size (view_of (utf8_encode c ++ tail)).
Proof.
  unfold view_of, encoded_size. simpl. rewrite length_app. lia.
Qed.

Lemma range_ok_scalar (c : Z) : scalar_value c -> range_ok (encoded_size c) c = true.
Proof.
  unfold scalar_value. intros Hc. rewrite encoded_size_cases. unfold range_ok.
  destruct (Z.ltb_spec c 0x80); [reflexivity|].
  destruct (Z.ltb_spec c 0x800); [reflexivity|].
  destruct (Z.ltb_spec c 0x10000); simpl.
  - destruct (Z.gtb_spec c 0xffff); [lia|].
    destruct (Z.geb_spec c 0xd800); [|reflexivity].
    destruct (Z.leb_spec c 0xdfff); [lia|reflexivity].
  - destruct (Z.gtb_spec c 0x10ffff); [lia|reflexivity].
Qed.

(** Decoding the encoding of a list of code points gives the list back. *)
Lemma Decodes_encode_all (cs : list Z) :
  Forall (fun c => 0 <= c <= 0x10ffff) cs ->
  Decodes (view_of (utf8_encode_all cs)) (map (fun c => (c, utf8_encode c)) cs).
Proof.
  induction 1 as [|c cs Hc Hcs IH]; simpl.
  - constructor. simpl. lia.
  - pose proof (utf8_chop_char_view_of c (utf8_encode_all cs) Hc) as Hchop.
    assert (Hpos : 0 < size (view_of (utf8_encode c ++ utf8_encode_all cs))).
    { pose proof (view_of_size_pos c (utf8_encode_all cs)).
      pose proof (encoded_size_pos c). lia. }
    pose proof (Decodes_char _ _ _ Hpos Hchop IH) as Hd.
    cbn [code slice] in Hd. unfold encoded_size in Hd. rewrite view_bytes_prefix in Hd.
    exact Hd.
Qed.

(** The validator accepts every well-formed sequence. *)
Lemma utf8_validate_loop_well_formed (cs : list Z) :
  Forall scalar_value cs ->
  forall fuel, (length cs <= fuel)%nat ->
    utf8_validate_loop fuel (view_of (utf8_encode_all cs)) = Some true.
Proof.
  induction 1 as [|c cs Hc Hcs IH]; intros fuel Hfuel.
  - destruct fuel; reflexivity.
  - destruct fuel as [|fuel]; [simpl in Hfuel; lia|].
    assert (Hrange : 0 <= c <= 0x10ffff) by (unfold scalar_value in Hc; lia).
    cbn [utf8_encode_all flat_map].
    pose proof (view_of_size_pos c (flat_map utf8_encode cs)) as Hsz.
    pose proof (encoded_size_pos c) as Hes.
    assert (Hpos : 0 < size (view_of (utf8_encode c ++ flat_map utf8_encode cs)))
      by lia.
    rewrite (utf8_validate_loop_step fuel _ _ Hpos
               (utf8_chop_char_view_of c _ Hrange)).
    cbn [slice code rest size].
    destruct (Z.ltb_spec (size (view_of (utf8_encode c ++ flat_map utf8_encode cs)))
                (encoded_size c)); [lia|].
    rewrite range_ok_scalar by assumption.
    apply IH. simpl in Hfuel. lia.
Qed.

Lemma utf8_encode_all_length (cs : list Z) :
  (length cs <= length (utf8_encode_all cs))%nat.
Proof.
  induction cs as [|c cs IH]; simpl; [lia|].
  rewrite length_app. pose proof (encoded_size_pos c). unfold encoded_size in *.
  lia.
Qed.

Lemma utf8_validate_well_formed (cs : list Z) :
  Forall scalar_value cs ->
  utf8_validate (view_of (utf8_encode_all cs)) = Some true.
Proof.
  intros Hcs. apply utf8_validate_loop_well_formed; [assumption|].
  simpl. rewrite Nat2Z.id. apply utf8_encode_all_length.
Qed.

(** In well-formed UTF-8 a byte that follows a non-ASCII first byte is a
    continuation byte. *)
Lemma well_formed_second_byte (b0 b1 : Z) (tl : list Z) :
  well_formed_utf8 (b0 :: b1 :: tl) -> 0x80 <= b0 -> 0x80 <= b1 < 0xc0.
Proof.
  intros (cs & Hcs & Heq) Hb0.
  destruct cs as [|c cs]; [discriminate|].
  inversion Hcs as [|c' cs' Hc _]; subst.
  assert (Hrange : 0 <= c <= 0x10ffff) by (unfold scalar_value in Hc; lia).
  cbn [utf8_encode_all flat_map] in Heq.
  pose proof (f_equal (fun l => nth 0 l 0) Heq) as E0.
  pose proof (f_equal (fun l => nth 1 l 0) Heq) as E1.
  clear Heq. unfold utf8_encode in E0, E1.
  destruct (Z.ltb_spec c 0x80); cbn beta iota delta [nth app] in E0, E1; [lia|].
  destruct (Z.ltb_spec c 0x800); cbn beta iota delta [nth app] in E0, E1; [dlia|].
  destruct (Z.ltb_spec c 0x10000); cbn beta iota delta [nth app] in E0, E1; dlia.
Qed.

(** More fuel does not change an answer. *)
Lemma utf8_validate_loop_fuel (fuel : nat) :
  forall s b fuel',
    utf8_validate_loop fuel s = Some b -> (fuel <= fuel')%nat ->
    utf8_validate_loop fuel' s = Some b.
Proof.
  induction fuel as [|fuel IH]; intros s b fuel' Hrun Hle.
  - simpl in Hrun. destruct (Z.gtb_spec (size s) 0) as [Hpos|Hnpos];
      [discriminate|].
    destruct fuel'; simpl; destruct (Z.gtb_spec (size s) 0); try lia;
      assumption.
  - destruct fuel' as [|fuel']; [lia|].
    simpl in Hrun |- *.
    destruct (size s >? 0); [|assumption].
    destruct (byte_at s 0) as [b0|]; [|discriminate].
    destruct ((char_size_of b0 =? 0) || (size s <? char_size_of b0));
      [assumption|].
    destruct (utf8_chop_char s) as [c|]; [|discriminate].
    repeat match goal with
           | H : (if ?x then _ else _) = Some b |- _ =>
               destruct x; [assumption|]
           end.
    apply IH; [assumption | lia].
Qed.

Lemma utf8_validate_loop_prefix (cs : list Z) (tail : list Z) (b : bool) :
  Forall scalar_value cs ->
  forall fuel fuel',
    utf8_validate_loop fuel (view_of tail) = Some b ->
    (length cs + fuel <= fuel')%nat ->
    utf8_validate_loop fuel' (view_of (utf8_encode_all cs ++ tail)) = Some b.
Proof.
  induction 1 as [|c cs Hc Hcs IH]; intros fuel fuel' Hrun Hfuel.
  - simpl. eapply utf8_validate_loop_fuel; [exact Hrun | simpl in Hfuel; lia].
  - destruct fuel' as [|fuel']; [simpl in Hfuel; lia|].
    assert (Hrange : 0 <= c <= 0x10ffff) by (unfold scalar_value in Hc; lia).
    cbn [utf8_encode_all flat_map]. rewrite <- app_assoc.
    pose proof (view_of_size_pos c (flat_map utf8_encode cs ++ tail)) as Hsz.
    pose proof (encoded_size_pos c) as Hes.
    assert (Hpos : 0 < size (view_of (utf8_encode c
                                      ++ flat_map utf8_encode cs ++ tail)))
      by lia.
    rewrite (utf8_validate_loop_step fuel' _ _ Hpos
               (utf8_chop_char_view_of c _ Hrange)).
    cbn [slice code rest size].
    destruct (Z.ltb_spec
                (size (view_of (utf8_encode c ++ flat_map utf8_encode cs ++ tail)))
                (encoded_size c)); [lia|].
    rewrite range_ok_scalar by assumption.
    eapply IH; [exact Hrun | simpl in Hfuel; lia].
Qed.

(** After a well-formed prefix the validator is where it would be on the
    rest alone. *)
Lemma utf8_validate_after_prefix (cs : list Z) (tail : list Z) :
  Forall scalar_value cs ->
  utf8_validate (view_of (utf8_encode_all cs ++ tail))
  = utf8_validate (view_of tail).
Proof.
  intros Hcs.
  destruct (utf8_validate_total (view_of tail)) as [b Hb]; [simpl; lia|].
  rewrite Hb. unfold utf8_validate in *.
  eapply utf8_validate_loop_prefix; [assumption | exact Hb|].
  simpl. rewrite !Nat2Z.id, length_app.
  pose proof (utf8_encode_all_length cs). lia.
Qed.

(** The defects the validator looks for are rejected where a character
    starts. *)
Lemma utf8_validate_ill_formed_start (bytes : list Z) :
  ill_formed_start bytes -> utf8_validate (view_of bytes) = Some false.
Proof.
  intros Hbad. unfold utf8_validate.
  destruct Hbad as [b0 tl Hzero | b0 tl Hshort
                   | b0 b1 b2 tl Hb0 Hb1 Hb2 Hcode
                   | b0 b1 b2 b3 tl Hb0 Hb1 Hb2 Hb3 Hcode].
  - simpl. rewrite SuccNat2Pos.id_succ. simpl.
    unfold byte_at. simpl. rewrite Hzero. reflexivity.
  - simpl. rewrite SuccNat2Pos.id_succ. simpl.
    unfold byte_at. simpl.
    simpl in Hshort.
    destruct (Z.ltb_spec (Z.pos (Pos.of_succ_nat (length tl))) (char_size_of b0));
      [rewrite orb_true_r; reflexivity | lia].
  - set (s := view_of (b0 :: b1 :: b2 :: tl)).
    assert (Hpos : 0 < size s) by (simpl; lia).
    assert (Hfuel : Z.to_nat (size s) = S (Z.to_nat (size s) - 1)) by lia.
    rewrite Hfuel.
    rewrite (utf8_validate_loop_step _ s _ Hpos (chop3 b0 b1 b2 tl _ Hb0 Hb1 Hb2)).
    cbn [slice code rest size].
    destruct (Z.ltb_spec (size s) 3); [simpl in *; lia|].
    unfold range_ok.
    set (cc := b0 mod 16 * 4096 + b1 mod 64 * 64 + b2 mod 64) in *.
    destruct (Z.ltb_spec cc 0x0800); simpl; [reflexivity|].
    destruct (Z.gtb_spec cc 0xffff); simpl; [reflexivity|].
    destruct (Z.geb_spec cc 0xd800); simpl; [|lia].
    destruct (Z.leb_spec cc 0xdfff); simpl; [reflexivity|lia].
  - set (s := view_of (b0 :: b1 :: b2 :: b3 :: tl)).
    assert (Hpos : 0 < size s) by (simpl; lia).
    assert (Hfuel : Z.to_nat (size s) = S (Z.to_nat (size s) - 1)) by lia.
    rewrite Hfuel.
    rewrite (utf8_validate_loop_step _ s _ Hpos
               (chop4 b0 b1 b2 b3 tl _ Hb0 Hb1 Hb2 Hb3)).
    cbn [slice code rest size].
    destruct (Z.ltb_spec (size s) 4); [simpl in *; lia|].
    unfold range_ok.
    set (cc := b0 mod 8 * 262144 + b1 mod 64 * 4096 + b2 mod 64 * 64 + b3 mod 64)
      in *.
    simpl.
    destruct (Z.ltb_spec cc 0x10000); simpl; [reflexivity|].
    destruct (Z.gtb_spec cc 0x10ffff); simpl; [reflexivity|lia].
Qed.

(** So every defect of the list is caught when only well-formed characters
    come before it. *)
Lemma utf8_validate_rejects_after_prefix (cs : list Z) (tail : list Z) :
  Forall scalar_value cs -> ill_formed_start tail ->
  utf8_validate (view_of (utf8_encode_all cs ++ tail)) = Some false.
Proof.
  intros Hcs Hbad. rewrite utf8_validate_after_prefix by assumption.
  apply utf8_validate_ill_formed_start. assumption.
Qed.

End ValidateFacts.

Section ValidateClaims.
Import Utf8 Font8x8 Spec.

(** C4 on three ill-formed sequences.  [utf8_validate] never looks at the
    two top bits of the bytes that follow a leading byte, so it accepts
    - [e1 41 80]: the continuation byte [80] stands alone after the ASCII
      byte [41];
    - [c2 e1]: the leading byte [e1] of a 3-byte form is the last byte;
    - [e1 c0 80]: contains [c0 80], the overlong 2-byte form of U+0000.
    None of the three is well-formed UTF-8. *)
Theorem utf8_validate_accepts_ill_formed :
  utf8_validate (view_of [0xe1; 0x41; 0x80]) = Some true /\
  utf8_validate (view_of [0xc2; 0xe1]) = Some true /\
  utf8_validate (view_of [0xe1; 0xc0; 0x80]) = Some true /\
  ~ well_formed_utf8 [0xe1; 0x41; 0x80] /\
  ~ well_formed_utf8 [0xc2; 0xe1] /\
  ~ well_formed_utf8 [0xe1; 0xc0; 0x80].
Proof.
  split; [reflexivity|]. split; [reflexivity|]. split; [reflexivity|].
  repeat split; intros Hwf;
    apply well_formed_second_byte in Hwf; lia.
Qed.

End ValidateClaims.

(** * The legend cursor during extraction *)

Section LegendFacts.
Import Arena Utf8 Font8x8 Spec.

(** The pre-scan counts the code points that are not whitespace. *)
Lemma count_chars_Decodes (s : StringView) (chars : list (Z * list Z)) :
  Decodes s chars ->
  forall fuel count,
    (length chars <= fuel)%nat ->
    count_chars fuel s count =
      Some (count + Z.of_nat (length (filter nonspace chars))).
Proof.
  induction 1 as [s Hs | s c chars Hpos Hc Hrest IH]; intros fuel count Hfuel.
  - destruct fuel; simpl; destruct (Z.gtb_spec (size s) 0); try lia;
      f_equal; lia.
  - destruct fuel as [|fuel]; [simpl in Hfuel; lia|].
    simpl. destruct (Z.gtb_spec (size s) 0); [|lia].
    rewrite Hc, IH by (simpl in Hfuel; lia).
    unfold nonspace at 2. simpl.
    destruct (char_is_space (code c)); simpl; f_equal; lia.
Qed.

(** The [do ... while] finds the first code point that is not whitespace,
    provided there is one. *)
Lemma next_char_Decodes (s : StringView) (chars : list (Z * list Z)) :
  Decodes s chars ->
  forall fuel x r,
    filter nonspace chars = x :: r ->
    (length chars <= fuel)%nat ->
    exists c chars',
      next_char fuel s = Some c /\
      x = (code c, view_bytes (slice c)) /\
      char_is_space (code c) = false /\
      Decodes (rest c) chars' /\
      filter nonspace chars' = r.
Proof.
  induction 1 as [s Hs | s c chars Hpos Hc Hrest IH]; intros fuel x r Hf Hfuel.
  - discriminate.
  - destruct fuel as [|fuel]; [simpl in Hfuel; lia|].
    simpl. rewrite Hc. simpl in Hf. unfold nonspace at 1 in Hf. simpl in Hf.
    destruct (char_is_space (code c)) eqn:Hsp; simpl in Hf.
    + apply IH; [assumption | simpl in Hfuel; lia].
    + injection Hf as <- <-. exists c, chars. auto.
Qed.

(** Wherever the [do ... while] stops, the cursor is still inside the
    buffer. *)
Lemma next_char_tight (fuel : nat) :
  forall s c,
    tight s -> next_char fuel s = Some c ->
    tight (rest c) /\ exists skipped, data s = skipped ++ data (rest c).
Proof.
  induction fuel as [|fuel IH]; intros s c Ht Hn; [discriminate|].
  simpl in Hn. destruct (utf8_chop_char s) as [c1|] eqn:Hc; [|discriminate].
  pose proof (tight_rest s c1 Ht Hc) as Ht1.
  destruct (utf8_chop_char_some s c1 Hc) as (_ & _ & _ & _ & _ & Hd & _ & _).
  assert (Hsplit : data s = firstn (Z.to_nat (size (slice c1))) (data s)
                            ++ data (rest c1)).
  { rewrite Hd. symmetry. apply firstn_skipn. }
  destruct (char_is_space (code c1)).
  - destruct (IH _ _ Ht1 Hn) as [Ht2 [sk Hsk]]. split; [assumption|].
    exists (firstn (Z.to_nat (size (slice c1))) (data s) ++ sk).
    rewrite <- app_assoc, <- Hsk. assumption.
  - injection Hn as <-. split; [assumption|]. eauto.
Qed.

Lemma legend_inv_init (font_chars : list Z) (n : Z) (a : Arena) :
  utf8_validate (view_of font_chars) = Some true ->
  count_chars (Z.to_nat (size (view_of font_chars))) (view_of font_chars) 0
    = Some n ->
  legend_inv font_chars n (mkScan a (view_of font_chars) []).
Proof.
  intros Hv Hcount.
  destruct (utf8_validate_Decodes _ Hv) as [chars Hchars].
  pose proof (Decodes_length _ _ Hchars) as [Hlen _].
  rewrite (count_chars_Decodes _ _ Hchars) in Hcount by lia.
  injection Hcount as <-.
  split; [reflexivity|]. split; [exists []; reflexivity|].
  exists chars. split; [assumption|]. simpl. lia.
Qed.

(** A cell that asks for a legend character gets one. *)
Lemma legend_inv_next_char (font_chars : list Z) (n : Z) (st : Scan) :
  legend_inv font_chars n st ->
  Z.of_nat (length (glyphs st)) <> n ->
  exists chars c chars',
    Decodes (font_char_iter st) chars /\
    next_char (length (data (font_char_iter st))) (font_char_iter st) = Some c /\
    filter nonspace chars = (code c, view_bytes (slice c)) :: filter nonspace chars' /\
    char_is_space (code c) = false /\
    Decodes (rest c) chars' /\
    tight (rest c) /\
    (exists consumed, font_chars = consumed ++ data (rest c)).
Proof.
  intros (Ht & [consumed Hcons] & chars & Hchars & Hsum) Hne.
  destruct (filter nonspace chars) as [|x r] eqn:Hf; [simpl in Hsum; lia|].
  pose proof (Decodes_length _ _ Hchars) as [_ Hlen].
  destruct (next_char_Decodes _ _ Hchars _ x r Hf Hlen)
    as (c & chars' & Hnext & -> & Hsp & Hrest & Hr).
  destruct (next_char_tight _ _ _ Ht Hnext) as [Ht' [sk Hsk]].
  exists chars, c, chars'. rewrite Hf, Hr.
  repeat split; try assumption.
  exists (consumed ++ sk). rewrite <- app_assoc, <- Hsk. assumption.
Qed.

Lemma scan_cell_legend_inv (font : Font) (font_chars : list Z) (n gy gx : Z)
    (st st' : Scan) :
  legend_inv font_chars n st ->
  scan_cell font n gy gx st = Next st' ->
  legend_inv font_chars n st'.
Proof.
  intros Hinv. unfold scan_cell.
  destruct (glyph_is_empty font (gy * width font + gx)) as [[|]|];
    [intros Heq; injection Heq as <-; assumption | | discriminate].
  destruct (Z.eqb_spec (Z.of_nat (length (glyphs st))) n) as [|Hne];
    [discriminate|].
  destruct (legend_inv_next_char _ _ _ Hinv Hne)
    as (chars & c & chars' & Hchars & Hnext & Hf & Hsp & Hrest & Ht & Hcons).
  rewrite Hnext.
  destruct (arena_alloc_aligned (arena st) (size (slice c) + 1) 1) as [|p1 a1];
    [discriminate|].
  destruct (arena_alloc_aligned a1 _ 4) as [|p2 a2]; [discriminate|].
  destruct (glyph_bitmap font (gy * width font + gx)); [|discriminate].
  intros Heq. injection Heq as <-.
  split; [assumption|]. split; [assumption|].
  exists chars'. split; [assumption|]. simpl.
  destruct Hinv as (_ & _ & chars0 & Hchars0 & Hsum).
  rewrite (Decodes_functional _ _ _ Hchars0 Hchars), Hf in Hsum.
  rewrite length_app. simpl in *. lia.
Qed.

Lemma scan_cells_legend_inv (font : Font) (font_chars : list Z) (n : Z)
    (cells : list (Z * Z)) :
  forall st st',
    legend_inv font_chars n st ->
    scan_cells font n cells st = Next st' ->
    legend_inv font_chars n st'.
Proof.
  unfold scan_cells.
  induction cells as [|[gy gx] cells IH]; intros st st' Hinv Hrun; simpl in Hrun.
  - injection Hrun as <-. assumption.
  - destruct (scan_cell font n gy gx st) as [st1|] eqn:Hstep; [|discriminate].
    eapply IH; [|exact Hrun].
    eapply scan_cell_legend_inv; eassumption.
Qed.

End LegendFacts.

(** * The two passes over the pixels of a cell *)

Section PixelFacts.
Import Arena Utf8 Font8x8 Spec.

Variable font : Font.

(** ** One row *)

(** Whatever [empty_row] answers is the flag and-ed with "no ink among the
    colours it was to read". *)
Lemma empty_row_sound (line_start : Z) (fuel : nat) :
  forall glyph_x flag b,
    glyph_x + Z.of_nat fuel <= GLYPH_WIDTH ->
    empty_row font line_start fuel glyph_x flag = Some b ->
    b = flag && negb (existsb is_ink
                        (map (read_color font line_start) (zrange glyph_x fuel))).
Proof.
  induction fuel as [|fuel IH]; intros x flag b Hx Hrun; simpl in *.
  - injection Hrun as <-. symmetry. apply andb_true_r.
  - destruct flag; simpl in Hrun; [|injection Hrun as <-; reflexivity].
    destruct (Z.ltb_spec x GLYPH_WIDTH); [|lia].
    destruct (read_color font line_start x) as [color|]; [|discriminate].
    apply IH in Hrun; [|lia]. simpl.
    destruct (color =? 0); simpl in *; assumption.
Qed.

Lemma empty_row_defined (line_start : Z) (fuel : nat) :
  forall glyph_x flag,
    Forall (fun color => color <> None)
           (map (read_color font line_start) (zrange glyph_x fuel)) ->
    exists b, empty_row font line_start fuel glyph_x flag = Some b.
Proof.
  induction fuel as [|fuel IH]; intros x flag Hread; simpl in *; [eauto|].
  inversion Hread as [|color colors Hc Hcs]; subst.
  destruct (flag && (x <? GLYPH_WIDTH)); [|eauto].
  destruct (read_color font line_start x); [|contradiction].
  apply IH. assumption.
Qed.

Lemma bitmap_row_sound (line_start : Z) (fuel : nat) :
  forall glyph_x row,
    glyph_x + Z.of_nat fuel <= GLYPH_WIDTH ->
    bitmap_row font line_start fuel glyph_x = Some row ->
    row = map expand (map (read_color font line_start) (zrange glyph_x fuel)) /\
    Forall (fun color => color <> None)
           (map (read_color font line_start) (zrange glyph_x fuel)).
Proof.
  induction fuel as [|fuel IH]; intros x row Hx Hrun; simpl in *.
  - injection Hrun as <-. split; constructor.
  - destruct (Z.ltb_spec x GLYPH_WIDTH); [|lia].
    destruct (read_color font line_start x) as [color|] eqn:Hc; [|discriminate].
    destruct (bitmap_row font line_start fuel (x + 1)) as [row'|] eqn:Hrow;
      [|discriminate].
    injection Hrun as <-.
    apply IH in Hrow as [-> Hall]; [|lia].
    split; [reflexivity|]. constructor; [discriminate | assumption].
Qed.

Lemma bitmap_row_defined (line_start : Z) (fuel : nat) :
  forall glyph_x,
    Forall (fun color => color <> None)
           (map (read_color font line_start) (zrange glyph_x fuel)) ->
    exists row, bitmap_row font line_start fuel glyph_x = Some row.
Proof.
  induction fuel as [|fuel IH]; intros x Hread; simpl in *; [eauto|].
  inversion Hread as [|color colors Hc Hcs]; subst.
  destruct (x <? GLYPH_WIDTH); [|eauto].
  destruct (read_color font line_start x); [|contradiction].
  destruct (IH _ Hcs) as [row ->]. eauto.
Qed.

(** ** The eight rows *)

Lemma empty_rows_sound (fuel : nat) :
  forall line_start glyph_y flag b,
    glyph_y + Z.of_nat fuel <= GLYPH_HEIGHT ->
    empty_rows font fuel line_start glyph_y flag = Some b ->
    b = flag && negb (existsb is_ink (rows_colors font line_start fuel)).
Proof.
  induction fuel as [|fuel IH]; intros ls y flag b Hy Hrun;
    cbn [empty_rows rows_colors] in *.
  - injection Hrun as <-. symmetry. apply andb_true_r.
  - destruct flag; cbn [andb] in Hrun; [|injection Hrun as <-; reflexivity].
    destruct (Z.ltb_spec y GLYPH_HEIGHT); [|lia].
    destruct (empty_row font ls (Z.to_nat GLYPH_WIDTH) 0 true) as [e|] eqn:Hrow;
      [|discriminate].
    apply empty_row_sound in Hrow; [|unfold GLYPH_WIDTH; lia].
    apply IH in Hrun; [|lia].
    change (zrange 0 (Z.to_nat GLYPH_WIDTH)) with offsets in Hrow.
    cbn [andb] in Hrow.
    rewrite existsb_app, negb_orb, Hrun, Hrow. reflexivity.
Qed.

Lemma empty_rows_defined (fuel : nat) :
  forall line_start glyph_y flag,
    Forall (fun color => color <> None) (rows_colors font line_start fuel) ->
    exists b, empty_rows font fuel line_start glyph_y flag = Some b.
Proof.
  induction fuel as [|fuel IH]; intros ls y flag Hread;
    cbn [empty_rows rows_colors] in *; [eauto|].
  apply Forall_app in Hread as [Hrow Hrest].
  destruct (flag && (y <? GLYPH_HEIGHT)); [|eauto].
  destruct (empty_row_defined ls (Z.to_nat GLYPH_WIDTH) 0 flag Hrow) as [e ->].
  apply IH. assumption.
Qed.

Lemma bitmap_rows_sound (fuel : nat) :
  forall line_start glyph_y bm,
    glyph_y + Z.of_nat fuel <= GLYPH_HEIGHT ->
    bitmap_rows font fuel line_start glyph_y = Some bm ->
    bm = map expand (rows_colors font line_start fuel) /\
    Forall (fun color => color <> None) (rows_colors font line_start fuel).
Proof.
  induction fuel as [|fuel IH]; intros ls y bm Hy Hrun;
    cbn [bitmap_rows rows_colors] in *.
  - injection Hrun as <-. split; constructor.
  - destruct (Z.ltb_spec y GLYPH_HEIGHT); [|lia].
    destruct (bitmap_row font ls (Z.to_nat GLYPH_WIDTH) 0) as [row|] eqn:Hrow;
      [|discriminate].
    destruct (bitmap_rows font fuel _ (y + 1)) as [rows|] eqn:Hrows;
      [|discriminate].
    injection Hrun as <-.
    apply bitmap_row_sound in Hrow as [-> Hall]; [|unfold GLYPH_WIDTH; lia].
    apply IH in Hrows as [-> Hall']; [|lia].
    split; [rewrite map_app; reflexivity|].
    apply Forall_app. split; assumption.
Qed.

Lemma bitmap_rows_defined (fuel : nat) :
  forall line_start glyph_y,
    Forall (fun color => color <> None) (rows_colors font line_start fuel) ->
    exists bm, bitmap_rows font fuel line_start glyph_y = Some bm.
Proof.
  induction fuel as [|fuel IH]; intros ls y Hread;
    cbn [bitmap_rows rows_colors] in *; [eauto|].
  apply Forall_app in Hread as [Hrow Hrest].
  destruct (y <? GLYPH_HEIGHT); [|eauto].
  destruct (bitmap_row_defined ls (Z.to_nat GLYPH_WIDTH) 0 Hrow) as [row ->].
  destruct (IH _ (y + 1) Hrest) as [rows ->]. eauto.
Qed.

(** ** The colours read are the pixels of the cell *)

Lemma read_color_cell (gy gx y x : Z) :
  read_color font
    ((gy * width font + gx) * bytes_per_color font
     + y * (width font * bytes_per_color font)) x
  = cell_pixel font (gy, gx) y x.
Proof.
  unfold read_color, cell_pixel, pixel. simpl.
  replace ((gy * width font + gx) * bytes_per_color font
           + y * (width font * bytes_per_color font)
           + x * bytes_per_color font)
    with (((gy + y) * width font + (gx + x)) * bytes_per_color font) by ring.
  reflexivity.
Qed.

Lemma rows_colors_from (line_start : Z) (n : nat) :
  forall y,
    rows_colors font
      (line_start + y * (width font * bytes_per_color font)) n
    = flat_map
        (fun j => map (read_color font
                         (line_start + j * (width font * bytes_per_color font)))
                      offsets)
        (zrange y n).
Proof.
  induction n as [|n IH]; intros y; cbn [rows_colors zrange flat_map];
    [reflexivity|].
  f_equal.
  replace (line_start + y * (width font * bytes_per_color font)
           + width font * bytes_per_color font)
    with (line_start + (y + 1) * (width font * bytes_per_color font)) by ring.
  apply IH.
Qed.

Lemma rows_colors_cell (gy gx : Z) :
  rows_colors font ((gy * width font + gx) * bytes_per_color font)
    (Z.to_nat GLYPH_HEIGHT)
  = cell_pixels font (gy, gx).
Proof.
  pose proof (rows_colors_from
                ((gy * width font + gx) * bytes_per_color font)
                (Z.to_nat GLYPH_HEIGHT) 0) as H.
  rewrite Z.mul_0_l, Z.add_0_r in H. rewrite H.
  unfold cell_pixels. change (zrange 0 (Z.to_nat GLYPH_HEIGHT)) with offsets.
  apply flat_map_ext. intros y. apply map_ext. intros x.
  apply read_color_cell.
Qed.

(** ** The emptiness test and the expansion *)

Lemma glyph_is_empty_sound (gy gx : Z) (b : bool) :
  glyph_is_empty font (gy * width font + gx) = Some b ->
  cell_nonempty font (gy, gx) = negb b.
Proof.
  unfold glyph_is_empty. intros H.
  apply empty_rows_sound in H; [|unfold GLYPH_HEIGHT; lia].
  rewrite rows_colors_cell in H. unfold cell_nonempty.
  rewrite H. simpl. symmetry. apply negb_involutive.
Qed.

Lemma glyph_bitmap_sound (gy gx : Z) (bm : list Z) :
  glyph_bitmap font (gy * width font + gx) = Some bm ->
  bm = cell_bitmap font (gy, gx) /\ cell_readable font (gy, gx).
Proof.
  unfold glyph_bitmap. intros H.
  apply bitmap_rows_sound in H; [|unfold GLYPH_HEIGHT; lia].
  rewrite rows_colors_cell in H. exact H.
Qed.

Lemma glyph_is_empty_readable (gy gx : Z) :
  cell_readable font (gy, gx) ->
  glyph_is_empty font (gy * width font + gx)
  = Some (negb (cell_nonempty font (gy, gx))).
Proof.
  intros Hread. unfold cell_readable in Hread.
  rewrite <- rows_colors_cell in Hread.
  destruct (empty_rows_defined _ _ 0 true Hread) as [b Hb].
  unfold glyph_is_empty. rewrite Hb.
  apply glyph_is_empty_sound in Hb. rewrite Hb, negb_involutive. reflexivity.
Qed.

Lemma glyph_bitmap_readable (gy gx : Z) :
  cell_readable font (gy, gx) ->
  glyph_bitmap font (gy * width font + gx) = Some (cell_bitmap font (gy, gx)).
Proof.
  intros Hread. unfold cell_readable in Hread.
  rewrite <- rows_colors_cell in Hread.
  destruct (bitmap_rows_defined _ _ 0 Hread) as [bm Hb].
  unfold glyph_bitmap. rewrite Hb.
  apply glyph_bitmap_sound in Hb as [-> _]. reflexivity.
Qed.

End PixelFacts.

(** * The grid loops as one pass over the cells *)

Section GridFacts.
Import Arena Utf8 Font8x8 Spec.

Lemma scan_list_app {St A : Type} (body : A -> St -> Step St) (l1 l2 : list A) :
  forall s,
    scan_list body (l1 ++ l2) s =
      match scan_list body l1 s with
      | Halt o => Halt o
      | Next s' => scan_list body l2 s'
      end.
Proof.
  induction l1 as [|a l1 IH]; intros s; simpl; [reflexivity|].
  destruct (body a s); [apply IH | reflexivity].
Qed.

Lemma scan_list_ext {St A : Type} (f g : A -> St -> Step St) (l : list A) :
  (forall a s, f a s = g a s) ->
  forall s, scan_list f l s = scan_list g l s.
Proof.
  intros Hfg. induction l as [|a l IH]; intros s; simpl; [reflexivity|].
  rewrite Hfg. destruct (g a s); [apply IH | reflexivity].
Qed.

Lemma scan_list_map {St A B : Type} (body : B -> St -> Step St) (g : A -> B)
    (l : list A) :
  forall s, scan_list body (map g l) s = scan_list (fun a => body (g a)) l s.
Proof.
  induction l as [|a l IH]; intros s; simpl; [reflexivity|].
  destruct (body (g a) s); [apply IH | reflexivity].
Qed.

(** A counting loop with step 8 visits 0, 8, 16, ... *)
Lemma for_loop_from {St : Type} (body : Z -> St -> Step St) (n : nat) :
  forall (k fuel : nat) (s : St),
    (n <= fuel)%nat ->
    for_loop fuel (8 * Z.of_nat k) (8 * Z.of_nat (k + n)) 8 body s =
      scan_list body (map (fun j => 8 * Z.of_nat j) (seq k n)) s.
Proof.
  induction n as [|n IH]; intros k fuel s Hfuel.
  - rewrite Nat.add_0_r.
    destruct fuel; simpl; [reflexivity|].
    rewrite Z.ltb_irrefl. reflexivity.
  - destruct fuel as [|fuel]; [lia|].
    cbn [for_loop seq map scan_list].
    destruct (Z.ltb_spec (8 * Z.of_nat k) (8 * Z.of_nat (k + S n))); [|lia].
    destruct (body (8 * Z.of_nat k) s) as [s'|]; [|reflexivity].
    replace (8 * Z.of_nat k + 8) with (8 * Z.of_nat (S k)) by lia.
    replace (k + S n)%nat with (S k + n)%nat by lia.
    apply IH. lia.
Qed.

Lemma for_loop_grid {St : Type} (body : Z -> St -> Step St) (limit : Z) (s : St) :
  Z.rem limit 8 = 0 ->
  for_loop (Z.to_nat limit) 0 limit 8 body s =
    scan_list body
      (map (fun j => 8 * Z.of_nat j) (seq 0 (Z.to_nat (limit / 8)))) s.
Proof.
  intros Hrem.
  destruct (Z.le_gt_cases limit 0) as [Hle|Hpos].
  - assert (Z.to_nat (limit / 8) = 0%nat) as ->.
    { assert (limit / 8 <= 0) by (apply Z.div_le_upper_bound; lia). lia. }
    destruct (Z.to_nat limit); simpl; [reflexivity|].
    destruct (Z.ltb_spec 0 limit); [lia | reflexivity].
  - rewrite Z.rem_mod_nonneg in Hrem by lia.
    assert (Hlimit : limit = 8 * Z.of_nat (0 + Z.to_nat (limit / 8))).
    { rewrite Nat.add_0_l, Z2Nat.id by (apply Z.div_pos; lia).
      pose proof (Z.div_mod limit 8). lia. }
    rewrite Hlimit at 2.
    change 0 with (8 * Z.of_nat 0) at 1.
    apply for_loop_from.
    assert (limit / 8 <= limit) by (apply Z.div_le_upper_bound; lia). lia.
Qed.

Lemma scan_rows {St : Type} (body : Z -> Z -> St -> Step St) (g : nat -> Z)
    (cols rows : list nat) :
  forall s,
    scan_list (fun gy => scan_list (body gy) (map g cols)) (map g rows) s =
      scan_list (fun cell => body (fst cell) (snd cell))
        (flat_map (fun r => map (fun c => (g r, g c)) cols) rows) s.
Proof.
  induction rows as [|r rows IH]; intros s; simpl; [reflexivity|].
  rewrite scan_list_app.
  rewrite (scan_list_map (body (g r)) g cols).
  rewrite (scan_list_map (fun cell => body (fst cell) (snd cell))
             (fun c => (g r, g c)) cols).
  simpl.
  destruct (scan_list (fun a => body (g r) (g a)) cols s); [apply IH | reflexivity].
Qed.

(** With both dimensions multiples of 8, the two nested loops of [main]
    visit the cells in row-major order. *)
Lemma scan_grid_cells (font : Font) (n : Z) (st : Scan) :
  Z.rem (width font) GLYPH_WIDTH = 0 ->
  Z.rem (height font) GLYPH_HEIGHT = 0 ->
  scan_grid font n st = scan_cells font n (grid_cells font) st.
Proof.
  unfold GLYPH_WIDTH, GLYPH_HEIGHT. intros Hw Hh.
  unfold scan_grid, scan_cells, grid_cells, GLYPH_WIDTH, GLYPH_HEIGHT.
  rewrite for_loop_grid by assumption.
  rewrite (scan_list_ext _
             (fun gy => scan_list (scan_cell font n gy)
                          (map (fun j => 8 * Z.of_nat j)
                               (seq 0 (Z.to_nat (width font / 8))))))
    by (intros gy s; apply for_loop_grid; assumption).
  apply (scan_rows (scan_cell font n) (fun j => 8 * Z.of_nat j)).
Qed.

(** In a well-formed font every cell of the grid lies inside the pixel
    buffer. *)
Lemma font_wf_readable (font : Font) (cell : Z * Z) :
  font_wf font -> In cell (grid_cells font) -> cell_readable font cell.
Proof.
  unfold font_wf, GLYPH_WIDTH, GLYPH_HEIGHT.
  intros (Hw & Hh & Hwm & Hhm & Hbpc & Hlen) Hin.
  unfold grid_cells, GLYPH_WIDTH, GLYPH_HEIGHT in Hin.
  apply in_flat_map in Hin as (r & Hr & Hin).
  apply in_map_iff in Hin as (c & <- & Hc).
  apply in_seq in Hr. apply in_seq in Hc.
  assert (Hrow : 8 * Z.of_nat r + 8 <= height font).
  { pose proof (Z.div_mod (height font) 8).
    assert (Z.of_nat r < height font / 8) by lia. lia. }
  assert (Hcol : 8 * Z.of_nat c + 8 <= width font).
  { pose proof (Z.div_mod (width font) 8).
    assert (Z.of_nat c < width font / 8) by lia. lia. }
  unfold cell_readable, cell_pixels. apply Forall_forall. intros p Hp.
  apply in_flat_map in Hp as (y & Hy & Hp).
  apply in_map_iff in Hp as (x & <- & Hx).
  assert (Hy8 : 0 <= y < 8) by (unfold offsets in Hy; simpl in Hy; lia).
  assert (Hx8 : 0 <= x < 8) by (unfold offsets in Hx; simpl in Hx; lia).
  unfold cell_pixel, pixel. cbn [fst snd].
  set (py := 8 * Z.of_nat r + y). set (px := 8 * Z.of_nat c + x).
  assert (Hpy : 0 <= py <= height font - 1) by (unfold py; lia).
  assert (Hpx : 0 <= px <= width font - 1) by (unfold px; lia).
  assert (Hpix : 0 <= py * width font + px <= width font * height font - 1) by nia.
  assert (Hidx : 0 <= (py * width font + px) * bytes_per_color font
                 < width font * height font * bytes_per_color font) by nia.
  destruct (Z.ltb_spec ((py * width font + px) * bytes_per_color font) 0); [lia|].
  apply nth_error_Some. lia.
Qed.

End GridFacts.

(** * Running the extraction *)

Section ScanFacts.
Import Arena Utf8 Font8x8 Spec.

(** A request that fits even with the worst padding is served. *)
Lemma arena_alloc_aligned_room (a : Arena) (size alignment : Z) :
  valid_alignment alignment = true -> alignment < 2 ^ 63 ->
  0 <= size -> size + (alignment - 1) <= remaining a ->
  exists ptr a',
    arena_alloc_aligned a size alignment = Ret ptr a' /\
    remaining a - size - (alignment - 1) <= remaining a'.
Proof.
  intros Hv Hal Hsize Hroom.
  pose proof (arena_padding_bounds a alignment Hv Hal) as [Hp _].
  destruct (Z.eq_dec size 0) as [->|Hnz].
  - exists NULL, a. unfold arena_alloc_aligned. rewrite Hv. simpl.
    split; [reflexivity | lia].
  - unfold remaining in *.
    rewrite arena_alloc_aligned_fits by (assumption || lia).
    eexists _, _. split; [reflexivity|]. simpl. lia.
Qed.

Lemma next_char_slice (fuel : nat) :
  forall s c, next_char fuel s = Some c -> 1 <= size (slice c) <= 4.
Proof.
  induction fuel as [|fuel IH]; intros s c Hn; [discriminate|].
  simpl in Hn. destruct (utf8_chop_char s) as [c1|] eqn:Hc; [|discriminate].
  destruct (char_is_space (code c1)); [eapply IH; eassumption|].
  injection Hn as <-.
  destruct (utf8_chop_char_some s c1 Hc) as (_ & _ & _ & Hr & _). assumption.
Qed.

(** The three things a readable cell can do to the scan. *)
Lemma scan_cell_empty (font : Font) (n gy gx : Z) (st : Scan) :
  cell_readable font (gy, gx) -> cell_nonempty font (gy, gx) = false ->
  scan_cell font n gy gx st = Next st.
Proof.
  intros Hcell Hne. unfold scan_cell.
  rewrite (glyph_is_empty_readable font gy gx Hcell), Hne. reflexivity.
Qed.

Lemma scan_cell_full (font : Font) (n gy gx : Z) (st : Scan) :
  cell_readable font (gy, gx) -> cell_nonempty font (gy, gx) = true ->
  Z.of_nat (length (glyphs st)) = n ->
  scan_cell font n gy gx st = Halt (Failed MoreGlyphsThanChars).
Proof.
  intros Hcell Hne Hfull. unfold scan_cell.
  rewrite (glyph_is_empty_readable font gy gx Hcell), Hne. cbn [negb].
  destruct (Z.eqb_spec (Z.of_nat (length (glyphs st))) n); [reflexivity|lia].
Qed.

Lemma scan_cell_paired (font : Font) (n gy gx : Z) (st : Scan)
    (chars : list (Z * list Z)) (x : Z * list Z) (r : list (Z * list Z)) :
  cell_readable font (gy, gx) -> cell_nonempty font (gy, gx) = true ->
  Decodes (font_char_iter st) chars ->
  filter nonspace chars = x :: r ->
  Z.of_nat (length (glyphs st)) <> n ->
  264 <= remaining (arena st) ->
  exists st1 chars',
    scan_cell font n gy gx st = Next st1 /\
    glyphs st1 = glyphs st ++ [glyph_of font x (gy, gx)] /\
    Decodes (font_char_iter st1) chars' /\
    filter nonspace chars' = r /\
    remaining (arena st) - 264 <= remaining (arena st1).
Proof.
  intros Hcell Hne Hchars Hf Hnotfull Hroom. unfold scan_cell.
  rewrite (glyph_is_empty_readable font gy gx Hcell), Hne. cbn [negb].
  destruct (Z.eqb_spec (Z.of_nat (length (glyphs st))) n); [contradiction|].
  pose proof (Decodes_length _ _ Hchars) as [_ Hlen].
  destruct (next_char_Decodes _ _ Hchars _ x r Hf Hlen)
    as (c & chars' & Hnext & -> & Hsp & Hrest & Hr).
  rewrite Hnext.
  pose proof (next_char_slice _ _ _ Hnext) as Hslice.
  destruct (arena_alloc_aligned_room (arena st) (size (slice c) + 1) 1)
    as (p1 & a1 & -> & Hroom1); try reflexivity; try lia.
  change (GLYPH_WIDTH * GLYPH_HEIGHT * sizeof_u32) with 256.
  destruct (arena_alloc_aligned_room a1 256 4)
    as (p2 & a2 & -> & Hroom2); try reflexivity; try lia.
  rewrite (glyph_bitmap_readable font gy gx Hcell).
  eexists _, chars'. split; [reflexivity|]. cbn [glyphs font_char_iter arena].
  repeat split; try assumption. lia.
Qed.

(** The pass over a list of readable cells, with enough room in the arena:
    it pairs the non-empty cells with the legend characters in order, and
    stops as soon as a non-empty cell finds the output array full. *)
Lemma scan_cells_run (font : Font) (n : Z) (cells : list (Z * Z)) :
  forall st chars,
    Forall (cell_readable font) cells ->
    Decodes (font_char_iter st) chars ->
    Z.of_nat (length (glyphs st))
    + Z.of_nat (length (filter nonspace chars)) = n ->
    264 * Z.of_nat (length (filter nonspace chars)) <= remaining (arena st) ->
    ((length (filter (cell_nonempty font) cells)
      <= length (filter nonspace chars))%nat ->
     exists st',
       scan_cells font n cells st = Next st' /\
       glyphs st' = glyphs st ++
         paired_glyphs font (filter nonspace chars)
           (filter (cell_nonempty font) cells)) /\
    ((length (filter nonspace chars)
      < length (filter (cell_nonempty font) cells))%nat ->
     scan_cells font n cells st = Halt (Failed MoreGlyphsThanChars)).
Proof.
  unfold scan_cells.
  induction cells as [|[gy gx] cells IH];
    intros st chars Hread Hchars Hsum Hroom.
  { split; [|simpl; lia]. intros _. exists st. split; [reflexivity|].
    unfold paired_glyphs. rewrite combine_nil. simpl.
    symmetry. apply app_nil_r. }
  pose proof (Forall_inv Hread) as Hcell.
  pose proof (Forall_inv_tail Hread) as Hcells.
  cbn [scan_list fst snd filter].
  destruct (cell_nonempty font (gy, gx)) eqn:Hne.
  2:{ rewrite (scan_cell_empty font n gy gx st Hcell Hne).
      apply IH; assumption. }
  destruct (filter nonspace chars) as [|x r] eqn:Hf.
  { split; [simpl; lia|]. intros _.
    rewrite (scan_cell_full font n gy gx st Hcell Hne); [reflexivity|].
    simpl in Hsum. lia. }
  cbn [length] in Hroom, Hsum.
  destruct (scan_cell_paired font n gy gx st chars x r Hcell Hne Hchars Hf)
    as (st1 & chars' & -> & Hgl1 & Hrest & Hr & Hroom1); try lia.
  destruct (IH st1 chars' Hcells Hrest) as [IHle IHgt].
  { rewrite Hgl1, length_app, Hr. cbn [length]. lia. }
  { rewrite Hr. lia. }
  rewrite Hr in IHle, IHgt.
  split.
  - intros Hle. cbn [length] in Hle.
    destruct IHle as (st' & Hrun & Hgl); [lia|].
    exists st'. split; [assumption|].
    rewrite Hgl, Hgl1, <- app_assoc. reflexivity.
  - intros Hgt. cbn [length] in Hgt. apply IHgt. lia.
Qed.

Lemma paired_glyphs_length (font : Font) (chars : list (Z * list Z))
    (cells : list (Z * Z)) :
  length (paired_glyphs font chars cells) = Nat.min (length chars) (length cells).
Proof. unfold paired_glyphs. rewrite length_map. apply length_combine. Qed.

Lemma font_wf_rem (font : Font) :
  font_wf font ->
  Z.rem (width font) GLYPH_WIDTH = 0 /\ Z.rem (height font) GLYPH_HEIGHT = 0.
Proof.
  intros (Hw & Hh & Hwm & Hhm & _).
  split; rewrite Z.rem_mod_nonneg; unfold GLYPH_WIDTH, GLYPH_HEIGHT in *; lia.
Qed.

(** [main] on a validated legend, a well-formed font and an arena with
    room, up to the grid loops. *)
Lemma main_run (a : Arena) (font_chars : list Z) (font : Font)
    (chars : list (Z * list Z)) :
  utf8_validate (view_of font_chars) = Some true ->
  Decodes (view_of font_chars) chars ->
  font_wf font ->
  arena_fits a (Z.of_nat (length (filter nonspace chars))) ->
  exists ptr a1,
    arena_alloc a (Z.of_nat (length (filter nonspace chars)) * sizeof_Glyph)
      = Ret ptr a1 /\
    264 * Z.of_nat (length (filter nonspace chars)) <= remaining a1 /\
    main a font_chars font =
      match scan_cells font (Z.of_nat (length (filter nonspace chars)))
              (grid_cells font) (mkScan a1 (view_of font_chars) []) with
      | Halt o => o
      | Next st =>
          if negb (Z.of_nat (length (glyphs st))
                   =? Z.of_nat (length (filter nonspace chars)))
          then Failed MoreCharsThanGlyphs
          else Printed (glyphs st)
      end.
Proof.
  intros Hv Hchars Hwf Hfits.
  pose proof (Decodes_length _ _ Hchars) as [Hlen _].
  assert (Hcount :
            count_chars (Z.to_nat (size (view_of font_chars)))
              (view_of font_chars) 0
            = Some (Z.of_nat (length (filter nonspace chars)))).
  { rewrite (count_chars_Decodes _ _ Hchars) by lia. f_equal. }
  set (n := Z.of_nat (length (filter nonspace chars))) in *.
  unfold arena_fits in Hfits.
  destruct (arena_alloc_aligned_room a (n * sizeof_Glyph) ARENA_DEFAULT_ALIGNMENT)
    as (p & a1 & Halloc & Hroom);
    try reflexivity; unfold sizeof_Glyph, ARENA_DEFAULT_ALIGNMENT in *; try lia.
  exists p, a1.
  split; [exact Halloc|]. split; [lia|].
  destruct (font_wf_rem font Hwf) as [Hwr Hhr].
  unfold main. fold (view_of font_chars).
  rewrite Hv, Hcount, Hwr, Hhr. cbn [Z.eqb negb orb].
  unfold arena_alloc, sizeof_Glyph, ARENA_DEFAULT_ALIGNMENT. rewrite Halloc.
  rewrite scan_grid_cells by assumption. reflexivity.
Qed.

Lemma main_outcomes (a : Arena) (font_chars : list Z) (font : Font)
    (chars : list (Z * list Z)) :
  utf8_validate (view_of font_chars) = Some true ->
  Decodes (view_of font_chars) chars ->
  font_wf font ->
  arena_fits a (Z.of_nat (length (filter nonspace chars))) ->
  (length (nonempty_cells font) = length (filter nonspace chars) ->
   main a font_chars font =
     Printed (paired_glyphs font (filter nonspace chars) (nonempty_cells font))) /\
  ((length (filter nonspace chars) < length (nonempty_cells font))%nat ->
   main a font_chars font = Failed MoreGlyphsThanChars) /\
  ((length (nonempty_cells font) < length (filter nonspace chars))%nat ->
   main a font_chars font = Failed MoreCharsThanGlyphs).
Proof.
  intros Hv Hchars Hwf Hfits.
  destruct (main_run a font_chars font chars Hv Hchars Hwf Hfits)
    as (ptr & a1 & _ & Hroom & ->).
  assert (Hread : Forall (cell_readable font) (grid_cells font)).
  { apply Forall_forall. intros cell. apply font_wf_readable. assumption. }
  destruct (scan_cells_run font (Z.of_nat (length (filter nonspace chars)))
              (grid_cells font) (mkScan a1 (view_of font_chars) []) chars
              Hread Hchars ltac:(simpl; lia) Hroom) as [Hle Hgt].
  fold (nonempty_cells font) in Hle, Hgt.
  repeat split.
  - intros Heq. destruct Hle as (st & -> & Hgl); [lia|].
    simpl in Hgl. rewrite Hgl, paired_glyphs_length.
    destruct (Z.eqb_spec
                (Z.of_nat (Nat.min (length (filter nonspace chars))
                             (length (nonempty_cells font))))
                (Z.of_nat (length (filter nonspace chars)))); [reflexivity|lia].
  - intros Hlt. rewrite Hgt by assumption. reflexivity.
  - intros Hlt. destruct Hle as (st & -> & Hgl); [lia|].
    simpl in Hgl. rewrite Hgl, paired_glyphs_length.
    destruct (Z.eqb_spec
                (Z.of_nat (Nat.min (length (filter nonspace chars))
                             (length (nonempty_cells font))))
                (Z.of_nat (length (filter nonspace chars)))); [lia|reflexivity].
Qed.

End ScanFacts.

(** * What a finished scan has written *)

Section SoundFacts.
Import Arena Utf8 Font8x8 Spec.

Lemma cell_pixels_nth (font : Font) (cell : Z * Z) (y x : Z) :
  0 <= y < GLYPH_HEIGHT -> 0 <= x < GLYPH_WIDTH ->
  nth_error (cell_pixels font cell) (Z.to_nat (y * GLYPH_WIDTH + x))
  = Some (cell_pixel font cell y x).
Proof.
  unfold GLYPH_HEIGHT, GLYPH_WIDTH. intros Hy Hx.
  assert (Hy8 : y = 0 \/ y = 1 \/ y = 2 \/ y = 3 \/ y = 4 \/ y = 5 \/ y = 6 \/ y = 7)
    by lia.
  assert (Hx8 : x = 0 \/ x = 1 \/ x = 2 \/ x = 3 \/ x = 4 \/ x = 5 \/ x = 6 \/ x = 7)
    by lia.
  destruct Hy8 as [-> | [-> | [-> | [-> | [-> | [-> | [-> | ->]]]]]]];
    destruct Hx8 as [-> | [-> | [-> | [-> | [-> | [-> | [-> | ->]]]]]]];
    reflexivity.
Qed.

Lemma cell_pixels_length (font : Font) (cell : Z * Z) :
  length (cell_pixels font cell) = 64%nat.
Proof. reflexivity. Qed.

(** The expansion of a readable, non-empty cell is the colour-keyed image
    of its pixels and has ink. *)
Lemma cell_bitmap_of_cell (font : Font) (g : Glyph) (cell : Z * Z) :
  bitmap g = cell_bitmap font cell ->
  cell_readable font cell ->
  cell_nonempty font cell = true ->
  bitmap_of_cell font g cell.
Proof.
  intros Hbm Hread Hne. unfold bitmap_of_cell. rewrite Hbm.
  split; [|split].
  - intros y x Hy Hx.
    pose proof (cell_pixels_nth font cell y x Hy Hx) as Hnth.
    destruct (cell_pixel font cell y x) as [color|] eqn:Hpix.
    + exists color. split; [reflexivity|].
      unfold cell_bitmap.
      apply nth_error_nth. rewrite nth_error_map, Hnth. reflexivity.
    + apply nth_error_In in Hnth.
      unfold cell_readable in Hread. rewrite Forall_forall in Hread.
      apply Hread in Hnth. contradiction.
  - unfold cell_bitmap. rewrite length_map. apply cell_pixels_length.
  - unfold cell_nonempty in Hne. apply existsb_exists in Hne as (p & Hp & Hink).
    unfold cell_bitmap.
    replace 0xff000000 with (expand p) by (unfold expand; rewrite Hink; reflexivity).
    apply in_map. assumption.
Qed.

(** One cell of a scan that goes on: either the cell was empty and nothing
    changed, or one record was appended whose bitmap is the image of the
    cell. *)
Lemma scan_cell_sound (font : Font) (n gy gx : Z) (st st' : Scan) :
  scan_cell font n gy gx st = Next st' ->
  (cell_nonempty font (gy, gx) = false /\ st' = st) \/
  (cell_nonempty font (gy, gx) = true /\
   exists g, glyphs st' = glyphs st ++ [g] /\ bitmap_of_cell font g (gy, gx)).
Proof.
  unfold scan_cell.
  destruct (glyph_is_empty font (gy * width font + gx)) as [[|]|] eqn:Hempty;
    [| |discriminate].
  - apply glyph_is_empty_sound in Hempty.
    intros Heq. injection Heq as <-. left. auto.
  - apply glyph_is_empty_sound in Hempty. cbn [negb] in Hempty.
    destruct (Z.of_nat (length (glyphs st)) =? n); [discriminate|].
    destruct (next_char _ (font_char_iter st)) as [c|]; [|discriminate].
    destruct (arena_alloc_aligned (arena st) (size (slice c) + 1) 1) as [|p1 a1];
      [discriminate|].
    destruct (arena_alloc_aligned a1 _ 4) as [|p2 a2]; [discriminate|].
    destruct (glyph_bitmap font (gy * width font + gx)) as [bm|] eqn:Hbm;
      [|discriminate].
    apply glyph_bitmap_sound in Hbm as [-> Hread].
    intros Heq. injection Heq as <-. right. split; [assumption|].
    eexists. split; [reflexivity|].
    apply cell_bitmap_of_cell; [reflexivity | assumption | assumption].
Qed.

Lemma scan_cells_sound (font : Font) (n : Z) (cells : list (Z * Z)) :
  forall st st',
    scan_cells font n cells st = Next st' ->
    exists new,
      glyphs st' = glyphs st ++ new /\
      Forall2 (bitmap_of_cell font) new (filter (cell_nonempty font) cells).
Proof.
  unfold scan_cells.
  induction cells as [|[gy gx] cells IH]; intros st st' Hrun;
    cbn [scan_list fst snd filter] in *.
  - injection Hrun as <-. exists []. split; [symmetry; apply app_nil_r|constructor].
  - destruct (scan_cell font n gy gx st) as [st1|] eqn:Hstep; [|discriminate].
    destruct (IH _ _ Hrun) as (new & Hgl & Hall).
    destruct (scan_cell_sound _ _ _ _ _ _ Hstep)
      as [[-> ->] | (-> & g & Hg & Hmatch)].
    + exists new. auto.
    + exists (g :: new). split.
      * rewrite Hgl, Hg, <- app_assoc. reflexivity.
      * constructor; assumption.
Qed.

(** The grid loops never leave [main] through [glyphs_print]. *)
Lemma scan_cell_halt (font : Font) (n gy gx : Z) (st : Scan) (o : Outcome) :
  scan_cell font n gy gx st = Halt o -> dump o = None.
Proof.
  unfold scan_cell.
  destruct (glyph_is_empty font (gy * width font + gx)) as [[|]|];
    [discriminate | | intros Heq; injection Heq as <-; reflexivity].
  destruct (Z.of_nat (length (glyphs st)) =? n);
    [intros Heq; injection Heq as <-; reflexivity|].
  destruct (next_char _ (font_char_iter st)) as [c|];
    [|intros Heq; injection Heq as <-; reflexivity].
  destruct (arena_alloc_aligned (arena st) (size (slice c) + 1) 1) as [|p1 a1];
    [intros Heq; injection Heq as <-; reflexivity|].
  destruct (arena_alloc_aligned a1 _ 4) as [|p2 a2];
    [intros Heq; injection Heq as <-; reflexivity|].
  destruct (glyph_bitmap font (gy * width font + gx)) as [bm|];
    [discriminate | intros Heq; injection Heq as <-; reflexivity].
Qed.

Lemma scan_cells_halt (font : Font) (n : Z) (cells : list (Z * Z)) :
  forall st o, scan_cells font n cells st = Halt o -> dump o = None.
Proof.
  unfold scan_cells.
  induction cells as [|[gy gx] cells IH]; intros st o Hrun;
    cbn [scan_list fst snd] in Hrun; [discriminate|].
  destruct (scan_cell font n gy gx st) as [st1|o1] eqn:Hstep.
  - eapply IH; eassumption.
  - injection Hrun as <-. eapply scan_cell_halt; eassumption.
Qed.

(** When [main] prints, what it prints is what the grid scan wrote. *)
Lemma main_printed (a : Arena) (font_chars : list Z) (font : Font)
    (gl : list Glyph) :
  main a font_chars font = Printed gl ->
  exists n a1 st,
    scan_cells font n (grid_cells font) (mkScan a1 (view_of font_chars) [])
      = Next st /\
    glyphs st = gl.
Proof.
  unfold main. fold (view_of font_chars).
  destruct (utf8_validate (view_of font_chars)) as [[|]|]; try discriminate.
  destruct (count_chars _ (view_of font_chars) 0) as [n|]; [|discriminate].
  destruct (Z.eqb_spec (Z.rem (width font) GLYPH_WIDTH) 0) as [Hw|];
    [|discriminate].
  destruct (Z.eqb_spec (Z.rem (height font) GLYPH_HEIGHT) 0) as [Hh|];
    [|discriminate].
  cbn [negb orb].
  destruct (arena_alloc a (n * sizeof_Glyph)) as [|p a1]; [discriminate|].
  rewrite scan_grid_cells by assumption.
  destruct (scan_cells font n (grid_cells font) _) as [st|] eqn:Hrun.
  - destruct (negb (Z.of_nat (length (glyphs st)) =? n)); [discriminate|].
    intros Heq. injection Heq as <-. exists n, a1, st. auto.
  - apply scan_cells_halt in Hrun. intros Heq. rewrite Heq in Hrun.
    discriminate.
Qed.

Lemma filter_split_at {A : Type} (f : A -> bool) (l : list A) :
  forall k,
    (k < length (filter f l))%nat ->
    exists pre x post,
      l = pre ++ x :: post /\ length (filter f pre) = k /\ f x = true.
Proof.
  induction l as [|a l IH]; intros k Hk; simpl in Hk; [lia|].
  destruct (f a) eqn:Hfa.
  - destruct k as [|k].
    + exists [], a, l. auto.
    + simpl in Hk. destruct (IH k ltac:(lia)) as (pre & x & post & -> & Hlen & Hx).
      exists (a :: pre), x, post. simpl. rewrite Hfa. simpl. auto.
  - destruct (IH k Hk) as (pre & x & post & -> & Hlen & Hx).
    exists (a :: pre), x, post. simpl. rewrite Hfa. auto.
Qed.

Lemma nth_error_paired (font : Font) (chars : list (Z * list Z)) :
  forall cells i x cell,
    nth_error chars i = Some x ->
    nth_error cells i = Some cell ->
    nth_error (paired_glyphs font chars cells) i = Some (glyph_of font x cell).
Proof.
  unfold paired_glyphs.
  induction chars as [|ch chars IH]; intros cells i x cell Hx Hcell.
  - destruct i; discriminate.
  - destruct cells as [|c0 cells]; [destruct i; discriminate|].
    destruct i as [|i]; simpl in *.
    + injection Hx as <-. injection Hcell as <-. reflexivity.
    + apply IH; assumption.
Qed.

Lemma filter_nonspace_encoded (cs : list Z) :
  filter nonspace (map (fun c => (c, utf8_encode c)) cs)
  = map (fun c => (c, utf8_encode c))
        (filter (fun c => negb (char_is_space c)) cs).
Proof.
  induction cs as [|c cs IH]; simpl; [reflexivity|].
  unfold nonspace at 1. simpl.
  destruct (char_is_space c); simpl; rewrite IH; reflexivity.
Qed.

End SoundFacts.

(** * Ways out of [main] *)

Section OutcomeFacts.
Import Arena Utf8 Font8x8 Spec.

(** [main] has no undefined behaviour on a well-formed pixel buffer,
    whatever the legend: it prints, returns 1, or aborts on arena
    overflow. *)
Lemma scan_cell_defined (font : Font) (font_chars : list Z) (n gy gx : Z)
    (st : Scan) :
  cell_readable font (gy, gx) -> legend_inv font_chars n st ->
  scan_cell font n gy gx st <> Halt Undefined.
Proof.
  intros Hcell Hinv. unfold scan_cell.
  rewrite (glyph_is_empty_readable font gy gx Hcell).
  destruct (cell_nonempty font (gy, gx)); cbn [negb]; [|discriminate].
  destruct (Z.eqb_spec (Z.of_nat (length (glyphs st))) n) as [|Hne];
    [discriminate|].
  destruct (legend_inv_next_char _ _ _ Hinv Hne)
    as (chars & c & chars' & _ & Hnext & _).
  rewrite Hnext.
  destruct (arena_alloc_aligned (arena st) (size (slice c) + 1) 1) as [|p1 a1];
    [discriminate|].
  destruct (arena_alloc_aligned a1 _ 4) as [|p2 a2]; [discriminate|].
  rewrite (glyph_bitmap_readable font gy gx Hcell). discriminate.
Qed.

Lemma scan_cells_defined (font : Font) (font_chars : list Z) (n : Z)
    (cells : list (Z * Z)) :
  forall st,
    Forall (cell_readable font) cells -> legend_inv font_chars n st ->
    scan_cells font n cells st <> Halt Undefined.
Proof.
  induction cells as [|[gy gx] cells IH]; intros st Hread Hinv;
    unfold scan_cells in *; cbn [scan_list fst snd]; [discriminate|].
  pose proof (Forall_inv Hread) as Hcell.
  pose proof (Forall_inv_tail Hread) as Hcells.
  destruct (scan_cell font n gy gx st) as [st1|o] eqn:Hstep.
  - apply IH; [assumption|].
    eapply scan_cell_legend_inv; eassumption.
  - intros Heq. injection Heq as ->.
    exact (scan_cell_defined font font_chars n gy gx st Hcell Hinv Hstep).
Qed.

Lemma main_defined (a : Arena) (font_chars : list Z) (font : Font) :
  font_wf font -> main a font_chars font <> Undefined.
Proof.
  intros Hwf. unfold main. fold (view_of font_chars).
  destruct (utf8_validate_total (view_of font_chars)) as [[|] Hv];
    [simpl; lia | | rewrite Hv; discriminate].
  rewrite Hv.
  destruct (utf8_validate_Decodes _ Hv) as [chars Hchars].
  pose proof (Decodes_length _ _ Hchars) as [Hlen _].
  pose proof (count_chars_Decodes _ _ Hchars
                (Z.to_nat (size (view_of font_chars))) 0 ltac:(lia)) as Hcount.
  rewrite Hcount.
  destruct (font_wf_rem font Hwf) as [Hwr Hhr].
  rewrite Hwr, Hhr. cbn [Z.eqb negb orb].
  destruct (arena_alloc a _) as [|p a1]; [discriminate|].
  rewrite scan_grid_cells by assumption.
  destruct (scan_cells font _ (grid_cells font) _) as [st|o] eqn:Hrun.
  - destruct (negb _); discriminate.
  - intros ->. revert Hrun.
    apply (scan_cells_defined font font_chars).
    + apply Forall_forall. intros cell. apply font_wf_readable. assumption.
    + apply legend_inv_init; assumption.
Qed.

(** What a cell that lets the scan go on has done, legend side included. *)
Lemma scan_cell_exact (font : Font) (font_chars : list Z) (n gy gx : Z)
    (st st' : Scan) (chars : list (Z * list Z)) :
  legend_inv font_chars n st ->
  Decodes (font_char_iter st) chars ->
  scan_cell font n gy gx st = Next st' ->
  (cell_nonempty font (gy, gx) = false /\ st' = st) \/
  (cell_nonempty font (gy, gx) = true /\
   exists x chars',
     filter nonspace chars = x :: filter nonspace chars' /\
     Decodes (font_char_iter st') chars' /\
     glyphs st' = glyphs st ++ [glyph_of font x (gy, gx)]).
Proof.
  intros Hinv Hchars. unfold scan_cell.
  destruct (glyph_is_empty font (gy * width font + gx)) as [[|]|] eqn:Hempty;
    [| |discriminate].
  - apply glyph_is_empty_sound in Hempty.
    intros Heq. injection Heq as <-. left. auto.
  - apply glyph_is_empty_sound in Hempty. cbn [negb] in Hempty.
    destruct (Z.eqb_spec (Z.of_nat (length (glyphs st))) n) as [|Hne];
      [discriminate|].
    destruct (legend_inv_next_char _ _ _ Hinv Hne)
      as (chars0 & c & chars' & Hchars0 & Hnext & Hf & _ & Hrest & _).
    rewrite (Decodes_functional _ _ _ Hchars0 Hchars) in Hf.
    rewrite Hnext.
    destruct (arena_alloc_aligned (arena st) (size (slice c) + 1) 1) as [|p1 a1];
      [discriminate|].
    destruct (arena_alloc_aligned a1 _ 4) as [|p2 a2]; [discriminate|].
    destruct (glyph_bitmap font (gy * width font + gx)) as [bm|] eqn:Hbm;
      [|discriminate].
    apply glyph_bitmap_sound in Hbm as [-> _].
    intros Heq. injection Heq as <-. right. split; [assumption|].
    exists (code c, view_bytes (slice c)), chars'. auto.
Qed.

Lemma scan_cells_exact (font : Font) (font_chars : list Z) (n : Z)
    (cells : list (Z * Z)) :
  forall st st' chars,
    legend_inv font_chars n st ->
    Decodes (font_char_iter st) chars ->
    scan_cells font n cells st = Next st' ->
    (length (filter (cell_nonempty font) cells)
     <= length (filter nonspace chars))%nat /\
    glyphs st' = glyphs st ++
      paired_glyphs font (filter nonspace chars)
        (filter (cell_nonempty font) cells).
Proof.
  unfold scan_cells.
  induction cells as [|[gy gx] cells IH]; intros st st' chars Hinv Hchars Hrun;
    cbn [scan_list fst snd filter] in *.
  - injection Hrun as <-. split; [simpl; lia|].
    unfold paired_glyphs. rewrite combine_nil. simpl.
    symmetry. apply app_nil_r.
  - destruct (scan_cell font n gy gx st) as [st1|] eqn:Hstep; [|discriminate].
    pose proof (scan_cell_legend_inv _ _ _ _ _ _ _ Hinv Hstep) as Hinv1.
    destruct (scan_cell_exact _ _ _ _ _ _ _ _ Hinv Hchars Hstep)
      as [[-> ->] | (-> & x & chars' & Hf & Hchars' & Hgl)].
    + apply IH; assumption.
    + destruct (IH _ _ _ Hinv1 Hchars' Hrun) as [Hlen Hgl'].
      rewrite Hf. split; [simpl; lia|].
      rewrite Hgl', Hgl, <- app_assoc. reflexivity.
Qed.

Lemma main_printed_inv (a : Arena) (font_chars : list Z) (font : Font)
    (gl : list Glyph) :
  main a font_chars font = Printed gl ->
  utf8_validate (view_of font_chars) = Some true /\
  exists n a1 st,
    count_chars (Z.to_nat (size (view_of font_chars))) (view_of font_chars) 0
      = Some n /\
    scan_cells font n (grid_cells font) (mkScan a1 (view_of font_chars) [])
      = Next st /\
    glyphs st = gl /\ Z.of_nat (length gl) = n.
Proof.
  unfold main. fold (view_of font_chars).
  destruct (utf8_validate (view_of font_chars)) as [[|]|]; try discriminate.
  destruct (count_chars _ (view_of font_chars) 0) as [n|]; [|discriminate].
  destruct (Z.eqb_spec (Z.rem (width font) GLYPH_WIDTH) 0) as [Hw|];
    [|discriminate].
  destruct (Z.eqb_spec (Z.rem (height font) GLYPH_HEIGHT) 0) as [Hh|];
    [|discriminate].
  cbn [negb orb].
  destruct (arena_alloc a (n * sizeof_Glyph)) as [|p a1]; [discriminate|].
  rewrite scan_grid_cells by assumption.
  destruct (scan_cells font n (grid_cells font) _) as [st|] eqn:Hrun.
  - destruct (Z.eqb_spec (Z.of_nat (length (glyphs st))) n) as [Hn|];
      [|discriminate].
    intros Heq. injection Heq as <-. split; [reflexivity|].
    exists n, a1, st. auto.
  - apply scan_cells_halt in Hrun. intros Heq. rewrite Heq in Hrun.
    discriminate.
Qed.

Lemma main_printed_exact (a : Arena) (font_chars : list Z) (font : Font)
    (gl : list Glyph) :
  main a font_chars font = Printed gl ->
  exists chars,
    Decodes (view_of font_chars) chars /\
    length (filter nonspace chars) = length (nonempty_cells font) /\
    gl = paired_glyphs font (filter nonspace chars) (nonempty_cells font).
Proof.
  intros Hmain.
  destruct (main_printed_inv a font_chars font gl Hmain)
    as (Hv & n & a1 & st & Hcount & Hrun & <- & Hn).
  destruct (utf8_validate_Decodes _ Hv) as [chars Hchars].
  pose proof (legend_inv_init font_chars n a1 Hv Hcount) as Hinit.
  destruct (scan_cells_exact _ _ _ _ _ _ _ Hinit Hchars Hrun) as [Hle Hgl].
  fold (nonempty_cells font) in Hle, Hgl. simpl in Hgl.
  pose proof (Decodes_length _ _ Hchars) as [Hlen _].
  rewrite (count_chars_Decodes _ _ Hchars) in Hcount by lia.
  injection Hcount as Hcount.
  exists chars. split; [assumption|]. split; [|assumption].
  rewrite Hgl, paired_glyphs_length in Hn. lia.
Qed.

(** The arena ends [main] only through its overflow [abort]: every
    alignment asked for is a power of two. *)
Lemma arena_alloc_aligned_abort (a : Arena) (size alignment : Z)
    (why : AbortReason) :
  valid_alignment alignment = true ->
  arena_alloc_aligned a size alignment = Abort why -> why = ArenaOverflow.
Proof.
  intros Hv. unfold arena_alloc_aligned. rewrite Hv. cbn [negb].
  destruct (size =? 0); [discriminate|].
  destruct (_ || _); [|discriminate].
  intros Heq. injection Heq as <-. reflexivity.
Qed.

Lemma scan_cell_abort (font : Font) (n gy gx : Z) (st : Scan)
    (why : AbortReason) :
  scan_cell font n gy gx st = Halt (ArenaAbort why) -> why = ArenaOverflow.
Proof.
  unfold scan_cell.
  destruct (glyph_is_empty font (gy * width font + gx)) as [[|]|];
    try discriminate.
  destruct (Z.of_nat (length (glyphs st)) =? n); [discriminate|].
  destruct (next_char _ (font_char_iter st)) as [c|]; [|discriminate].
  destruct (arena_alloc_aligned (arena st) (size (slice c) + 1) 1)
    as [why1|p1 a1] eqn:H1.
  { intros Heq. injection Heq as <-.
    eapply arena_alloc_aligned_abort; [|exact H1]. reflexivity. }
  destruct (arena_alloc_aligned a1 _ 4) as [why2|p2 a2] eqn:H2.
  { intros Heq. injection Heq as <-.
    eapply arena_alloc_aligned_abort; [|exact H2]. reflexivity. }
  destruct (glyph_bitmap font (gy * width font + gx)) as [bm|]; discriminate.
Qed.

Lemma scan_cells_abort (font : Font) (n : Z) (cells : list (Z * Z)) :
  forall st why,
    scan_cells font n cells st = Halt (ArenaAbort why) -> why = ArenaOverflow.
Proof.
  unfold scan_cells.
  induction cells as [|[gy gx] cells IH]; intros st why Hrun;
    cbn [scan_list fst snd] in Hrun; [discriminate|].
  destruct (scan_cell font n gy gx st) as [st1|o1] eqn:Hstep.
  - eapply IH; eassumption.
  - injection Hrun as ->. eapply scan_cell_abort; eassumption.
Qed.

Lemma main_abort (a : Arena) (font_chars : list Z) (font : Font)
    (why : AbortReason) :
  main a font_chars font = ArenaAbort why -> why = ArenaOverflow.
Proof.
  unfold main. fold (view_of font_chars).
  destruct (utf8_validate (view_of font_chars)) as [[|]|]; try discriminate.
  destruct (count_chars _ (view_of font_chars) 0) as [n|]; [|discriminate].
  destruct (Z.eqb_spec (Z.rem (width font) GLYPH_WIDTH) 0) as [Hw|];
    [|discriminate].
  destruct (Z.eqb_spec (Z.rem (height font) GLYPH_HEIGHT) 0) as [Hh|];
    [|discriminate].
  cbn [negb orb].
  destruct (arena_alloc a (n * sizeof_Glyph)) as [why1|p a1] eqn:H1.
  { intros Heq. injection Heq as <-. unfold arena_alloc in H1.
    eapply arena_alloc_aligned_abort; [|exact H1]. reflexivity. }
  rewrite scan_grid_cells by assumption.
  destruct (scan_cells font n (grid_cells font) _) as [st|o] eqn:Hrun.
  - destruct (negb (Z.of_nat (length (glyphs st)) =? n)); discriminate.
  - intros ->. eapply scan_cells_abort; eassumption.
Qed.

(** A legend with more non-whitespace code points than the arena has room
    for glyph records ends [main] in the overflow [abort], whatever the
    image holds. *)
Lemma main_aborts_without_room (a : Arena) (font_chars : list Z) (font : Font)
    (chars : list (Z * list Z)) :
  utf8_validate (view_of font_chars) = Some true ->
  Decodes (view_of font_chars) chars ->
  Z.rem (width font) GLYPH_WIDTH = 0 ->
  Z.rem (height font) GLYPH_HEIGHT = 0 ->
  0 <= remaining a ->
  remaining a < sizeof_Glyph * Z.of_nat (length (filter nonspace chars)) ->
  main a font_chars font = ArenaAbort ArenaOverflow.
Proof.
  intros Hv Hchars Hw Hh Hrem Hbig. unfold main. fold (view_of font_chars).
  rewrite Hv.
  pose proof (Decodes_length _ _ Hchars) as [Hlen _].
  rewrite (count_chars_Decodes _ _ Hchars) by lia.
  rewrite Hw, Hh. cbn [Z.eqb negb orb]. rewrite Z.add_0_l.
  unfold sizeof_Glyph in *. unfold arena_alloc.
  pose proof (arena_alloc_aligned_overflow a
                (Z.of_nat (length (filter nonspace chars)) * 24)
                ARENA_DEFAULT_ALIGNMENT
                ltac:(unfold ARENA_DEFAULT_ALIGNMENT; lia) ltac:(lia)
                ltac:(lia) Hrem) as Habort.
  destruct (arena_alloc_aligned a _ ARENA_DEFAULT_ALIGNMENT) as [why|p a1] eqn:Hcall;
    [|discriminate].
  f_equal. eapply arena_alloc_aligned_abort; [|exact Hcall]. reflexivity.
Qed.

End OutcomeFacts.

(** * The extraction contract *)

Section ExtractionClaims.
Import Arena Utf8 Font8x8 Spec.

(** C1.  Take a pixel buffer whose width and height are multiples of 8, a
    legend that is the UTF-8 encoding of scalar values [cs] with as many
    non-whitespace code points as the buffer has non-empty cells, and an
    arena with room for the records.  Then [main] prints a glyph table with
    one record per non-empty cell, and record [i] carries the [i]-th
    non-whitespace code point of the legend (with its bytes,
    null-terminated) and the bitmap of the [i]-th non-empty cell in
    row-major order. *)
Theorem extraction_pairs_cells_with_legend (a : Arena) (font : Font)
    (cs : list Z) :
  font_wf font ->
  Forall scalar_value cs ->
  length (filter (fun c => negb (char_is_space c)) cs)
    = length (nonempty_cells font) ->
  arena_fits a (Z.of_nat (length (nonempty_cells font))) ->
  exists gl,
    main a (utf8_encode_all cs) font = Printed gl /\
    length gl = length (nonempty_cells font) /\
    forall i cell c,
      nth_error (nonempty_cells font) i = Some cell ->
      nth_error (filter (fun c => negb (char_is_space c)) cs) i = Some c ->
      exists g,
        nth_error gl i = Some g /\
        char_code g = c /\
        char_data g = utf8_encode c ++ [0] /\
        bitmap g = cell_bitmap font cell.
Proof.
  intros Hwf Hcs Hcount Hfits.
  set (chars := map (fun c => (c, utf8_encode c)) cs).
  assert (Hchars : Decodes (view_of (utf8_encode_all cs)) chars).
  { apply Decodes_encode_all. eapply Forall_impl; [|exact Hcs].
    unfold scalar_value. intros c Hc. lia. }
  assert (Hns : filter nonspace chars
                = map (fun c => (c, utf8_encode c))
                      (filter (fun c => negb (char_is_space c)) cs))
    by apply filter_nonspace_encoded.
  assert (Hlen : length (filter nonspace chars) = length (nonempty_cells font))
    by (rewrite Hns, length_map; assumption).
  destruct (main_outcomes a (utf8_encode_all cs) font chars
              (utf8_validate_well_formed cs Hcs) Hchars Hwf
              ltac:(rewrite Hlen; assumption)) as [Hprinted _].
  exists (paired_glyphs font (filter nonspace chars) (nonempty_cells font)).
  split; [apply Hprinted; symmetry; assumption|].
  split; [rewrite paired_glyphs_length; lia|].
  intros i cell c Hcell Hc.
  exists (glyph_of font (c, utf8_encode c) cell).
  split; [|repeat split].
  apply nth_error_paired; [|assumption].
  rewrite Hns, nth_error_map, Hc. reflexivity.
Qed.

Lemma extraction_pairs_cells_with_legend_witness :
  exists gl,
    main sample_arena (utf8_encode_all sample_legend) sample_grid
      = Printed gl /\
    length gl = length (nonempty_cells sample_grid) /\
    forall i cell c,
      nth_error (nonempty_cells sample_grid) i = Some cell ->
      nth_error (filter (fun c => negb (char_is_space c)) sample_legend) i
        = Some c ->
      exists g,
        nth_error gl i = Some g /\
        char_code g = c /\
        char_data g = utf8_encode c ++ [0] /\
        bitmap g = cell_bitmap sample_grid cell.
Proof.
  apply (extraction_pairs_cells_with_legend sample_arena sample_grid
           sample_legend).
  - unfold font_wf. repeat split; vm_compute; congruence.
  - unfold scalar_value, sample_legend. repeat constructor; lia.
  - vm_compute. reflexivity.
  - unfold arena_fits, remaining. vm_compute. discriminate.
Defined.

(** C1 as it was stated, for any arena, fails: the three cells of
    [sample_grid] and the three characters of [sample_legend] match, but
    with 16 bytes left in the arena the glyph table cannot be allocated and
    [main] ends in the overflow [abort]. *)
Lemma extraction_aborts_without_room :
  ~ (forall a font cs,
        begin a <= end_ a ->
        font_wf font ->
        Forall scalar_value cs ->
        length (filter (fun c => negb (char_is_space c)) cs)
          = length (nonempty_cells font) ->
        exists gl, main a (utf8_encode_all cs) font = Printed gl).
Proof.
  intros H.
  destruct (H full_arena sample_grid sample_legend) as [gl Hgl].
  - simpl. lia.
  - unfold font_wf. repeat split; vm_compute; congruence.
  - unfold scalar_value, sample_legend. repeat constructor; lia.
  - vm_compute. reflexivity.
  - vm_compute in Hgl. discriminate Hgl.
Qed.

(** C2.  Every record the grid loops append belongs to a non-empty cell,
    and its bitmap holds at position [y * 8 + x] the value [0xff000000]
    when the first channel byte of pixel [(y, x)] of that cell is [0x00]
    and [0x00000000] otherwise; so it has 64 entries, at least one of them
    [0xff000000].  This holds for the records appended by any run of the
    loops over any cells, and in particular for the table [main] prints,
    whose records are those of the non-empty cells of the grid in order. *)
Theorem glyph_bitmaps_follow_color_key (font : Font) :
  (forall n cells st st',
      scan_cells font n cells st = Next st' ->
      exists new,
        glyphs st' = glyphs st ++ new /\
        Forall2 (bitmap_of_cell font) new (filter (cell_nonempty font) cells)) /\
  (forall a font_chars gl,
      main a font_chars font = Printed gl ->
      Forall2 (bitmap_of_cell font) gl (nonempty_cells font)).
Proof.
  split.
  - intros n cells st st'. apply scan_cells_sound.
  - intros a font_chars gl Hmain.
    destruct (main_printed a font_chars font gl Hmain) as (n & a1 & st & Hrun & <-).
    destruct (scan_cells_sound font n _ _ _ Hrun) as (new & Hgl & Hall).
    simpl in Hgl. rewrite Hgl. exact Hall.
Qed.

Lemma glyph_bitmaps_follow_color_key_witness :
  exists gl,
    main sample_arena [0x41] sample_font = Printed gl /\
    Forall2 (bitmap_of_cell sample_font) gl (nonempty_cells sample_font).
Proof.
  eexists. split; [vm_compute; reflexivity|].
  apply (proj2 (glyph_bitmaps_follow_color_key sample_font) sample_arena [0x41]).
  vm_compute. reflexivity.
Defined.

(** C9.  On a validated legend and a well-formed pixel buffer, if the
    number of non-empty cells differs from the number of non-whitespace
    legend code points, [main] never reaches [glyphs_print]: it returns 1,
    or it is ended by the overflow [abort] of the arena.  When the arena
    has room for the glyph table and the records it returns 1.  With more
    non-empty cells the failure is then found inside the grid loops: after
    a prefix of the grid has filled the output array, the next non-empty
    cell leaves [main].  With more legend characters the grid loops run to
    their end over the whole grid, and only the check after them fails. *)
Theorem count_mismatch_exits_1 (a : Arena) (font_chars : list Z) (font : Font)
    (chars : list (Z * list Z)) :
  utf8_validate (view_of font_chars) = Some true ->
  Decodes (view_of font_chars) chars ->
  font_wf font ->
  length (nonempty_cells font) <> length (filter nonspace chars) ->
  let n := Z.of_nat (length (filter nonspace chars)) in
  dump (main a font_chars font) = None /\
  (exit_code (main a font_chars font) = Some 1 \/
   main a font_chars font = ArenaAbort ArenaOverflow) /\
  (arena_fits a n ->
   exit_code (main a font_chars font) = Some 1 /\
   exists ptr a1,
     arena_alloc a (n * sizeof_Glyph) = Ret ptr a1 /\
     ((length (filter nonspace chars) < length (nonempty_cells font))%nat ->
      main a font_chars font = Failed MoreGlyphsThanChars /\
      exists pre cell post st,
        grid_cells font = pre ++ cell :: post /\
        scan_cells font n pre (mkScan a1 (view_of font_chars) []) = Next st /\
        Z.of_nat (length (glyphs st)) = n /\
        scan_cell font n (fst cell) (snd cell) st
          = Halt (Failed MoreGlyphsThanChars)) /\
     ((length (nonempty_cells font) < length (filter nonspace chars))%nat ->
      main a font_chars font = Failed MoreCharsThanGlyphs /\
      exists st,
        scan_grid font n (mkScan a1 (view_of font_chars) []) = Next st /\
        Z.of_nat (length (glyphs st)) < n)).
Proof.
  intros Hv Hchars Hwf Hne n.
  assert (Hcases : dump (main a font_chars font) = None /\
                   (exit_code (main a font_chars font) = Some 1 \/
                    main a font_chars font = ArenaAbort ArenaOverflow)).
  { destruct (main a font_chars font) as [gl|why|why|] eqn:Hmain.
    - destruct (main_printed_exact a font_chars font gl Hmain)
        as (chars' & Hchars' & Hlen & _).
      rewrite (Decodes_functional _ _ _ Hchars' Hchars) in Hlen. congruence.
    - split; [reflexivity | left; reflexivity].
    - split; [reflexivity | right].
      rewrite (main_abort a font_chars font why Hmain). reflexivity.
    - exfalso. exact (main_defined a font_chars font Hwf Hmain). }
  destruct Hcases as [Hnodump Hends].
  split; [assumption|]. split; [assumption|].
  intros Hfits.
  destruct (main_outcomes a font_chars font chars Hv Hchars Hwf Hfits)
    as (_ & Hmore_glyphs & Hmore_chars).
  destruct (main_run a font_chars font chars Hv Hchars Hwf Hfits)
    as (ptr & a1 & Halloc & Hroom & _).
  assert (Hread : Forall (cell_readable font) (grid_cells font)).
  { apply Forall_forall. intros cell. apply font_wf_readable. assumption. }
  assert (Hexit : exit_code (main a font_chars font) = Some 1 /\
                  dump (main a font_chars font) = None).
  { destruct (Nat.lt_total (length (filter nonspace chars))
                (length (nonempty_cells font))) as [Hlt | [Heq | Hgt]].
    - rewrite Hmore_glyphs by assumption. split; reflexivity.
    - congruence.
    - rewrite Hmore_chars by assumption. split; reflexivity. }
  destruct Hexit as [Hcode Hdump].
  split; [assumption|].
  exists ptr, a1. split; [exact Halloc|]. split.
  - intros Hlt. split; [apply Hmore_glyphs; assumption|].
    destruct (filter_split_at (cell_nonempty font) (grid_cells font) _ Hlt)
      as (pre & cell & post & Hsplit & Hpre & Hcell).
    rewrite Hsplit in Hread. apply Forall_app in Hread as [Hread_pre Hread_rest].
    pose proof (Forall_inv Hread_rest) as Hread_cell.
    destruct (scan_cells_run font n pre (mkScan a1 (view_of font_chars) []) chars
                Hread_pre Hchars ltac:(simpl; lia) Hroom) as [Hle _].
    destruct Hle as (st & Hrun & Hgl); [lia|].
    simpl in Hgl.
    assert (Hfull : Z.of_nat (length (glyphs st)) = n).
    { rewrite Hgl, paired_glyphs_length, Hpre. unfold n. lia. }
    exists pre, cell, post, st. repeat split; try assumption.
    destruct cell as [gy gx]. apply scan_cell_full; assumption.
  - intros Hgt. split; [apply Hmore_chars; assumption|].
    destruct (font_wf_rem font Hwf) as [Hwr Hhr].
    destruct (scan_cells_run font n (grid_cells font)
                (mkScan a1 (view_of font_chars) []) chars
                Hread Hchars ltac:(simpl; lia) Hroom) as [Hle _].
    fold (nonempty_cells font) in Hle.
    destruct Hle as (st & Hrun & Hgl); [lia|].
    exists st. split; [rewrite scan_grid_cells; assumption|].
    simpl in Hgl. rewrite Hgl, paired_glyphs_length. unfold n. lia.
Qed.

Lemma count_mismatch_exits_1_witness :
  (dump (main sample_arena (utf8_encode_all sample_legend) sample_font) = None /\
   exit_code (main sample_arena (utf8_encode_all sample_legend) sample_font)
     = Some 1) /\
  (dump (main sample_arena [0x41; 0x20] sample_grid) = None /\
   exit_code (main sample_arena [0x41; 0x20] sample_grid) = Some 1).
Proof.
  split.
  - destruct (count_mismatch_exits_1 sample_arena (utf8_encode_all sample_legend)
                sample_font (map (fun c => (c, utf8_encode c)) sample_legend))
      as (Hdump & _ & Hroom).
    + vm_compute. reflexivity.
    + apply Decodes_encode_all. unfold sample_legend. repeat constructor; lia.
    + unfold font_wf. repeat split; vm_compute; congruence.
    + vm_compute. lia.
    + split; [exact Hdump|]. apply Hroom.
      unfold arena_fits, remaining. vm_compute. discriminate.
  - destruct (count_mismatch_exits_1 sample_arena [0x41; 0x20] sample_grid
                [(0x41, [0x41]); (0x20, [0x20])])
      as (Hdump & _ & Hroom).
    + vm_compute. reflexivity.
    + apply (Decodes_encode_all [0x41; 0x20]). repeat constructor; lia.
    + unfold font_wf. repeat split; vm_compute; congruence.
    + vm_compute. lia.
    + split; [exact Hdump|]. apply Hroom.
      unfold arena_fits, remaining. vm_compute. discriminate.
Defined.

(** C9 as it was stated, for any arena, fails: [sample_legend] has three
    characters for the one cell of [sample_font], but with 16 bytes left in
    the arena the glyph table cannot be allocated, [main] ends in the
    overflow [abort] and no exit code 1 is returned. *)
Lemma count_mismatch_aborts_without_room :
  ~ (forall a font_chars font chars,
        begin a <= end_ a ->
        utf8_validate (view_of font_chars) = Some true ->
        Decodes (view_of font_chars) chars ->
        font_wf font ->
        length (nonempty_cells font) <> length (filter nonspace chars) ->
        exit_code (main a font_chars font) = Some 1).
Proof.
  intros H.
  specialize (H full_arena (utf8_encode_all sample_legend) sample_font
                (map (fun c => (c, utf8_encode c)) sample_legend)).
  assert (Hexit : exit_code (main full_arena (utf8_encode_all sample_legend)
                               sample_font) = Some 1).
  { apply H.
    - simpl. lia.
    - vm_compute. reflexivity.
    - apply Decodes_encode_all. unfold sample_legend. repeat constructor; lia.
    - unfold font_wf. repeat split; vm_compute; congruence.
    - vm_compute. lia. }
  vm_compute in Hexit. discriminate Hexit.
Qed.

(** C10.  Take a legend the validator accepted and [font_char_count] as the
    pre-scan counted it.  In every state [st] the grid loops reach, after
    any number of cells, if the output array is not full
    ([glyph_iter != glyphs_end]) the rest of the legend still holds a code
    point that is not whitespace: the [do ... while] returns it without
    reading outside the buffer, and the cursor it leaves behind is still
    inside the legend buffer.  So on a well-formed pixel buffer [main] has
    no undefined behaviour. *)
Theorem legend_not_exhausted (a : Arena) (font_chars : list Z) (font : Font)
    (font_char_count : Z) :
  utf8_validate (view_of font_chars) = Some true ->
  count_chars (Z.to_nat (size (view_of font_chars))) (view_of font_chars) 0
    = Some font_char_count ->
  (forall cells st,
      scan_cells font font_char_count cells
        (mkScan a (view_of font_chars) []) = Next st ->
      Z.of_nat (length (glyphs st)) <> font_char_count ->
      exists chars c,
        Decodes (font_char_iter st) chars /\
        existsb nonspace chars = true /\
        next_char (length (data (font_char_iter st))) (font_char_iter st)
          = Some c /\
        char_is_space (code c) = false /\
        0 <= size (rest c) /\
        size (rest c) = Z.of_nat (length (data (rest c))) /\
        exists consumed, font_chars = consumed ++ data (rest c)) /\
  (font_wf font -> main a font_chars font <> Undefined).
Proof.
  intros Hv Hcount. split; [|apply main_defined].
  intros cells st Hrun Hne.
  pose proof (legend_inv_init font_chars font_char_count a Hv Hcount) as Hinit.
  pose proof (scan_cells_legend_inv _ _ _ _ _ _ Hinit Hrun) as Hinv.
  destruct (legend_inv_next_char _ _ _ Hinv Hne)
    as (chars & c & chars' & Hchars & Hnext & Hf & Hsp & Hrest & Ht & Hcons).
  exists chars, c. repeat split; try assumption.
  - apply existsb_exists. exists (code c, view_bytes (slice c)).
    assert (Hin : In (code c, view_bytes (slice c)) (filter nonspace chars))
      by (rewrite Hf; left; reflexivity).
    apply filter_In in Hin. assumption.
  - unfold tight in Ht. lia.
Qed.

Lemma legend_not_exhausted_witness :
  exists chars c,
    Decodes (view_of [0x20; 0x41; 0x0a]) chars /\
    existsb nonspace chars = true /\
    next_char 3 (view_of [0x20; 0x41; 0x0a]) = Some c /\
    char_is_space (code c) = false /\
    0 <= size (rest c) /\
    size (rest c) = Z.of_nat (length (data (rest c))) /\
    exists consumed, [0x20; 0x41; 0x0a] = consumed ++ data (rest c).
Proof.
  apply (proj1 (legend_not_exhausted sample_arena [0x20; 0x41; 0x0a]
                  sample_font 1 eq_refl eq_refl)
           [(0, 0)] (mkScan sample_arena (view_of [0x20; 0x41; 0x0a]) [])).
  - reflexivity.
  - simpl. lia.
Defined.

End ExtractionClaims.

(** * Further properties of the arena allocator *)

Section ArenaExtras.
Import Arena Spec.

(** X1.  The assertion of [arena_alloc_aligned] lets through exactly the
    powers of two; with any other alignment the call dies in the assertion,
    whatever the arena and the size. *)
Theorem valid_alignment_iff_pow2 (alignment : Z) :
  (valid_alignment alignment = true <-> exists k, 0 <= k /\ alignment = 2 ^ k) /\
  (valid_alignment alignment = false ->
   forall a size, arena_alloc_aligned a size alignment = Abort AssertionFailed).
Proof.
  split; [split|].
  - intros Hv. exists (Z.log2 alignment). split; [apply Z.log2_nonneg|].
    apply valid_alignment_pow2. assumption.
  - intros (k & Hk & ->). apply pow2_valid_alignment. assumption.
  - intros Hv a size. unfold arena_alloc_aligned. rewrite Hv. reflexivity.
Qed.

(** X2.  A successful allocation of positive size returns a pointer that is
    a multiple of the alignment, less than [alignment] bytes past the old
    [begin]; the block [ptr, ptr + size) ends at the new [begin] and lies
    inside the arena; and it is not [NULL] when the arena does not start at
    address 0. *)
Theorem arena_alloc_aligned_block (a : Arena) (size alignment ptr : Z)
    (a' : Arena) :
  in_isize alignment -> 0 < size ->
  arena_alloc_aligned a size alignment = Ret ptr a' ->
  ptr mod alignment = 0 /\
  begin a <= ptr < begin a + alignment /\
  ptr + size = begin a' /\
  begin a' <= end_ a /\
  (0 < begin a -> ptr <> NULL).
Proof.
  intros [_ Hal] Hsize Hcall.
  apply arena_alloc_aligned_ret in Hcall as [Hv Hcase].
  pose proof (arena_padding_bounds a alignment Hv Hal) as [Hp Hmod].
  destruct Hcase as [(-> & _) | (_ & -> & Hb & He & H0 & Hs)]; [lia|].
  unfold NULL. repeat split; try lia; try assumption.
Qed.

Lemma arena_alloc_aligned_block_witness :
  24 mod 8 = 0 /\
  begin (mkArena 17 1024) <= 24 < begin (mkArena 17 1024) + 8 /\
  24 + 5 = begin (mkArena 29 1024) /\
  begin (mkArena 29 1024) <= end_ (mkArena 17 1024) /\
  (0 < begin (mkArena 17 1024) -> 24 <> NULL).
Proof.
  apply (arena_alloc_aligned_block (mkArena 17 1024) 5 8 24 (mkArena 29 1024)).
  - unfold in_isize. lia.
  - lia.
  - reflexivity.
Defined.

Lemma alloc_blocks_chain (reqs : list (Z * Z)) :
  forall a blocks,
    begin a <= end_ a ->
    Forall (fun r => 0 < fst r /\ in_isize (snd r)) reqs ->
    alloc_blocks a reqs = Some blocks ->
    exists a',
      alloc_all a reqs = Some a' /\
      end_ a' = end_ a /\ begin a' <= end_ a' /\
      blocks_between (begin a) (begin a') blocks.
Proof.
  induction reqs as [|[size alignment] reqs IH]; intros a blocks Hinv Hreqs Hrun.
  - simpl in Hrun. injection Hrun as <-. exists a. simpl. repeat split; lia.
  - simpl in Hrun |- *.
    destruct (arena_alloc_aligned a size alignment) as [|ptr a1] eqn:Hcall;
      [discriminate|].
    destruct (alloc_blocks a1 reqs) as [bs|] eqn:Hbs; [|discriminate].
    injection Hrun as <-.
    pose proof (Forall_inv Hreqs) as [Hsize [_ Hal]]. simpl in Hsize, Hal.
    apply arena_alloc_aligned_ret in Hcall as [Hv Hcase].
    pose proof (arena_padding_bounds a alignment Hv Hal) as [Hp _].
    destruct Hcase as [(-> & _) | (_ & -> & Hb & He & H0 & Hs)]; [lia|].
    destruct (IH a1 bs ltac:(lia) (Forall_inv_tail Hreqs) Hbs)
      as (a' & Hall & He' & Hinv' & Hchain).
    exists a'. rewrite Hall. repeat split; try lia.
    rewrite <- Hb. assumption.
Qed.

Lemma blocks_between_bounds (blocks : list (Z * Z)) :
  forall lo hi, blocks_between lo hi blocks ->
    lo <= hi /\
    forall i ptr size, nth_error blocks i = Some (ptr, size) ->
      lo <= ptr /\ ptr + size <= hi.
Proof.
  induction blocks as [|[p s] blocks IH]; intros lo hi Hchain; simpl in Hchain.
  - split; [assumption|]. intros i ptr size Hi. destruct i; discriminate.
  - destruct Hchain as (Hlo & Hs & Hrest).
    destruct (IH _ _ Hrest) as [Hle Hin].
    split; [lia|]. intros i ptr size Hi. destruct i as [|i]; simpl in Hi.
    + injection Hi as <- <-. lia.
    + apply Hin in Hi. lia.
Qed.

Lemma blocks_between_ordered (blocks : list (Z * Z)) :
  forall lo hi, blocks_between lo hi blocks ->
    forall i j p1 s1 p2 s2,
      (i < j)%nat ->
      nth_error blocks i = Some (p1, s1) ->
      nth_error blocks j = Some (p2, s2) ->
      p1 + s1 <= p2.
Proof.
  induction blocks as [|[p s] blocks IH]; intros lo hi Hchain i j p1 s1 p2 s2
    Hij Hi Hj; [destruct i; discriminate|].
  simpl in Hchain. destruct Hchain as (Hlo & Hs & Hrest).
  destruct j as [|j]; [lia|]. simpl in Hj.
  destruct i as [|i]; simpl in Hi.
  - injection Hi as <- <-.
    destruct (blocks_between_bounds _ _ _ Hrest) as [_ Hin].
    apply Hin in Hj. lia.
  - eapply IH; [exact Hrest | | exact Hi | exact Hj]. lia.
Qed.

(** X3.  The blocks handed out by any run of successful allocations of
    positive size lie inside the arena as it was before the run, and no two
    of them overlap: a later block starts at or after the end of every
    earlier one. *)
Theorem alloc_blocks_disjoint (a : Arena) (reqs : list (Z * Z))
    (blocks : list (Z * Z)) :
  begin a <= end_ a ->
  Forall (fun r => 0 < fst r /\ in_isize (snd r)) reqs ->
  alloc_blocks a reqs = Some blocks ->
  length blocks = length reqs /\
  (forall i ptr size,
      nth_error blocks i = Some (ptr, size) ->
      begin a <= ptr /\ ptr + size <= end_ a) /\
  (forall i j p1 s1 p2 s2,
      (i < j)%nat ->
      nth_error blocks i = Some (p1, s1) ->
      nth_error blocks j = Some (p2, s2) ->
      p1 + s1 <= p2).
Proof.
  intros Hinv Hreqs Hrun.
  destruct (alloc_blocks_chain reqs a blocks Hinv Hreqs Hrun)
    as (a' & _ & He & Hinv' & Hchain).
  split; [|split].
  - clear -Hrun. revert a blocks Hrun.
    induction reqs as [|[size alignment] reqs IH]; intros a blocks Hrun;
      simpl in Hrun.
    + injection Hrun as <-. reflexivity.
    + destruct (arena_alloc_aligned a size alignment) as [|ptr a1];
        [discriminate|].
      destruct (alloc_blocks a1 reqs) as [bs|] eqn:Hbs; [|discriminate].
      injection Hrun as <-. simpl. f_equal. eapply IH. exact Hbs.
  - intros i ptr size Hi.
    destruct (blocks_between_bounds _ _ _ Hchain) as [_ Hin].
    apply Hin in Hi. lia.
  - apply (blocks_between_ordered blocks _ _ Hchain).
Qed.

Lemma alloc_blocks_disjoint_witness :
  length [(16, 3); (20, 8); (32, 1)] = length [(3, 1); (8, 4); (1, 16)] /\
  (forall i ptr size,
      nth_error [(16, 3); (20, 8); (32, 1)] i = Some (ptr, size) ->
      begin (mkArena 16 1024) <= ptr /\ ptr + size <= end_ (mkArena 16 1024)) /\
  (forall i j p1 s1 p2 s2,
      (i < j)%nat ->
      nth_error [(16, 3); (20, 8); (32, 1)] i = Some (p1, s1) ->
      nth_error [(16, 3); (20, 8); (32, 1)] j = Some (p2, s2) ->
      p1 + s1 <= p2).
Proof.
  apply (alloc_blocks_disjoint (mkArena 16 1024) [(3, 1); (8, 4); (1, 16)]).
  - simpl. lia.
  - unfold in_isize. repeat constructor; simpl; lia.
  - reflexivity.
Defined.

Lemma load_bytes_ext (m m' : Mem) (p p' : Z) (n : nat) :
  (forall i, 0 <= i < Z.of_nat n -> m' (p' + i) = m (p + i)) ->
  load_bytes m' p' n = load_bytes m p n.
Proof.
  intros H. unfold load_bytes. apply map_ext_in. intros i Hi.
  apply in_seq in Hi. apply H. lia.
Qed.

(** What a returning [arena_realloc] leaves behind, for a block at a
    16-aligned address. *)
Lemma arena_realloc_ret (a : Arena) (m : Mem)
    (old_ptr old_size new_size ptr : Z) (a' : Arena) (m' : Mem) :
  0 <= old_size ->
  old_ptr mod ARENA_DEFAULT_ALIGNMENT = 0 ->
  arena_realloc a m old_ptr old_size new_size = (Ret ptr a', m') ->
  load_bytes m' ptr (Z.to_nat old_size) = load_bytes m old_ptr (Z.to_nat old_size) /\
  (forall addr, ~ (ptr <= addr < ptr + old_size) -> m' addr = m addr) /\
  (new_size <= old_size -> ptr = old_ptr /\ a' = a /\ m' = m) /\
  (old_size < new_size ->
   ptr mod ARENA_DEFAULT_ALIGNMENT = 0 /\ ptr + new_size = begin a' /\
   begin a' <= end_ a).
Proof.
  intros Hold Halign. unfold arena_realloc.
  destruct (Z.geb_spec old_size new_size) as [Hge|Hlt].
  { intros Heq. injection Heq as <- <- <-.
    repeat split; try reflexivity; lia. }
  destruct (negb (old_ptr =? NULL) && (old_ptr + old_size =? begin a)) eqn:Hlast.
  - intros Heq. injection Heq as Hcall <-.
    unfold arena_alloc in Hcall.
    set (a0 := {| begin := old_ptr; end_ := end_ a |}) in *.
    apply arena_alloc_aligned_ret in Hcall as [Hv Hcase].
    assert (Hpad : arena_padding a0 ARENA_DEFAULT_ALIGNMENT = 0).
    { rewrite arena_padding_mod; [|reflexivity|reflexivity]. simpl.
      unfold ARENA_DEFAULT_ALIGNMENT in *. rewrite Z.mod_opp_l_z; lia. }
    destruct Hcase as [(-> & _) | (_ & -> & Hb & He & H0 & Hs)]; [lia|].
    rewrite Hpad in *. simpl in *. rewrite Z.add_0_r.
    repeat split; try reflexivity; try lia; try assumption.
  - destruct (arena_alloc a new_size) as [|new_ptr a1] eqn:Hcall; [discriminate|].
    intros Heq. injection Heq as <- <- <-.
    unfold arena_alloc in Hcall.
    apply arena_alloc_aligned_ret in Hcall as [Hv Hcase].
    pose proof (arena_padding_bounds a ARENA_DEFAULT_ALIGNMENT Hv
                  ltac:(unfold ARENA_DEFAULT_ALIGNMENT; lia)) as [Hp Hmod].
    destruct Hcase as [(-> & _) | (_ & -> & Hb & He & H0 & Hs)]; [lia|].
    repeat split; try lia; try assumption.
    + apply load_bytes_ext. intros i Hi. unfold memcpy.
      set (p := begin a + arena_padding a ARENA_DEFAULT_ALIGNMENT).
      destruct (Z.leb_spec p (p + i)); [|lia].
      destruct (Z.ltb_spec (p + i) (p + old_size)); [|lia].
      simpl. f_equal. lia.
    + intros addr Hout. unfold memcpy.
      set (p := begin a + arena_padding a ARENA_DEFAULT_ALIGNMENT) in *.
      destruct (Z.leb_spec p addr); destruct (Z.ltb_spec addr (p + old_size));
        simpl; try reflexivity. lia.
Qed.

(** X4.  [arena_realloc] on a block at a 16-aligned address (as
    [arena_alloc] hands out; [NULL] counts) with a non-negative old size:
    when it returns, the block it returns starts with the [old_size] bytes
    of the old block and memory outside those bytes is untouched; a request
    that does not grow returns the old pointer and changes nothing; a
    request that grows returns a 16-aligned block ending at the new
    [begin]. *)
Theorem arena_realloc_keeps_contents (a : Arena) (m : Mem)
    (old_ptr old_size new_size ptr : Z) (a' : Arena) (m' : Mem) :
  0 <= old_size ->
  old_ptr mod ARENA_DEFAULT_ALIGNMENT = 0 ->
  arena_realloc a m old_ptr old_size new_size = (Ret ptr a', m') ->
  load_bytes m' ptr (Z.to_nat old_size) = load_bytes m old_ptr (Z.to_nat old_size) /\
  (forall addr, ~ (ptr <= addr < ptr + old_size) -> m' addr = m addr) /\
  (new_size <= old_size -> ptr = old_ptr /\ a' = a /\ m' = m) /\
  (old_size < new_size ->
   ptr mod ARENA_DEFAULT_ALIGNMENT = 0 /\ ptr + new_size = begin a' /\
   begin a' <= end_ a).
Proof. apply arena_realloc_ret. Qed.

Lemma arena_realloc_keeps_contents_witness :
  let m : Mem := fun addr => addr mod 256 in
  let r := arena_realloc (mkArena 40 1024) m 16 8 100 in
  load_bytes (snd r) 48 (Z.to_nat 8) = load_bytes m 16 (Z.to_nat 8) /\
  (forall addr, ~ (48 <= addr < 48 + 8) -> snd r addr = m addr) /\
  (100 <= 8 -> 48 = 16 /\ mkArena 148 1024 = mkArena 40 1024 /\ snd r = m) /\
  (8 < 100 ->
   48 mod ARENA_DEFAULT_ALIGNMENT = 0 /\ 48 + 100 = begin (mkArena 148 1024) /\
   begin (mkArena 148 1024) <= end_ (mkArena 40 1024)).
Proof.
  intros m r.
  apply (arena_realloc_keeps_contents (mkArena 40 1024) m 16 8 100 48
           (mkArena 148 1024) (snd r)).
  - lia.
  - reflexivity.
  - reflexivity.
Defined.

End ArenaExtras.

(** * Further properties of the UTF-8 decoder and validator *)

Section Utf8Extras.
Import Utf8 Font8x8 Spec.

Lemma utf8_encode_head (c : Z) :
  0 <= c <= 0x10ffff ->
  exists b0 tl,
    utf8_encode c = b0 :: tl /\ 0 <= b0 < 256 /\
    char_size_of b0 = encoded_size c.
Proof.
  intros Hc.
  pose proof (utf8_chop_char_encode c [] 0 Hc) as Hchop.
  rewrite app_nil_r in Hchop.
  destruct (utf8_chop_char_some _ _ Hchop) as (b0 & Hb0 & Hsz & _).
  pose proof (utf8_encode_bytes c Hc) as Hbytes.
  unfold byte_at in Hb0. simpl in Hb0, Hsz.
  destruct (utf8_encode c) as [|b tl] eqn:Henc; [discriminate|].
  simpl in Hb0. injection Hb0 as <-.
  exists b, tl. split; [reflexivity|].
  split; [exact (Forall_inv Hbytes) | symmetry; assumption].
Qed.

(** X5.  The lookup table against the encoder: a byte has a non-zero entry
    exactly when it is the first byte of the canonical encoding of some
    Unicode scalar value, and the entry is then the length of that
    encoding. *)
Theorem utf8_char_size_table (b : Z) :
  0 <= b < 256 ->
  (char_size_of b <> 0 <->
   exists c tl, scalar_value c /\ utf8_encode c = b :: tl) /\
  (forall c tl,
      scalar_value c -> utf8_encode c = b :: tl ->
      char_size_of b = Z.of_nat (length (utf8_encode c))).
Proof.
  intros Hb.
  assert (Hlen : forall c tl,
             scalar_value c -> utf8_encode c = b :: tl ->
             char_size_of b = Z.of_nat (length (utf8_encode c))).
  { intros c tl Hc Henc.
    destruct (utf8_encode_head c) as (b0 & tl0 & Henc0 & _ & Hsz);
      [unfold scalar_value in Hc; lia|].
    rewrite Henc in Henc0. injection Henc0 as <- _. exact Hsz. }
  split; [split|exact Hlen].
  - intros Hnz. rewrite char_size_of_ranges in Hnz by assumption.
    destruct (Z.ltb_spec b 0x80).
    { exists b, []. split; [unfold scalar_value; lia|].
      unfold utf8_encode. destruct (Z.ltb_spec b 0x80); [reflexivity|lia]. }
    destruct (Z.ltb_spec b 0xc2); [contradiction|].
    destruct (Z.ltb_spec b 0xe0).
    { exists ((b - 0xc0) * 64), [0x80 + ((b - 0xc0) * 64) mod 64].
      split; [unfold scalar_value; lia|]. unfold utf8_encode.
      destruct (Z.ltb_spec ((b - 0xc0) * 64) 0x80); [lia|].
      destruct (Z.ltb_spec ((b - 0xc0) * 64) 0x800); [|lia].
      f_equal. dlia. }
    destruct (Z.ltb_spec b 0xf0).
    { set (c := Z.max 0x800 ((b - 0xe0) * 4096)).
      exists c, [0x80 + (c / 64) mod 64; 0x80 + c mod 64].
      split; [unfold scalar_value, c; lia|]. unfold utf8_encode.
      destruct (Z.ltb_spec c 0x80); [unfold c in *; lia|].
      destruct (Z.ltb_spec c 0x800); [unfold c in *; lia|].
      destruct (Z.ltb_spec c 0x10000); [|unfold c in *; lia].
      f_equal. unfold c. dlia. }
    destruct (Z.ltb_spec b 0xf5); [|contradiction].
    set (c := Z.max 0x10000 ((b - 0xf0) * 262144)).
    exists c, [0x80 + (c / 4096) mod 64; 0x80 + (c / 64) mod 64; 0x80 + c mod 64].
    split; [unfold scalar_value, c; lia|]. unfold utf8_encode.
    destruct (Z.ltb_spec c 0x80); [unfold c in *; lia|].
    destruct (Z.ltb_spec c 0x800); [unfold c in *; lia|].
    destruct (Z.ltb_spec c 0x10000); [unfold c in *; lia|].
    f_equal. unfold c. dlia.
  - intros (c & tl & Hc & Henc).
    rewrite (Hlen c tl Hc Henc), Henc. simpl. lia.
Qed.

Lemma utf8_char_size_table_witness :
  (char_size_of 0xe2 <> 0 <->
   exists c tl, scalar_value c /\ utf8_encode c = 0xe2 :: tl) /\
  (forall c tl,
      scalar_value c -> utf8_encode c = 0xe2 :: tl ->
      char_size_of 0xe2 = Z.of_nat (length (utf8_encode c))).
Proof.
  apply (utf8_char_size_table 0xe2). lia.
Defined.

(** X6.  [utf8_validate] accepts every well-formed UTF-8 sequence: it
    returns [true] on the encoding of any list of Unicode scalar values,
    the empty one included. *)
Theorem utf8_validate_accepts_well_formed (bytes : list Z) :
  well_formed_utf8 bytes -> utf8_validate (view_of bytes) = Some true.
Proof.
  intros (cs & Hcs & ->). apply utf8_validate_well_formed. assumption.
Qed.

Lemma utf8_validate_accepts_well_formed_witness :
  utf8_validate (view_of (utf8_encode_all [0x41; 0xe9; 0x20ac; 0x1f600]))
  = Some true.
Proof.
  apply utf8_validate_accepts_well_formed.
  exists [0x41; 0xe9; 0x20ac; 0x1f600]. split; [|reflexivity].
  unfold scalar_value. repeat constructor; lia.
Defined.

(** X7.  Memory safety and termination of the validator: on any span that
    lies inside its buffer ([size] at most the bytes available), whatever
    the bytes, [utf8_validate] returns an answer within [size] rounds and
    without reading outside the buffer. *)
Theorem utf8_validate_stays_in_buffer (s : StringView) :
  size s <= Z.of_nat (length (data s)) ->
  exists b, utf8_validate s = Some b.
Proof. apply utf8_validate_total. Qed.

Lemma utf8_validate_stays_in_buffer_witness :
  exists b, utf8_validate (mkView [0xf0; 0x9f; 0x98; 0x80; 0xe2] 5) = Some b.
Proof.
  apply (utf8_validate_stays_in_buffer (mkView [0xf0; 0x9f; 0x98; 0x80; 0xe2] 5)).
  simpl. lia.
Defined.

(** X8.  What the validator does catch: after any well-formed prefix, a
    byte that is no leading byte (a continuation byte, [c0], [c1],
    [f5]..[ff]), a leading byte with too few bytes left, a 3-byte form that
    decodes below U+0800 or to a surrogate, and a 4-byte form that decodes
    below U+10000 or above U+10FFFF all make [utf8_validate] return
    [false], whatever follows. *)
Theorem utf8_validate_rejects_defect (cs : list Z) (tail : list Z) :
  Forall scalar_value cs -> ill_formed_start tail ->
  utf8_validate (view_of (utf8_encode_all cs ++ tail)) = Some false.
Proof. apply utf8_validate_rejects_after_prefix. Qed.

Lemma utf8_validate_rejects_defect_witness :
  utf8_validate (view_of (utf8_encode_all [0x41; 0x20ac] ++ [0xed; 0xa0; 0x80; 0x41]))
  = Some false.
Proof.
  apply (utf8_validate_rejects_defect [0x41; 0x20ac] [0xed; 0xa0; 0x80; 0x41]).
  - unfold scalar_value. repeat constructor; lia.
  - apply Bad_three; try lia. right. vm_compute. split; discriminate.
Defined.

Lemma firstn_plus {A : Type} (n k : nat) (l : list A) :
  firstn (n + k) l = firstn n l ++ firstn k (skipn n l).
Proof.
  revert l. induction n as [|n IH]; intros l; [reflexivity|].
  destruct l as [|x l]; simpl; [now rewrite firstn_nil|].
  f_equal. apply IH.
Qed.

Lemma Forall_skipn_u8 (n : nat) (l : list Z) :
  Forall is_u8 l -> Forall is_u8 (skipn n l).
Proof.
  intros H. rewrite <- (firstn_skipn n l) in H.
  apply Forall_app in H. tauto.
Qed.

(** A character the validator lets through is a scalar value in its
    shortest form. *)
Lemma chop_validated (s : StringView) (c : Chopped) :
  Forall is_u8 (data s) ->
  utf8_chop_char s = Some c ->
  range_ok (size (slice c)) (code c) = true ->
  scalar_value (code c) /\ size (slice c) = encoded_size (code c).
Proof.
  intros Hu8 Hc Hok.
  destruct (utf8_chop_char_some s c Hc)
    as (b0 & Hb0 & Hsz & Hr & _ & _ & _ & Hfit).
  destruct s as [d n]. unfold byte_at in Hb0. simpl in *.
  destruct d as [|b d]; [discriminate|]. simpl in Hb0. injection Hb0 as ->.
  pose proof (Forall_inv Hu8) as Hb. unfold is_u8 in Hb.
  rewrite char_size_of_ranges in Hsz by assumption.
  rewrite encoded_size_cases. unfold scalar_value.
  destruct (Z.ltb_spec b0 0x80).
  { rewrite chop1 in Hc by lia. injection Hc as <-. simpl in *.
    destruct (Z.ltb_spec b0 0x80); lia. }
  destruct (Z.ltb_spec b0 0xc2); [lia|].
  destruct (Z.ltb_spec b0 0xe0).
  { rewrite Hsz in Hfit. destruct d as [|b1 d]; [simpl in Hfit; lia|].
    pose proof (Forall_inv (Forall_inv_tail Hu8)) as Hb1. unfold is_u8 in Hb1.
    rewrite chop2 in Hc by lia. injection Hc as <-. simpl in *.
    destruct (Z.ltb_spec (b0 mod 32 * 64 + b1 mod 64) 0x80); [dlia|].
    destruct (Z.ltb_spec (b0 mod 32 * 64 + b1 mod 64) 0x800); dlia. }
  destruct (Z.ltb_spec b0 0xf0).
  { rewrite Hsz in Hfit.
    destruct d as [|b1 [|b2 d]]; try (simpl in Hfit; lia).
    pose proof (Forall_inv (Forall_inv_tail Hu8)) as Hb1.
    pose proof (Forall_inv (Forall_inv_tail (Forall_inv_tail Hu8))) as Hb2.
    unfold is_u8 in Hb1, Hb2.
    rewrite chop3 in Hc by lia. injection Hc as <-. simpl in *.
    set (cc := b0 mod 16 * 4096 + b1 mod 64 * 64 + b2 mod 64) in *.
    unfold range_ok in Hok. simpl in Hok.
    destruct (Z.ltb_spec cc 0x0800); [discriminate|].
    destruct (Z.gtb_spec cc 0xffff); [discriminate|].
    destruct (Z.geb_spec cc 0xd800); destruct (Z.leb_spec cc 0xdfff);
      try discriminate;
      (destruct (Z.ltb_spec cc 0x80); [lia|];
       destruct (Z.ltb_spec cc 0x800); [lia|];
       destruct (Z.ltb_spec cc 0x10000); lia). }
  destruct (Z.ltb_spec b0 0xf5); [|lia].
  rewrite Hsz in Hfit.
  destruct d as [|b1 [|b2 [|b3 d]]]; try (simpl in Hfit; lia).
  pose proof (Forall_inv (Forall_inv_tail Hu8)) as Hb1.
  pose proof (Forall_inv (Forall_inv_tail (Forall_inv_tail Hu8))) as Hb2.
  pose proof (Forall_inv (Forall_inv_tail (Forall_inv_tail (Forall_inv_tail Hu8))))
    as Hb3.
  unfold is_u8 in Hb1, Hb2, Hb3.
  rewrite chop4 in Hc by lia. injection Hc as <-. simpl in *.
  set (cc := b0 mod 8 * 262144 + b1 mod 64 * 4096 + b2 mod 64 * 64 + b3 mod 64)
    in *.
  unfold range_ok in Hok. simpl in Hok.
  destruct (Z.ltb_spec cc 0x10000); [discriminate|].
  destruct (Z.gtb_spec cc 0x10ffff); [discriminate|].
  destruct (Z.ltb_spec cc 0x80); [lia|].
  destruct (Z.ltb_spec cc 0x800); [lia|].
  destruct (Z.ltb_spec cc 0x10000); lia.
Qed.

Lemma utf8_validate_loop_scalars (fuel : nat) :
  forall s,
    Forall is_u8 (data s) ->
    utf8_validate_loop fuel s = Some true ->
    exists chars,
      Decodes s chars /\
      Forall (fun ch => scalar_value (fst ch) /\
                        Z.of_nat (length (snd ch)) = encoded_size (fst ch))
             chars /\
      concat (map snd chars) = view_bytes s.
Proof.
  induction fuel as [|fuel IH]; intros s Hu8 Hv.
  - simpl in Hv. destruct (Z.gtb_spec (size s) 0); [discriminate|].
    exists []. split; [constructor; lia|]. split; [constructor|].
    unfold view_bytes. destruct (size s); try lia; reflexivity.
  - destruct (Z.gtb_spec (size s) 0) as [Hpos|Hle].
    2:{ exists []. split; [constructor; lia|]. split; [constructor|].
        unfold view_bytes. destruct (size s); try lia; reflexivity. }
    destruct (utf8_chop_char s) as [c|] eqn:Hc.
    2:{ simpl in Hv. destruct (Z.gtb_spec (size s) 0); [|lia].
        destruct (byte_at s 0); [|discriminate].
        rewrite Hc in Hv.
        destruct ((char_size_of z =? 0) || (size s <? char_size_of z));
          discriminate. }
    rewrite (utf8_validate_loop_step fuel s c) in Hv by (assumption || lia).
    destruct (Z.ltb_spec (size s) (size (slice c))) as [|Hfits]; [discriminate|].
    destruct (range_ok (size (slice c)) (code c)) eqn:Hok; [|discriminate].
    destruct (utf8_chop_char_some s c Hc)
      as (b0 & _ & _ & Hr & Hsd & Hd & Hs & Hfit).
    destruct (chop_validated s c Hu8 Hc Hok) as [Hscalar Hcanon].
    destruct (IH (rest c)) as (chars & Hchars & Hall & Hcat).
    { rewrite Hd. apply Forall_skipn_u8. assumption. }
    { assumption. }
    exists ((code c, view_bytes (slice c)) :: chars).
    split; [apply Decodes_char; assumption || lia|].
    split.
    + constructor; [|assumption]. simpl. split; [assumption|].
      unfold view_bytes. rewrite Hsd, length_firstn. lia.
    + simpl. rewrite Hcat. unfold view_bytes. rewrite Hsd, Hd, Hs.
      replace (Z.to_nat (size s))
        with (Z.to_nat (size (slice c)) + Z.to_nat (size s - size (slice c)))%nat
        by lia.
      symmetry. apply firstn_plus.
Qed.

(** X9.  What the validator guarantees to the decoder.  If [utf8_validate]
    accepts a buffer of bytes, then reading it with [utf8_chop_char] to the
    end yields only Unicode scalar values, each from as many bytes as its
    canonical encoding has (no overlong form, no surrogate, nothing above
    U+10FFFF), and the slices returned, put end to end, are the buffer. *)
Theorem utf8_validate_yields_scalars (bytes : list Z) :
  Forall is_u8 bytes ->
  utf8_validate (view_of bytes) = Some true ->
  exists chars,
    Decodes (view_of bytes) chars /\
    Forall (fun ch => scalar_value (fst ch) /\
                      length (snd ch) = length (utf8_encode (fst ch)))
           chars /\
    concat (map snd chars) = bytes.
Proof.
  intros Hu8 Hv.
  destruct (utf8_validate_loop_scalars _ (view_of bytes) Hu8 Hv)
    as (chars & Hchars & Hall & Hcat).
  exists chars. split; [assumption|]. split.
  - eapply Forall_impl; [|exact Hall]. intros ch [Hs Hl].
    split; [assumption|]. unfold encoded_size in Hl. lia.
  - rewrite Hcat. unfold view_bytes, view_of. simpl.
    rewrite Nat2Z.id. apply firstn_all.
Qed.

Lemma utf8_validate_yields_scalars_witness :
  exists chars,
    Decodes (view_of [0xc3; 0x41; 0x42]) chars /\
    Forall (fun ch => scalar_value (fst ch) /\
                      length (snd ch) = length (utf8_encode (fst ch)))
           chars /\
    concat (map snd chars) = [0xc3; 0x41; 0x42].
Proof.
  apply (utf8_validate_yields_scalars [0xc3; 0x41; 0x42]).
  - unfold is_u8. repeat constructor; lia.
  - reflexivity.
Defined.

(** X10.  The pre-scan of [main] on a well-formed legend: it counts exactly
    the code points that are not whitespace, and never leaves the buffer. *)
Theorem count_chars_well_formed (cs : list Z) :
  Forall scalar_value cs ->
  count_chars (Z.to_nat (size (view_of (utf8_encode_all cs))))
    (view_of (utf8_encode_all cs)) 0
  = Some (Z.of_nat (length (filter (fun c => negb (char_is_space c)) cs))).
Proof.
  intros Hcs.
  assert (Hchars : Decodes (view_of (utf8_encode_all cs))
                     (map (fun c => (c, utf8_encode c)) cs)).
  { apply Decodes_encode_all. eapply Forall_impl; [|exact Hcs].
    unfold scalar_value. intros c Hc. lia. }
  pose proof (Decodes_length _ _ Hchars) as [Hlen _].
  rewrite (count_chars_Decodes _ _ Hchars) by lia.
  rewrite filter_nonspace_encoded, length_map. reflexivity.
Qed.

Lemma count_chars_well_formed_witness :
  count_chars
    (Z.to_nat (size (view_of (utf8_encode_all [0x20; 0x41; 0x0a; 0x20ac; 0x09]))))
    (view_of (utf8_encode_all [0x20; 0x41; 0x0a; 0x20ac; 0x09])) 0
  = Some (Z.of_nat (length (filter (fun c => negb (char_is_space c))
                              [0x20; 0x41; 0x0a; 0x20ac; 0x09]))).
Proof.
  apply (count_chars_well_formed [0x20; 0x41; 0x0a; 0x20ac; 0x09]).
  unfold scalar_value. repeat constructor; lia.
Defined.

Lemma next_char_skips (ws : list Z) :
  forall c more fuel,
    Forall scalar_value (ws ++ c :: more) ->
    forallb char_is_space ws = true ->
    char_is_space c = false ->
    (length ws < fuel)%nat ->
    next_char fuel (view_of (utf8_encode_all (ws ++ c :: more)))
    = Some (mkChopped
              (mkView (utf8_encode_all (c :: more)) (encoded_size c)) c
              (view_of (utf8_encode_all more))).
Proof.
  induction ws as [|w ws IH]; intros c more fuel Hall Hws Hc Hfuel.
  - destruct fuel as [|fuel]; [simpl in Hfuel; lia|].
    pose proof (Forall_inv Hall) as Hsc. unfold scalar_value in Hsc.
    cbn [app next_char utf8_encode_all flat_map].
    rewrite utf8_chop_char_view_of by lia. cbn [code]. rewrite Hc. reflexivity.
  - destruct fuel as [|fuel]; [simpl in Hfuel; lia|].
    pose proof (Forall_inv Hall) as Hsw. unfold scalar_value in Hsw.
    simpl in Hws. apply andb_true_iff in Hws as [Hw Hws].
    cbn [app next_char utf8_encode_all flat_map].
    rewrite utf8_chop_char_view_of by lia. cbn [code rest]. rewrite Hw.
    apply IH; try assumption.
    + exact (Forall_inv_tail Hall).
    + simpl in Hfuel. lia.
Qed.

(** X11.  Whitespace skipping.  On a well-formed legend that starts with
    any number of whitespace code points followed by a code point [c] that
    is not whitespace, the [do ... while] of the extraction returns [c]
    with exactly its encoding bytes and leaves the cursor right after
    them. *)
Theorem next_char_skips_whitespace (ws : list Z) (c : Z) (more : list Z) :
  Forall scalar_value (ws ++ c :: more) ->
  forallb char_is_space ws = true ->
  char_is_space c = false ->
  exists ch,
    next_char (length (utf8_encode_all (ws ++ c :: more)))
      (view_of (utf8_encode_all (ws ++ c :: more))) = Some ch /\
    code ch = c /\
    view_bytes (slice ch) = utf8_encode c /\
    Utf8.rest ch = view_of (utf8_encode_all more).
Proof.
  intros Hall Hws Hc.
  eexists. split.
  - apply next_char_skips; try assumption.
    pose proof (utf8_encode_all_length (ws ++ c :: more)) as Hlen.
    rewrite length_app in Hlen. simpl in Hlen. lia.
  - cbn [code slice Utf8.rest]. split; [reflexivity|]. split; [|reflexivity].
    cbn [utf8_encode_all flat_map]. apply view_bytes_prefix.
Qed.

Lemma next_char_skips_whitespace_witness :
  exists ch,
    next_char (length (utf8_encode_all ([0x20; 0x0a] ++ 0x20ac :: [0x42])))
      (view_of (utf8_encode_all ([0x20; 0x0a] ++ 0x20ac :: [0x42]))) = Some ch /\
    code ch = 0x20ac /\
    view_bytes (slice ch) = utf8_encode 0x20ac /\
    Utf8.rest ch = view_of (utf8_encode_all [0x42]).
Proof.
  apply (next_char_skips_whitespace [0x20; 0x0a] 0x20ac [0x42]).
  - unfold scalar_value. repeat constructor; lia.
  - reflexivity.
  - reflexivity.
Defined.

End Utf8Extras.

(** * Further properties of the extraction *)

Section ExtractExtras.
Import Arena Utf8 Font8x8 Spec.

(** X12.  No partial or mismatched table.  Whatever the arena, the legend
    bytes and the pixel buffer, if [main] reaches [glyphs_print] then the
    legend decodes to the end, it has exactly as many non-whitespace code
    points as the grid has non-empty cells, and the table is these two
    sequences paired position by position: record [i] holds the [i]-th
    code point, its bytes followed by a 0, and the expansion of the [i]-th
    non-empty cell. *)
Theorem main_prints_exact_pairing (a : Arena) (font_chars : list Z)
    (font : Font) (gl : list Glyph) :
  main a font_chars font = Printed gl ->
  exists chars,
    Decodes (view_of font_chars) chars /\
    length (filter nonspace chars) = length (nonempty_cells font) /\
    gl = paired_glyphs font (filter nonspace chars) (nonempty_cells font).
Proof. apply main_printed_exact. Qed.

Lemma main_prints_exact_pairing_witness :
  exists chars,
    Decodes (view_of [0x20; 0x41]) chars /\
    length (filter nonspace chars) = length (nonempty_cells sample_font) /\
    paired_glyphs sample_font [(0x41, [0x41])] [(0, 8)]
    = paired_glyphs sample_font (filter nonspace chars)
        (nonempty_cells sample_font).
Proof.
  apply (main_prints_exact_pairing sample_arena [0x20; 0x41] sample_font).
  vm_compute. reflexivity.
Defined.

(** X13.  Order of the checks.  A legend the validator refuses makes [main]
    return 1 for invalid UTF-8 whatever the image and the arena.  A legend
    it accepts, together with a width or height that is not a multiple of
    8, makes [main] return 1 for the dimensions before anything is
    allocated: not even an exhausted arena changes that outcome. *)
Theorem main_checks_before_allocating (a : Arena) (font_chars : list Z)
    (font : Font) :
  (utf8_validate (view_of font_chars) = Some false ->
   main a font_chars font = Failed InvalidUtf8) /\
  (utf8_validate (view_of font_chars) = Some true ->
   Z.rem (width font) GLYPH_WIDTH <> 0 \/ Z.rem (height font) GLYPH_HEIGHT <> 0 ->
   main a font_chars font = Failed BadDimensions).
Proof.
  unfold main. fold (view_of font_chars). split.
  - intros ->. reflexivity.
  - intros Hv Hdim. rewrite Hv.
    destruct (utf8_validate_Decodes _ Hv) as [chars Hchars].
    pose proof (Decodes_length _ _ Hchars) as [Hlen _].
    rewrite (count_chars_Decodes _ _ Hchars) by lia.
    destruct (Z.eqb_spec (Z.rem (width font) GLYPH_WIDTH) 0);
      destruct (Z.eqb_spec (Z.rem (height font) GLYPH_HEIGHT) 0);
      try reflexivity.
    tauto.
Qed.

Lemma main_checks_before_allocating_witness :
  main (mkArena 64 64) [0x41] (mkFont 12 8 1 []) = Failed BadDimensions.
Proof.
  apply (proj2 (main_checks_before_allocating (mkArena 64 64) [0x41]
                  (mkFont 12 8 1 []))).
  - reflexivity.
  - left. vm_compute. discriminate.
Defined.

Lemma grid_cells_length (font : Font) :
  length (grid_cells font)
  = (Z.to_nat (height font / GLYPH_HEIGHT) * Z.to_nat (width font / GLYPH_WIDTH))%nat.
Proof.
  unfold grid_cells.
  generalize (Z.to_nat (width font / GLYPH_WIDTH)) as cols.
  generalize (Z.to_nat (height font / GLYPH_HEIGHT)) as rows.
  intros rows cols.
  assert (Hgen : forall start,
             length
               (flat_map
                  (fun r => map (fun c => (GLYPH_HEIGHT * Z.of_nat r,
                                           GLYPH_WIDTH * Z.of_nat c))
                                (seq 0 cols))
                  (seq start rows))
             = (rows * cols)%nat).
  { induction rows as [|rows IH]; intros start; cbn [seq flat_map];
      [reflexivity|].
    rewrite length_app, length_map, length_seq, IH. reflexivity. }
  apply Hgen.
Qed.

(** X14.  Scan order.  When width and height are multiples of 8 the two
    nested grid loops are one pass over the cells in row-major order: row
    [r], column [c] is visited as cell number [r * (width / 8) + c], with
    top-left pixel [(8 r, 8 c)], and there are
    [(height / 8) * (width / 8)] cells in all. *)
Theorem scan_grid_row_major (font : Font) (n : Z) (st : Scan) :
  Z.rem (width font) GLYPH_WIDTH = 0 ->
  Z.rem (height font) GLYPH_HEIGHT = 0 ->
  scan_grid font n st = scan_cells font n (grid_cells font) st /\
  length (grid_cells font)
  = (Z.to_nat (height font / GLYPH_HEIGHT) * Z.to_nat (width font / GLYPH_WIDTH))%nat /\
  forall r c,
    (r < Z.to_nat (height font / GLYPH_HEIGHT))%nat ->
    (c < Z.to_nat (width font / GLYPH_WIDTH))%nat ->
    nth_error (grid_cells font) (r * Z.to_nat (width font / GLYPH_WIDTH) + c)
    = Some (GLYPH_HEIGHT * Z.of_nat r, GLYPH_WIDTH * Z.of_nat c).
Proof.
  intros Hw Hh. split; [apply scan_grid_cells; assumption|].
  split; [apply grid_cells_length|].
  unfold grid_cells.
  generalize (Z.to_nat (width font / GLYPH_WIDTH)) as cols.
  generalize (Z.to_nat (height font / GLYPH_HEIGHT)) as rows.
  intros rows cols r c Hr Hc.
  assert (Hgen : forall rows start r,
             (r < rows)%nat ->
             nth_error
               (flat_map
                  (fun r0 => map (fun c0 => (GLYPH_HEIGHT * Z.of_nat r0,
                                             GLYPH_WIDTH * Z.of_nat c0))
                                 (seq 0 cols))
                  (seq start rows))
               (r * cols + c)
             = Some (GLYPH_HEIGHT * Z.of_nat (start + r), GLYPH_WIDTH * Z.of_nat c)).
  { clear rows r Hr. induction rows as [|rows IH]; intros start r Hr; [lia|].
    cbn [seq flat_map].
    destruct r as [|r].
    - rewrite nth_error_app1 by (rewrite length_map, length_seq; simpl; lia).
      rewrite nth_error_map. simpl.
      rewrite (nth_error_nth' (seq 0 cols) 0%nat)
        by (rewrite length_seq; assumption).
      rewrite seq_nth by assumption. simpl. rewrite Nat.add_0_r. reflexivity.
    - rewrite nth_error_app2 by (rewrite length_map, length_seq; simpl; lia).
      rewrite length_map, length_seq.
      replace (S r * cols + c - cols)%nat with (r * cols + c)%nat by (simpl; lia).
      rewrite IH by lia. do 3 f_equal. lia. }
  rewrite (Hgen rows 0%nat r Hr). reflexivity.
Qed.

Lemma scan_grid_row_major_witness :
  nth_error (grid_cells sample_font) (0 * Z.to_nat (16 / GLYPH_WIDTH) + 1)
  = Some (GLYPH_HEIGHT * Z.of_nat 0, GLYPH_WIDTH * Z.of_nat 1).
Proof.
  apply (proj2 (proj2 (scan_grid_row_major sample_font 1
                         (mkScan sample_arena (view_of [0x41]) [])
                         eq_refl eq_refl)) 0%nat 1%nat).
  - vm_compute. lia.
  - vm_compute. lia.
Defined.

End ExtractExtras.

(** * The glyph dump *)

Section PrintExtras.
Import Arena Utf8 Font8x8 Print Spec.

Lemma c_string_terminated (bytes : list Z) :
  c_string (bytes ++ [0]) = Some (before_nul bytes).
Proof.
  induction bytes as [|b bytes IH]; simpl; [reflexivity|].
  destruct (b =? 0); [reflexivity|]. rewrite IH. reflexivity.
Qed.

Lemma c_string_some (bytes : list Z) :
  In 0 bytes -> c_string bytes = Some (before_nul bytes).
Proof.
  induction bytes as [|b bytes IH]; intros Hin; simpl in *; [contradiction|].
  destruct (Z.eqb_spec b 0) as [|Hb]; [reflexivity|].
  destruct Hin as [|Hin]; [congruence|]. rewrite IH by assumption. reflexivity.
Qed.

Lemma c_string_in (bytes text : list Z) :
  c_string bytes = Some text -> In 0 bytes.
Proof.
  revert text. induction bytes as [|b bytes IH]; intros text H; simpl in *;
    [discriminate|].
  destruct (Z.eqb_spec b 0) as [->|Hb]; [left; reflexivity|].
  destruct (c_string bytes) as [t|]; [|discriminate].
  right. eapply IH. reflexivity.
Qed.

(** The row loop reads its eight words in order. *)
Lemma print_row_some (bitmap : list Z) (y : Z) (fuel : nat) :
  forall x,
    0 <= y -> 0 <= x -> x + Z.of_nat fuel <= GLYPH_WIDTH ->
    (Z.to_nat (y * GLYPH_WIDTH + x) + fuel <= length bitmap)%nat ->
    print_row bitmap y fuel x =
      Some (map (fun i => Cell (cell_char
                                  (nth (Z.to_nat (y * GLYPH_WIDTH + i)) bitmap 0)))
                (zrange x fuel)).
Proof.
  unfold GLYPH_WIDTH.
  induction fuel as [|fuel IH]; intros x Hy Hx Hfuel Hlen;
    cbn [print_row zrange map]; [reflexivity|].
  unfold GLYPH_WIDTH.
  destruct (Z.ltb_spec x 8); [|lia].
  unfold bitmap_at. destruct (Z.ltb_spec (y * 8 + x) 0); [lia|].
  destruct (nth_error bitmap (Z.to_nat (y * 8 + x))) as [word|] eqn:Hw.
  2:{ apply nth_error_None in Hw. lia. }
  rewrite IH by lia.
  rewrite (nth_error_nth _ _ 0 Hw). reflexivity.
Qed.

Lemma print_row_reads (bitmap : list Z) (y : Z) (fuel : nat) :
  forall x out,
    x + Z.of_nat fuel <= GLYPH_WIDTH ->
    print_row bitmap y fuel x = Some out ->
    forall i, x <= i < x + Z.of_nat fuel ->
      bitmap_at bitmap (y * GLYPH_WIDTH + i) <> None.
Proof.
  unfold GLYPH_WIDTH.
  induction fuel as [|fuel IH]; intros x out Hfuel Hrun i Hi; [lia|].
  cbn [print_row] in Hrun. unfold GLYPH_WIDTH in Hrun.
  destruct (Z.ltb_spec x 8); [|lia].
  destruct (bitmap_at bitmap (y * 8 + x)) as [word|] eqn:Hw;
    [|discriminate].
  destruct (print_row bitmap y fuel (x + 1)) as [out'|] eqn:Hrow; [|discriminate].
  destruct (Z.eq_dec i x) as [->|Hne]; [congruence|].
  apply (IH (x + 1) out'); [lia | exact Hrow | lia].
Qed.

Lemma print_rows_some (bitmap : list Z) (fuel : nat) :
  forall y,
    0 <= y -> y + Z.of_nat fuel <= GLYPH_HEIGHT ->
    (64 <= length bitmap)%nat ->
    print_rows bitmap fuel y =
      Some (flat_map
              (fun j =>
                 map (fun i => Cell (cell_char
                                       (nth (Z.to_nat (j * GLYPH_WIDTH + i))
                                            bitmap 0)))
                     offsets
                 ++ [Newline])
              (zrange y fuel)).
Proof.
  unfold GLYPH_HEIGHT.
  induction fuel as [|fuel IH]; intros y Hy Hfuel Hlen;
    cbn [print_rows zrange flat_map]; [reflexivity|].
  unfold GLYPH_HEIGHT. destruct (Z.ltb_spec y 8); [|lia].
  rewrite print_row_some
    by (unfold GLYPH_WIDTH; change (Z.to_nat 8) with 8%nat; lia).
  rewrite IH by lia.
  change (zrange 0 (Z.to_nat 8)) with offsets.
  rewrite <- app_assoc. reflexivity.
Qed.

Lemma print_rows_reads (bitmap : list Z) (fuel : nat) :
  forall y out,
    y + Z.of_nat fuel <= GLYPH_HEIGHT ->
    print_rows bitmap fuel y = Some out ->
    forall j i, y <= j < y + Z.of_nat fuel -> 0 <= i < GLYPH_WIDTH ->
      bitmap_at bitmap (j * GLYPH_WIDTH + i) <> None.
Proof.
  unfold GLYPH_HEIGHT.
  induction fuel as [|fuel IH]; intros y out Hfuel Hrun j i Hj Hi; [lia|].
  cbn [print_rows] in Hrun. unfold GLYPH_HEIGHT in Hrun.
  destruct (Z.ltb_spec y 8); [|lia].
  destruct (print_row bitmap y (Z.to_nat GLYPH_WIDTH) 0) as [row|] eqn:Hrow;
    [|discriminate].
  destruct (print_rows bitmap fuel (y + 1)) as [out'|] eqn:Hrows; [|discriminate].
  destruct (Z.eq_dec j y) as [->|Hne].
  - apply (print_row_reads bitmap y (Z.to_nat GLYPH_WIDTH) 0 row);
      [unfold GLYPH_WIDTH; simpl; lia | exact Hrow |
       unfold GLYPH_WIDTH in *; simpl; lia].
  - apply (IH (y + 1) out'); [lia | exact Hrows | lia | lia].
Qed.

(** X15.  One glyph of the dump.  [print_glyph] stays inside its two arrays
    exactly when [char_data] holds a terminating 0 and [bitmap] has at least
    64 words.  It then prints the bytes of [char_data] before the first 0
    together with the code point, then for each of the 8 rows 8 characters
    and a newline, then a closing newline (74 [printf] calls), and the
    character at [(y, x)] is ['@'] exactly when the top byte of
    [bitmap[y * 8 + x]] is not 0. *)
Theorem print_glyph_layout (g : Glyph) :
  (print_glyph g <> None <->
   In 0 (char_data g) /\ (64 <= length (bitmap g))%nat) /\
  (In 0 (char_data g) -> (64 <= length (bitmap g))%nat ->
   print_glyph g =
     Some (Header (before_nul (char_data g)) (char_code g)
           :: flat_map
                (fun y =>
                   map (fun x =>
                          Cell (if Z.land (Z.shiftr
                                             (nth (Z.to_nat (y * 8 + x))
                                                  (bitmap g) 0) 24) 0xff =? 0
                                then 32 else 64))
                       offsets
                   ++ [Newline])
                offsets
           ++ [Newline])).
Proof.
  assert (Hsome : In 0 (char_data g) -> (64 <= length (bitmap g))%nat ->
                  print_glyph g =
                    Some (Header (before_nul (char_data g)) (char_code g)
                          :: flat_map
                               (fun y =>
                                  map (fun x =>
                                         Cell (cell_char
                                                 (nth (Z.to_nat (y * GLYPH_WIDTH + x))
                                                      (bitmap g) 0)))
                                      offsets
                                  ++ [Newline])
                               offsets
                          ++ [Newline])).
  { intros Hnul Hlen. unfold print_glyph.
    rewrite (c_string_some _ Hnul).
    rewrite print_rows_some by (unfold GLYPH_HEIGHT; simpl; lia).
    reflexivity. }
  split; [split|exact Hsome].
  - intros Hdef. unfold print_glyph in Hdef.
    destruct (c_string (char_data g)) as [text|] eqn:Htext; [|contradiction].
    split; [eapply c_string_in; eassumption|].
    destruct (print_rows (bitmap g) (Z.to_nat GLYPH_HEIGHT) 0) as [art|] eqn:Hart;
      [|contradiction].
    assert (Hlast : bitmap_at (bitmap g) (7 * GLYPH_WIDTH + 7) <> None).
    { apply (print_rows_reads (bitmap g) (Z.to_nat GLYPH_HEIGHT) 0 art);
        [unfold GLYPH_HEIGHT; simpl; lia | exact Hart |
         unfold GLYPH_HEIGHT; simpl; lia | unfold GLYPH_WIDTH; lia]. }
    unfold bitmap_at, GLYPH_WIDTH in Hlast.
    change (7 * 8 + 7 <? 0) with false in Hlast. cbv iota in Hlast.
    apply nth_error_Some in Hlast. lia.
  - intros [Hnul Hlen]. rewrite (Hsome Hnul Hlen). discriminate.
Qed.

Lemma cell_char_expand (color : option Z) :
  cell_char (expand color) = if is_ink color then 64 else 32.
Proof. unfold expand. destruct (is_ink color); reflexivity. Qed.

Lemma flat_map_ext_in {A B : Type} (f g : A -> list B) (l : list A) :
  (forall a, In a l -> f a = g a) -> flat_map f l = flat_map g l.
Proof.
  induction l as [|a l IH]; intros H; simpl; [reflexivity|].
  rewrite (H a) by (left; reflexivity). f_equal.
  apply IH. intros b Hb. apply H. right. assumption.
Qed.

Lemma offsets_range (x : Z) : In x offsets -> 0 <= x < 8.
Proof. unfold offsets. simpl. lia. Qed.

(** The record of a character and a cell prints as the picture of the
    cell. *)
Lemma print_glyph_of (font : Font) (ch : Z * list Z) (cell : Z * Z) :
  print_glyph (glyph_of font ch cell) = Some (glyph_dump font ch cell).
Proof.
  unfold print_glyph, glyph_of, glyph_dump. cbn [char_data bitmap char_code].
  rewrite c_string_terminated.
  rewrite print_rows_some;
    [| lia | unfold GLYPH_HEIGHT; simpl; lia
     | unfold cell_bitmap; rewrite length_map, cell_pixels_length; lia].
  change (zrange 0 (Z.to_nat GLYPH_HEIGHT)) with offsets.
  do 3 f_equal. unfold art_of_cell.
  apply flat_map_ext_in. intros y Hy. f_equal.
  apply map_ext_in. intros x Hx. f_equal.
  apply offsets_range in Hy. apply offsets_range in Hx.
  unfold cell_bitmap.
  pose proof (cell_pixels_nth font cell y x ltac:(unfold GLYPH_HEIGHT; lia)
                ltac:(unfold GLYPH_WIDTH; lia)) as Hnth.
  rewrite (nth_error_nth (map expand (cell_pixels font cell)) _ 0
             (x := expand (cell_pixel font cell y x)))
    by (rewrite nth_error_map, Hnth; reflexivity).
  apply cell_char_expand.
Qed.

Lemma print_from_all (glyphs : list Glyph) (fuel : nat) :
  forall i outs,
    0 <= i ->
    (Z.to_nat i + fuel = length glyphs)%nat ->
    Forall2 (fun g out => print_glyph g = Some out)
            (skipn (Z.to_nat i) glyphs) outs ->
    print_from glyphs fuel i (Z.of_nat (length glyphs)) = Some (concat outs).
Proof.
  induction fuel as [|fuel IH]; intros i outs Hi Hlen Hall.
  - rewrite skipn_all2 in Hall by lia. inversion Hall. reflexivity.
  - cbn [print_from].
    destruct (Z.ltb_spec i (Z.of_nat (length glyphs))); [|lia].
    destruct (Z.ltb_spec i 0); [lia|].
    destruct (nth_error glyphs (Z.to_nat i)) as [g|] eqn:Hg.
    2:{ apply nth_error_None in Hg. lia. }
    assert (Hskip : skipn (Z.to_nat i) glyphs
                    = g :: skipn (Z.to_nat (i + 1)) glyphs).
    { replace (Z.to_nat (i + 1)) with (S (Z.to_nat i)) by lia.
      clear -Hg. revert glyphs Hg.
      induction (Z.to_nat i) as [|k IHk]; intros glyphs Hg;
        destruct glyphs as [|g0 glyphs]; try discriminate.
      - simpl in Hg. injection Hg as ->. reflexivity.
      - simpl in Hg |- *. apply IHk. assumption. }
    rewrite Hskip in Hall.
    inversion Hall as [|g' out gs outs' Hout Hrest]; subst.
    rewrite Hout, (IH (i + 1) outs') by (lia || assumption).
    reflexivity.
Qed.

Lemma glyphs_print_paired (font : Font) (chars : list (Z * list Z))
    (cells : list (Z * Z)) :
  glyphs_print (paired_glyphs font chars cells)
    (Z.of_nat (length (paired_glyphs font chars cells))) =
    Some (concat (map (fun p => glyph_dump font (fst p) (snd p))
                      (combine chars cells))).
Proof.
  unfold glyphs_print. rewrite Nat2Z.id.
  apply print_from_all; [lia | simpl; lia |].
  simpl. unfold paired_glyphs.
  induction (combine chars cells) as [|p l IH];
    simpl; constructor; [apply print_glyph_of | assumption].
Qed.

(** X16.  The dump of a run that succeeds.  Whenever [main] hands a table to
    [glyphs_print], the printing stays inside the records and writes, for
    each pair of the [i]-th non-whitespace legend character and the [i]-th
    non-empty cell in turn: the bytes of the character before any 0 and its
    code point, then the 8 x 8 picture of the cell with ['@'] exactly where
    the first channel byte of the pixel is 0 and [' '] elsewhere, row by
    row. *)
Theorem main_dump (a : Arena) (font_chars : list Z) (font : Font)
    (gl : list Glyph) :
  main a font_chars font = Printed gl ->
  exists chars,
    Decodes (view_of font_chars) chars /\
    glyphs_print gl (Z.of_nat (length gl)) =
      Some (concat (map (fun p => glyph_dump font (fst p) (snd p))
                        (combine (filter nonspace chars) (nonempty_cells font)))).
Proof.
  intros Hmain.
  destruct (main_printed_exact a font_chars font gl Hmain)
    as (chars & Hchars & _ & ->).
  exists chars. split; [assumption|]. apply glyphs_print_paired.
Qed.

Lemma main_dump_witness :
  exists chars,
    Decodes (view_of [0x41]) chars /\
    glyphs_print (paired_glyphs sample_font [(0x41, [0x41])] [(0, 8)])
      (Z.of_nat (length (paired_glyphs sample_font [(0x41, [0x41])] [(0, 8)]))) =
      Some (concat (map (fun p => glyph_dump sample_font (fst p) (snd p))
                        (combine (filter nonspace chars)
                                 (nonempty_cells sample_font)))).
Proof.
  apply (main_dump sample_arena [0x41] sample_font).
  vm_compute. reflexivity.
Defined.

(** X17.  The name shown for a legend character.  [%s] stops at the first
    0 byte, so the record of U+0000 is shown with an empty name, while for
    every other code point up to U+10FFFF the name is its whole canonical
    encoding. *)
Theorem c_string_of_encoding (c : Z) :
  0 <= c <= 0x10ffff ->
  c_string (utf8_encode c ++ [0]) = Some (if c =? 0 then [] else utf8_encode c).
Proof.
  intros Hc. rewrite c_string_terminated. f_equal.
  unfold utf8_encode.
  destruct (Z.eqb_spec c 0) as [->|Hnz]; [reflexivity|].
  repeat match goal with
         | |- context [?x <? ?y] => destruct (Z.ltb_spec x y)
         end;
    cbn [before_nul];
    repeat match goal with
           | |- context [?x =? 0] => destruct (Z.eqb_spec x 0); [dlia|]
           end;
    reflexivity.
Qed.

Lemma c_string_of_encoding_witness :
  c_string (utf8_encode 0x20ac ++ [0])
  = Some (if 0x20ac =? 0 then [] else utf8_encode 0x20ac).
Proof.
  apply (c_string_of_encoding 0x20ac). lia.
Defined.

End PrintExtras.

(** * Reading the legend file *)

Section FileExtras.
Import Arena Spec FileIO.

Lemma map_seq_nth {A : Type} (f : nat -> A) (d : A) :
  forall n s i, (i < n)%nat -> nth i (map f (seq s n)) d = f (s + i)%nat.
Proof.
  induction n as [|n IH]; intros s i Hi; [lia|].
  simpl. destruct i as [|i]; [f_equal; lia|].
  rewrite IH by lia. f_equal. lia.
Qed.

Lemma load_bytes_length (m : Mem) (p : Z) (n : nat) :
  length (load_bytes m p n) = n.
Proof. unfold load_bytes. rewrite length_map, length_seq. reflexivity. Qed.

Lemma load_bytes_nth (m : Mem) (p : Z) (n i : nat) :
  (i < n)%nat -> nth i (load_bytes m p n) 0 = m (p + Z.of_nat i).
Proof. intros Hi. unfold load_bytes. rewrite map_seq_nth by lia. reflexivity. Qed.

Lemma load_bytes_app (m : Mem) (p : Z) (n k : nat) :
  load_bytes m p (n + k)
  = load_bytes m p n ++ load_bytes m (p + Z.of_nat n) k.
Proof.
  apply (nth_ext _ _ 0 0).
  - rewrite length_app, !load_bytes_length. reflexivity.
  - rewrite load_bytes_length. intros i Hi.
    rewrite load_bytes_nth by assumption.
    destruct (Nat.lt_ge_cases i n) as [Hlt|Hge].
    + rewrite app_nth1 by (rewrite load_bytes_length; assumption).
      rewrite load_bytes_nth by assumption. reflexivity.
    + rewrite app_nth2 by (rewrite load_bytes_length; assumption).
      rewrite load_bytes_length, load_bytes_nth by lia. f_equal. lia.
Qed.

Lemma load_bytes_at (m m' : Mem) (p p' : Z) (n : nat) :
  load_bytes m' p' n = load_bytes m p n ->
  forall i, 0 <= i < Z.of_nat n -> m' (p' + i) = m (p + i).
Proof.
  intros Heq i Hi.
  apply (f_equal (fun l => nth (Z.to_nat i) l 0)) in Heq.
  rewrite !load_bytes_nth in Heq by lia.
  rewrite Z2Nat.id in Heq by lia. assumption.
Qed.

Lemma store_bytes_out (m : Mem) (p : Z) (bytes : list Z) (addr : Z) :
  ~ (p <= addr < p + Z.of_nat (length bytes)) ->
  store_bytes m p bytes addr = m addr.
Proof.
  intros Hout. unfold store_bytes.
  destruct (Z.leb_spec p addr);
    destruct (Z.ltb_spec addr (p + Z.of_nat (length bytes)));
    simpl; try reflexivity. lia.
Qed.

Lemma load_store_bytes (m : Mem) (p : Z) (bytes : list Z) :
  load_bytes (store_bytes m p bytes) p (length bytes) = bytes.
Proof.
  apply (nth_ext _ _ 0 0).
  - apply load_bytes_length.
  - rewrite load_bytes_length. intros i Hi.
    rewrite load_bytes_nth by assumption. unfold store_bytes.
    destruct (Z.leb_spec p (p + Z.of_nat i)); [|lia].
    destruct (Z.ltb_spec (p + Z.of_nat i) (p + Z.of_nat (length bytes))); [|lia].
    simpl. f_equal. lia.
Qed.

(** The bytes of the string after [fread] stored a whole file behind
    them. *)
Lemma read_contents (m1 m : Mem) (p p0 old_size file_size : Z)
    (bytes : list Z) :
  0 <= old_size -> 0 <= file_size ->
  length bytes = Z.to_nat file_size ->
  (forall i, 0 <= i < old_size -> m1 (p + i) = m (p0 + i)) ->
  load_bytes (store_bytes m1 (p + old_size) (firstn (Z.to_nat file_size) bytes))
             p (Z.to_nat (old_size + file_size))
  = load_bytes m p0 (Z.to_nat old_size) ++ bytes.
Proof.
  intros Hold Hfile Hlen Hkeep.
  rewrite Z2Nat.inj_add by lia. rewrite load_bytes_app.
  rewrite Z2Nat.id by lia. rewrite firstn_all2 by lia. f_equal.
  - apply load_bytes_ext. intros i Hi.
    rewrite store_bytes_out by lia. apply Hkeep. lia.
  - rewrite <- Hlen. apply load_store_bytes.
Qed.

(** What a successful [file_read_to_string] leaves behind. *)
Lemma file_read_ok (f : File) (string : String) (arena : Arena) (m : Mem)
    (string' : String) (arena' : Arena) (m' : Mem) :
  0 <= size string <= capacity string ->
  data string mod ARENA_DEFAULT_ALIGNMENT = 0 ->
  length (fread_bytes f) = Z.to_nat (ftell_result f) ->
  file_read_to_string (Some f) string arena m = ReadRet true string' arena' m' ->
  0 <= ftell_result f /\
  size string' = size string + ftell_result f /\
  size string' <= capacity string' /\
  data string' mod ARENA_DEFAULT_ALIGNMENT = 0 /\
  Utf8.data (as_string_view string' m')
    = Utf8.data (as_string_view string m) ++ fread_bytes f /\
  (size string + ftell_result f <= capacity string ->
   data string' = data string /\ capacity string' = capacity string /\
   arena' = arena) /\
  (capacity string < size string + ftell_result f ->
   capacity string' = size string + ftell_result f /\
   data string' + capacity string' = begin arena' /\
   begin arena' <= end_ arena).
Proof.
  intros Hsz Halign Hfull Hrun. unfold file_read_to_string in Hrun.
  destruct (fseek_end f <? 0); [discriminate|].
  destruct (Z.ltb_spec (ftell_result f) 0) as [|Hft]; [discriminate|].
  destruct (fseek_set f <? 0); [discriminate|].
  split; [assumption|].
  destruct (Z.gtb_spec (size string + ftell_result f) (capacity string))
    as [Hgrow|Hfits].
  - destruct (arena_realloc arena m (data string) (capacity string)
                (size string + ftell_result f)) as [[why|ptr a1] m1] eqn:Hre;
      [discriminate|].
    apply arena_realloc_ret in Hre as (Hkeep & _ & _ & Hnew);
      [|lia|assumption].
    destruct (Hnew ltac:(lia)) as (Hal & Hend & Hle).
    unfold read_into in Hrun. cbn [data size capacity] in Hrun.
    destruct (negb (ferror_result f =? 0)); [discriminate|].
    injection Hrun as <- <- <-. cbn [data size capacity].
    repeat split; try lia; try assumption.
    unfold as_string_view. cbn [Utf8.data data size].
    apply read_contents; try lia.
    intros i Hi. apply (load_bytes_at _ _ _ _ _ Hkeep). lia.
  - unfold read_into in Hrun.
    destruct (negb (ferror_result f =? 0)); [discriminate|].
    injection Hrun as <- <- <-. cbn [data size capacity].
    repeat split; try lia; try assumption.
    unfold as_string_view. cbn [Utf8.data data size].
    apply read_contents; try lia; reflexivity.
Qed.

(** With the three stream calls succeeding and room in the arena for the
    grown buffer, [file_read_to_string] returns, and reports the error flag
    of the stream. *)
Lemma file_read_runs (f : File) (string : String) (arena : Arena) (m : Mem) :
  0 <= fseek_end f -> 0 <= ftell_result f -> 0 <= fseek_set f ->
  0 <= size string -> 0 <= capacity string ->
  size string + ftell_result f + 15 <= remaining arena ->
  exists string' arena' m',
    file_read_to_string (Some f) string arena m
      = ReadRet (ferror_result f =? 0) string' arena' m' /\
    remaining arena - 15 - (size string + ftell_result f) <= remaining arena'.
Proof.
  intros Hse Hft Hss Hsz Hcap Hroom. unfold file_read_to_string.
  destruct (Z.ltb_spec (fseek_end f) 0); [lia|].
  destruct (Z.ltb_spec (ftell_result f) 0); [lia|].
  destruct (Z.ltb_spec (fseek_set f) 0); [lia|].
  assert (Hinto : forall s a m0,
             exists s', read_into f (ftell_result f) s a m0
                        = ReadRet (ferror_result f =? 0) s' a
                            (store_bytes m0 (data s + size s)
                               (firstn (Z.to_nat (ftell_result f)) (fread_bytes f)))).
  { intros s a m0. unfold read_into.
    destruct (ferror_result f =? 0); simpl; eauto. }
  destruct (Z.gtb_spec (size string + ftell_result f) (capacity string))
    as [Hgrow|Hfits].
  - unfold arena_realloc.
    destruct (Z.geb_spec (capacity string) (size string + ftell_result f)); [lia|].
    destruct (negb (data string =? NULL)
              && (data string + capacity string =? begin arena)) eqn:Hlast.
    + apply andb_true_iff in Hlast as [_ Hadj]. apply Z.eqb_eq in Hadj.
      destruct (arena_alloc_aligned_room
                  {| begin := data string; end_ := end_ arena |}
                  (size string + ftell_result f) ARENA_DEFAULT_ALIGNMENT
                  eq_refl ltac:(unfold ARENA_DEFAULT_ALIGNMENT; lia) ltac:(lia))
        as (ptr & a1 & Hcall & Hrem).
      { unfold remaining, ARENA_DEFAULT_ALIGNMENT in *. simpl. lia. }
      unfold arena_alloc. rewrite Hcall.
      destruct (Hinto {| data := ptr; size := size string;
                         capacity := size string + ftell_result f |} a1 m)
        as [s' ->].
      eexists _, _, _. split; [reflexivity|].
      unfold remaining, ARENA_DEFAULT_ALIGNMENT in *. simpl in Hrem. lia.
    + destruct (arena_alloc_aligned_room arena
                  (size string + ftell_result f) ARENA_DEFAULT_ALIGNMENT
                  eq_refl ltac:(unfold ARENA_DEFAULT_ALIGNMENT; lia) ltac:(lia))
        as (ptr & a1 & Hcall & Hrem).
      { unfold ARENA_DEFAULT_ALIGNMENT. lia. }
      unfold arena_alloc. rewrite Hcall.
      destruct (Hinto {| data := ptr; size := size string;
                         capacity := size string + ftell_result f |} a1
                  (memcpy m ptr (data string) (capacity string)))
        as [s' ->].
      eexists _, _, _. split; [reflexivity|].
      unfold ARENA_DEFAULT_ALIGNMENT in *. lia.
  - destruct (Hinto string arena m) as [s' ->].
    eexists _, _, _. split; [reflexivity|]. lia.
Qed.

(** X18.  Appending a file to a string.  Take a string whose size is within
    its capacity and whose buffer is 16-aligned (as [arena_alloc] hands it
    out; the empty string [{0}] counts), and a stream whose [fread]
    delivers the [ftell] bytes of the file.  When [file_read_to_string]
    returns [true], the string's bytes are the old bytes followed by the
    file's, its size grew by the file size and stays within its capacity,
    and its buffer is still 16-aligned; a file that fits in the capacity
    leaves buffer, capacity and arena as they were, and one that does not
    makes the capacity exactly the new size, in a block that ends at the
    arena's new [begin]. *)
Theorem file_read_to_string_appends (f : File) (string : String)
    (arena : Arena) (m : Mem) (string' : String) (arena' : Arena) (m' : Mem) :
  0 <= size string <= capacity string ->
  data string mod ARENA_DEFAULT_ALIGNMENT = 0 ->
  length (fread_bytes f) = Z.to_nat (ftell_result f) ->
  file_read_to_string (Some f) string arena m = ReadRet true string' arena' m' ->
  0 <= ftell_result f /\
  size string' = size string + ftell_result f /\
  size string' <= capacity string' /\
  data string' mod ARENA_DEFAULT_ALIGNMENT = 0 /\
  Utf8.data (as_string_view string' m')
    = Utf8.data (as_string_view string m) ++ fread_bytes f /\
  (size string + ftell_result f <= capacity string ->
   data string' = data string /\ capacity string' = capacity string /\
   arena' = arena) /\
  (capacity string < size string + ftell_result f ->
   capacity string' = size string + ftell_result f /\
   data string' + capacity string' = begin arena' /\
   begin arena' <= end_ arena).
Proof. apply file_read_ok. Qed.

Lemma file_read_to_string_appends_witness :
  let m : Mem := fun addr => addr mod 256 in
  let f := mkFile 0 3 0 [0xe2; 0x82; 0xac] 0 in
  let string := mkString 65536 2 4 in
  let arena := mkArena 65540 131072 in
  let string' := mkString 65536 5 5 in
  let arena' := mkArena 65541 131072 in
  let m' := store_bytes m (65536 + 2) (firstn (Z.to_nat 3) [0xe2; 0x82; 0xac]) in
  0 <= ftell_result f /\
  size string' = size string + ftell_result f /\
  size string' <= capacity string' /\
  data string' mod ARENA_DEFAULT_ALIGNMENT = 0 /\
  Utf8.data (as_string_view string' m')
    = Utf8.data (as_string_view string m) ++ fread_bytes f /\
  (size string + ftell_result f <= capacity string ->
   data string' = data string /\ capacity string' = capacity string /\
   arena' = arena) /\
  (capacity string < size string + ftell_result f ->
   capacity string' = size string + ftell_result f /\
   data string' + capacity string' = begin arena' /\
   begin arena' <= end_ arena).
Proof.
  intros m f string arena string' arena' m'.
  apply (file_read_to_string_appends f string arena m string' arena' m').
  - simpl. lia.
  - reflexivity.
  - reflexivity.
  - reflexivity.
Defined.

(** X19.  A failed read loses nothing.  When [file_read_to_string] returns
    [false] on such a string, the string still views exactly the bytes it
    viewed before; and either nothing changed at all (the file could not be
    opened, or a seek or [ftell] failed), or the stream's error flag was
    set after the read. *)
Theorem file_read_to_string_failure (file : option File) (string : String)
    (arena : Arena) (m : Mem) (string' : String) (arena' : Arena) (m' : Mem) :
  0 <= size string <= capacity string ->
  data string mod ARENA_DEFAULT_ALIGNMENT = 0 ->
  file_read_to_string file string arena m = ReadRet false string' arena' m' ->
  as_string_view string' m' = as_string_view string m /\
  ((string' = string /\ arena' = arena /\ m' = m) \/
   (exists f, file = Some f /\ ferror_result f <> 0 /\
              0 <= fseek_end f /\ 0 <= ftell_result f /\ 0 <= fseek_set f)).
Proof.
  intros Hsz Halign Hrun. unfold file_read_to_string in Hrun.
  destruct file as [f|].
  2:{ injection Hrun as <- <- <-. split; [reflexivity | left; auto]. }
  destruct (Z.ltb_spec (fseek_end f) 0).
  { injection Hrun as <- <- <-. split; [reflexivity | left; auto]. }
  destruct (Z.ltb_spec (ftell_result f) 0).
  { injection Hrun as <- <- <-. split; [reflexivity | left; auto]. }
  destruct (Z.ltb_spec (fseek_set f) 0).
  { injection Hrun as <- <- <-. split; [reflexivity | left; auto]. }
  assert (Hview : forall ptr cap m1 a1,
             (forall i, 0 <= i < size string -> m1 (ptr + i) = m (data string + i)) ->
             read_into f (ftell_result f)
               {| data := ptr; size := size string; capacity := cap |} a1 m1
               = ReadRet false string' arena' m' ->
             as_string_view string' m' = as_string_view string m /\
             ferror_result f <> 0).
  { intros ptr cap m1 a1 Hkeep Hinto. unfold read_into in Hinto.
    cbn [data size capacity] in Hinto.
    destruct (Z.eqb_spec (ferror_result f) 0); [discriminate|].
    cbn [negb] in Hinto. injection Hinto as <- <- <-.
    split; [|assumption].
    unfold as_string_view. cbn [data size]. f_equal.
    apply load_bytes_ext. intros i Hi.
    rewrite store_bytes_out by lia. apply Hkeep. lia. }
  destruct (Z.gtb_spec (size string + ftell_result f) (capacity string))
    as [Hgrow|Hfits].
  - destruct (arena_realloc arena m (data string) (capacity string)
                (size string + ftell_result f)) as [[why|ptr a1] m1] eqn:Hre;
      [discriminate|].
    apply arena_realloc_ret in Hre as (Hkeep & _ & _ & _);
      [|lia|assumption].
    apply Hview in Hrun as [Hv Herr].
    + split; [assumption|]. right. exists f. repeat split; (assumption || lia).
    + intros i Hi. apply (load_bytes_at _ _ _ _ _ Hkeep). lia.
  - destruct string as [d s c]. cbn [data size capacity] in *.
    apply Hview in Hrun as [Hv Herr]; [|reflexivity].
    split; [assumption|]. right. exists f. repeat split; (assumption || lia).
Qed.

Lemma file_read_to_string_failure_witness :
  let m : Mem := fun addr => addr mod 256 in
  let f := mkFile 0 3 0 [0xe2] 1 in
  let string := mkString 65536 2 4 in
  let arena := mkArena 65540 131072 in
  let string' := mkString 65536 2 5 in
  let arena' := mkArena 65541 131072 in
  let m' := store_bytes m (65536 + 2) (firstn (Z.to_nat 3) [0xe2]) in
  as_string_view string' m' = as_string_view string m /\
  ((string' = string /\ arena' = arena /\ m' = m) \/
   (exists f0, Some f = Some f0 /\ ferror_result f0 <> 0 /\
               0 <= fseek_end f0 /\ 0 <= ftell_result f0 /\ 0 <= fseek_set f0)).
Proof.
  intros m f string arena string' arena' m'.
  apply (file_read_to_string_failure (Some f) string arena m string' arena' m').
  - simpl. lia.
  - reflexivity.
  - reflexivity.
Defined.

(** X20.  A short read goes unnoticed.  [file_read_to_string] never looks at
    the count [fread] returns: whenever it returns [true] the size has
    grown by the whole [ftell] result, however few bytes the stream
    delivered.  Past the delivered bytes the string then shows bytes the
    read never wrote: memory as it was before the call, for every address
    that lies behind the old capacity or, when the buffer was not grown,
    anywhere behind the delivered bytes. *)
Theorem file_read_to_string_short_read (f : File) (string : String)
    (arena : Arena) (m : Mem) (string' : String) (arena' : Arena) (m' : Mem) :
  file_read_to_string (Some f) string arena m = ReadRet true string' arena' m' ->
  size string' = size string + ftell_result f /\
  forall addr,
    data string' + size string + Z.of_nat (length (fread_bytes f)) <= addr ->
    data string' + capacity string <= addr \/
    size string + ftell_result f <= capacity string ->
    m' addr = m addr.
Proof.
  intros Hrun. unfold file_read_to_string in Hrun.
  destruct (fseek_end f <? 0); [discriminate|].
  destruct (Z.ltb_spec (ftell_result f) 0) as [|Hft]; [discriminate|].
  destruct (fseek_set f <? 0); [discriminate|].
  pose proof (length_firstn (Z.to_nat (ftell_result f)) (fread_bytes f))
    as Hshort.
  destruct (Z.gtb_spec (size string + ftell_result f) (capacity string))
    as [Hgrow|Hfits].
  - unfold arena_realloc in Hrun.
    destruct (Z.geb_spec (capacity string) (size string + ftell_result f));
      [lia|].
    destruct (negb (data string =? NULL)
              && (data string + capacity string =? begin arena)).
    + destruct (arena_alloc _ _) as [why|ptr a1]; [discriminate|].
      unfold read_into in Hrun. cbn [data size capacity] in Hrun.
      destruct (negb (ferror_result f =? 0)); [discriminate|].
      injection Hrun as <- <- <-. cbn [data size capacity].
      split; [reflexivity|]. intros addr Hpast _.
      apply store_bytes_out. lia.
    + destruct (arena_alloc _ _) as [why|ptr a1]; [discriminate|].
      unfold read_into in Hrun. cbn [data size capacity] in Hrun.
      destruct (negb (ferror_result f =? 0)); [discriminate|].
      injection Hrun as <- <- <-. cbn [data size capacity].
      split; [reflexivity|]. intros addr Hpast [Hcap|Hno]; [|lia].
      rewrite store_bytes_out by lia. unfold memcpy.
      destruct (Z.leb_spec ptr addr);
        destruct (Z.ltb_spec addr (ptr + capacity string));
        simpl; try reflexivity. lia.
  - unfold read_into in Hrun.
    destruct (negb (ferror_result f =? 0)); [discriminate|].
    injection Hrun as <- <- <-. cbn [data size capacity].
    split; [reflexivity|]. intros addr Hpast _.
    apply store_bytes_out. lia.
Qed.

Lemma file_read_to_string_short_read_witness :
  let m : Mem := fun addr => addr mod 256 in
  let f := mkFile 0 4 0 [0x41; 0x42] 0 in
  let string := mkString 0 0 0 in
  let arena := mkArena 65536 131072 in
  let string' := mkString 65536 4 4 in
  let arena' := mkArena 65540 131072 in
  let m' := store_bytes (memcpy m 65536 0 0) (65536 + 0)
              (firstn (Z.to_nat 4) [0x41; 0x42]) in
  size string' = size string + ftell_result f /\
  forall addr,
    data string' + size string + Z.of_nat (length (fread_bytes f)) <= addr ->
    data string' + capacity string <= addr \/
    size string + ftell_result f <= capacity string ->
    m' addr = m addr.
Proof.
  intros m f string arena string' arena' m'.
  apply (file_read_to_string_short_read f string arena m string' arena' m').
  reflexivity.
Defined.

(** X21.  When reading the file succeeds.  If the file opens, both seeks
    and [ftell] succeed, and the arena has 15 bytes more than the size the
    string will have, then [file_read_to_string] returns (no arena
    overflow), its result is [true] exactly when the stream's error flag is
    clear, and the arena loses at most that many bytes. *)
Theorem file_read_to_string_returns (f : File) (string : String)
    (arena : Arena) (m : Mem) :
  0 <= fseek_end f -> 0 <= ftell_result f -> 0 <= fseek_set f ->
  0 <= size string -> 0 <= capacity string ->
  size string + ftell_result f + 15 <= remaining arena ->
  exists string' arena' m',
    file_read_to_string (Some f) string arena m
      = ReadRet (ferror_result f =? 0) string' arena' m' /\
    remaining arena - 15 - (size string + ftell_result f) <= remaining arena'.
Proof. apply file_read_runs. Qed.

Lemma file_read_to_string_returns_witness :
  exists string' arena' m',
    file_read_to_string (Some (mkFile 0 3 0 [0xe2; 0x82; 0xac] 0))
      (mkString 0 0 0) (mkArena 65541 131072) (fun addr => addr mod 256)
      = ReadRet (ferror_result (mkFile 0 3 0 [0xe2; 0x82; 0xac] 0) =? 0)
          string' arena' m' /\
    remaining (mkArena 65541 131072) - 15
      - (size (mkString 0 0 0) + ftell_result (mkFile 0 3 0 [0xe2; 0x82; 0xac] 0))
    <= remaining arena'.
Proof.
  apply (file_read_to_string_returns (mkFile 0 3 0 [0xe2; 0x82; 0xac] 0)
           (mkString 0 0 0) (mkArena 65541 131072) (fun addr => addr mod 256));
    simpl; unfold remaining; simpl; lia.
Defined.

End FileExtras.

(** * The whole program *)

Section ProgramExtras.
Import Arena Utf8 Font8x8 Spec Program.

(** The legend handed to the validator is a span of its own buffer. *)
Lemma as_string_view_fits (string : FileIO.String) (m : Mem) :
  size (FileIO.as_string_view string m)
  <= Z.of_nat (length (data (FileIO.as_string_view string m))).
Proof.
  unfold FileIO.as_string_view. cbn [size data].
  rewrite load_bytes_length. lia.
Qed.

(** X22.  The program from file to dump.  Let [malloc] succeed, let the
    legend file open, seek and read without error and hold the UTF-8
    encoding of scalar values [cs], let the image load with width and
    height multiples of 8, and let the legend have as many non-whitespace
    code points as the image has non-empty cells, with the legend and 288
    bytes per cell (plus 30 for padding) fitting in [ARENA_CAPACITY].
    Then the program builds the table that pairs the [i]-th non-whitespace
    code point with the [i]-th non-empty cell, exits with status 0, and
    writes the dump of exactly these pairs to standard output. *)
Theorem program_prints_font (arena_memory : Z) (m : Mem) (f : FileIO.File)
    (font : Font) (cs : list Z) :
  arena_memory <> NULL ->
  0 <= FileIO.fseek_end f -> 0 <= FileIO.fseek_set f ->
  FileIO.ferror_result f = 0 ->
  FileIO.fread_bytes f = utf8_encode_all cs ->
  FileIO.ftell_result f = Z.of_nat (length (utf8_encode_all cs)) ->
  Forall scalar_value cs ->
  font_wf font ->
  length (filter (fun c => negb (char_is_space c)) cs)
    = length (nonempty_cells font) ->
  Z.of_nat (length (utf8_encode_all cs)) + 30
    + 288 * Z.of_nat (length (nonempty_cells font)) <= ARENA_CAPACITY ->
  let pairs :=
    combine (map (fun c => (c, utf8_encode c))
                 (filter (fun c => negb (char_is_space c)) cs))
            (nonempty_cells font) in
  program arena_memory m (Some f) (Some font)
    = Ran (Printed (map (fun p => glyph_of font (fst p) (snd p)) pairs)) /\
  exit_status (program arena_memory m (Some f) (Some font)) = Some 0 /\
  stdout (program arena_memory m (Some f) (Some font))
    = Some (concat (map (fun p => glyph_dump font (fst p) (snd p)) pairs)).
Proof.
  intros Hmem Hse Hss Herr Hbytes Hft Hcs Hwf Hcount Hroom pairs.
  assert (Hrun : program arena_memory m (Some f) (Some font)
                 = Ran (Printed (paired_glyphs font
                                   (map (fun c => (c, utf8_encode c))
                                        (filter (fun c => negb (char_is_space c)) cs))
                                   (nonempty_cells font)))).
  { unfold program.
    destruct (Z.eqb_spec arena_memory NULL); [contradiction|].
    set (arena := {| begin := arena_memory;
                     end_ := arena_memory + ARENA_CAPACITY |}).
    destruct (file_read_runs f (FileIO.mkString 0 0 0) arena m)
      as (s' & a' & m' & Hread & Hrem);
      try (simpl; lia).
    { unfold remaining. simpl. lia. }
    rewrite Herr in Hread. change (0 =? 0) with true in Hread.
    rewrite Hread.
    destruct (file_read_ok f (FileIO.mkString 0 0 0) arena m s' a' m')
      as (_ & _ & _ & _ & Hdata & _);
      [simpl; lia | reflexivity | rewrite Hbytes, Hft, Nat2Z.id; reflexivity
       | exact Hread |].
    change (data (FileIO.as_string_view (FileIO.mkString 0 0 0) m))
      with (@nil Z) in Hdata.
    rewrite Hbytes in Hdata. cbn [app] in Hdata.
    cbv zeta. rewrite Hdata.
    set (chars := map (fun c => (c, utf8_encode c)) cs).
    assert (Hchars : Decodes (view_of (utf8_encode_all cs)) chars).
    { apply Decodes_encode_all. eapply Forall_impl; [|exact Hcs].
      unfold scalar_value. intros c Hc. lia. }
    assert (Hns : filter nonspace chars
                  = map (fun c => (c, utf8_encode c))
                        (filter (fun c => negb (char_is_space c)) cs))
      by apply filter_nonspace_encoded.
    assert (Hlen : length (filter nonspace chars)
                   = length (nonempty_cells font))
      by (rewrite Hns, length_map; assumption).
    destruct (main_outcomes a' (utf8_encode_all cs) font chars
                (utf8_validate_well_formed cs Hcs) Hchars Hwf)
      as [Hprinted _].
    { unfold arena_fits. rewrite Hlen.
      unfold remaining in *. simpl in Hrem. lia. }
    rewrite Hprinted by (symmetry; assumption).
    rewrite Hns. reflexivity. }
  rewrite Hrun. split; [reflexivity|]. split; [reflexivity|].
  unfold stdout. apply glyphs_print_paired.
Qed.

Lemma program_prints_font_witness :
  let m : Mem := fun _ => 0 in
  let f := FileIO.mkFile 0 3 0 [0x20; 0x41; 0x0a] 0 in
  let pairs :=
    combine (map (fun c => (c, utf8_encode c))
                 (filter (fun c => negb (char_is_space c)) [0x20; 0x41; 0x0a]))
            (nonempty_cells sample_font) in
  program 65536 m (Some f) (Some sample_font)
    = Ran (Printed (map (fun p => glyph_of sample_font (fst p) (snd p)) pairs)) /\
  exit_status (program 65536 m (Some f) (Some sample_font)) = Some 0 /\
  stdout (program 65536 m (Some f) (Some sample_font))
    = Some (concat (map (fun p => glyph_dump sample_font (fst p) (snd p)) pairs)).
Proof.
  intros m f.
  apply (program_prints_font 65536 m f sample_font [0x20; 0x41; 0x0a]).
  - discriminate.
  - simpl. lia.
  - simpl. lia.
  - reflexivity.
  - reflexivity.
  - reflexivity.
  - unfold scalar_value. repeat constructor; lia.
  - unfold font_wf. simpl. repeat split; lia.
  - reflexivity.
  - vm_compute. discriminate.
Defined.

(** X23.  No read outside a buffer, whatever the legend file holds.  If
    the image fails to load, or loads with width and height multiples of 8
    and the pixel count they announce, then the program never reads past
    the legend or the pixels, for any file contents, any memory and any
    behaviour of the stream: it ends by returning from [main] or by the
    arena's [abort]. *)
Theorem program_defined (arena_memory : Z) (m : Mem)
    (chars_file : option FileIO.File) (font : option Font) :
  match font with Some font => font_wf font | None => True end ->
  program arena_memory m chars_file font <> Ran Undefined.
Proof.
  intros Hfont. unfold program.
  destruct (arena_memory =? NULL); [discriminate|].
  destruct (FileIO.file_read_to_string chars_file (FileIO.mkString 0 0 0) _ m)
    as [why|[|] s a' m']; [discriminate| |discriminate].
  cbv zeta. destruct font as [font|].
  - intros Heq. injection Heq as Heq. revert Heq.
    apply main_defined. assumption.
  - destruct (utf8_validate_total (FileIO.as_string_view s m')
                (as_string_view_fits s m')) as [[|] Hv];
      rewrite Hv; [|discriminate].
    destruct (utf8_validate_Decodes _ Hv) as [chars Hchars].
    pose proof (Decodes_length _ _ Hchars) as [Hlen _].
    rewrite (count_chars_Decodes _ _ Hchars) by lia.
    discriminate.
Qed.

Lemma program_defined_witness :
  program 65536 (fun _ => 0)
    (Some (FileIO.mkFile 0 3 0 [0xe2; 0x82; 0x41] 0)) (Some sample_font)
  <> Ran Undefined.
Proof.
  apply (program_defined 65536 (fun _ => 0)
           (Some (FileIO.mkFile 0 3 0 [0xe2; 0x82; 0x41] 0)) (Some sample_font)).
  unfold font_wf. simpl. repeat split; lia.
Defined.

Lemma file_read_abort (file : option FileIO.File) (string : FileIO.String)
    (a : Arena) (m : Mem) (why : AbortReason) :
  FileIO.file_read_to_string file string a m = FileIO.ReadAbort why ->
  why = ArenaOverflow.
Proof.
  unfold FileIO.file_read_to_string, FileIO.read_into.
  destruct file as [f|]; [|discriminate].
  destruct (FileIO.fseek_end f <? 0); [discriminate|].
  destruct (FileIO.ftell_result f <? 0); [discriminate|].
  destruct (FileIO.fseek_set f <? 0); [discriminate|].
  destruct (negb (FileIO.ferror_result f =? 0));
    (destruct (_ >? _); [|discriminate]);
    (unfold arena_realloc;
     destruct (_ >=? _); [discriminate|];
     destruct (_ && _);
     [destruct (arena_alloc _ _) as [why1|p a1] eqn:H1
     |destruct (arena_alloc _ _) as [why1|p a1] eqn:H1];
     try discriminate;
     intros Heq; injection Heq as <-; unfold arena_alloc in H1;
     (eapply arena_alloc_aligned_abort; [|exact H1]); reflexivity).
Qed.

(** X24.  The only abort is the overflow.  Every alignment the program
    asks for (16 for the legend buffer and the glyph table, 1 for the
    character bytes, 4 for the bitmaps) is a power of two, so the
    [assert] of the allocator never fires: whenever the program is ended by
    the arena, it is by the "Arena overflow." [abort]. *)
Theorem program_abort_is_overflow (arena_memory : Z) (m : Mem)
    (chars_file : option FileIO.File) (font : option Font)
    (why : AbortReason) :
  program arena_memory m chars_file font = Ran (ArenaAbort why) ->
  why = ArenaOverflow.
Proof.
  unfold program.
  destruct (arena_memory =? NULL); [discriminate|].
  destruct (FileIO.file_read_to_string chars_file (FileIO.mkString 0 0 0) _ m)
    as [why0|[|] s a' m'] eqn:Hread; [| |discriminate].
  { intros Heq. injection Heq as <-. eapply file_read_abort. exact Hread. }
  cbv zeta. destruct font as [font|].
  - intros Heq. injection Heq as Heq. eapply main_abort. exact Heq.
  - destruct (utf8_validate _) as [[|]|]; try discriminate.
    destruct (count_chars _ _ 0); discriminate.
Qed.

Lemma program_abort_is_overflow_witness : ArenaOverflow = ArenaOverflow.
Proof.
  apply (program_abort_is_overflow 65536 (fun _ => 0)
           (Some (FileIO.mkFile 0 (2 ^ 30) 0 [] 0)) None ArenaOverflow).
  vm_compute. reflexivity.
Defined.

End ProgramExtras.
